(** * A shallow embedding of the Monkey interpreter (lexer, parser, evaluator)

    The Go packages [token], [lexer], [ast], [object], [parser] and
    [evaluator] are embedded as Rocq modules of the same names.

    - Go strings are byte sequences: [string] (a list of [ascii] bytes).
    - [int64] values are [Z] with the wrap-around written out ([wrap64]).
    - A Go pointer to a heap object is an address ([nat]) handed out by a
      bump allocator kept in the evaluator state; interface equality
      ([==] on [object.Object]) is equality of dynamic type and address.
    - [*object.Environment] is a reference into a store of frames, so that
      closures and callers share, and mutate, the same frame.
    - A Go run-time panic and the exhaustion of the model's recursion fuel
      are explicit outcomes ([Panic], [OutOfFuel]).
    - Source positions ([token.Token] fields of the AST nodes) are used by
      the pretty-printer only and are left out of the AST.
    - The evaluator is parametrised by what the sources leave open: the
      table of built-in functions (builtins.go is not among the sources),
      the order in which Go ranges over a map, and the text that
      [fmt.Sprintf] prints for a format without operands. *)

From Stdlib Require Import ZArith Ascii String List Lia Permutation.
From stdpp Require Import gmap strings list fin_maps.

Set Warnings "-register-all".

Local Open Scope string_scope.
Local Open Scope nat_scope.

(* ===================================================================== *)
(** * Part I: the program                                                 *)
(* ===================================================================== *)

(** ** package token *)

Module token.

(** Modelled from the spec: token.go is not part of the sources; the kinds
    are the closed set of section 3 of the specification. *)
Inductive TokenType : Set :=
| ILLEGAL | EOF | IDENT | INT | STRING
| ASSIGN | PLUS | MINUS | BANG | ASTERISK | SLASH | LT | GT | EQ | NOT_EQ
| COMMA | SEMICOLON | COLON | LPAREN | RPAREN | LBRACE | RBRACE
| LBRACKET | RBRACKET
| FUNCTION | LET | TRUE | FALSE | IF | ELSE | RETURN.

#[global] Instance TokenType_eq_dec : EqDecision TokenType.
Proof. solve_decision. Defined.

Record Token : Set := mkToken { Type' : TokenType; Literal : string }.

(** Modelled from the spec: the keyword table ("maps the reserved words to
    their token kinds and every other literal to IDENT"). *)
Definition LookupIdent (ident : string) : TokenType :=
  if String.eqb ident "fn" then FUNCTION
  else if String.eqb ident "let" then LET
  else if String.eqb ident "true" then TRUE
  else if String.eqb ident "false" then FALSE
  else if String.eqb ident "if" then IF
  else if String.eqb ident "else" then ELSE
  else if String.eqb ident "return" then RETURN
  else IDENT.

(** Modelled from the spec: the printed form of a token kind, used in the
    parser's error messages. *)
Definition name (t : TokenType) : string :=
  match t with
  | ILLEGAL => "ILLEGAL" | EOF => "EOF" | IDENT => "IDENT" | INT => "INT"
  | STRING => "STRING" | ASSIGN => "=" | PLUS => "+" | MINUS => "-"
  | BANG => "!" | ASTERISK => "*" | SLASH => "/" | LT => "<" | GT => ">"
  | EQ => "==" | NOT_EQ => "!=" | COMMA => "," | SEMICOLON => ";"
  | COLON => ":" | LPAREN => "(" | RPAREN => ")" | LBRACE => "{"
  | RBRACE => "}" | LBRACKET => "[" | RBRACKET => "]"
  | FUNCTION => "FUNCTION" | LET => "LET" | TRUE => "TRUE"
  | FALSE => "FALSE" | IF => "IF" | ELSE => "ELSE" | RETURN => "RETURN"
  end.

End token.

(** ** package lexer *)

Module lexer.

(** [position] and [readPosition] are Go [int]s that only ever grow by one
    per byte read; they are naturals here (exact below 2^63 reads). *)
Record Lexer : Set := mkLexer {
  input : string;
  position : nat;
  readPosition : nat;
  ch : ascii
}.

(** [s[lo:hi]]; Go panics unless [lo <= hi <= len(s)]. *)
Definition slice (s : string) (lo hi : nat) : option string :=
  if (lo <=? hi) && (hi <=? String.length s)
  then Some (substring lo (hi - lo) s) else None.

Definition readChar (l : Lexer) : Lexer :=
  let c :=
    if String.length (input l) <=? readPosition l then zero
    else match String.get (readPosition l) (input l) with
         | Some b => b
         | None => zero
         end in
  {| input := input l;
     position := readPosition l;
     readPosition := readPosition l + 1;
     ch := c |}.

Definition New (input : string) : Lexer :=
  readChar {| input := input; position := 0; readPosition := 0; ch := zero |}.

Definition peekChar (l : Lexer) : ascii :=
  if String.length (input l) <=? readPosition l then zero
  else match String.get (readPosition l) (input l) with
       | Some b => b
       | None => zero
       end.

Definition isLetter (ch : ascii) : bool :=
  let c := nat_of_ascii ch in
  (97 <=? c) && (c <=? 122) || (65 <=? c) && (c <=? 90) || (c =? 95).

Definition isDigit (ch : ascii) : bool :=
  let c := nat_of_ascii ch in (48 <=? c) && (c <=? 57).

Definition isWhitespace (ch : ascii) : bool :=
  let c := nat_of_ascii ch in
  (c =? 32) || (c =? 9) || (c =? 10) || (c =? 13).

(** [for cond(l.ch) { l.readChar() }].  Every state reaches the sentinel
    byte 0 after at most [len(input) + 1] reads, so the callers below
    start the loop with that much fuel (see [readWhile_exit]). *)
Fixpoint readWhile (cond : ascii -> bool) (fuel : nat) (l : Lexer) : Lexer :=
  match fuel with
  | O => l
  | S fuel' => if cond (ch l) then readWhile cond fuel' (readChar l) else l
  end.

Definition loopFuel (l : Lexer) : nat := S (String.length (input l)).

Definition skipWhitespace (l : Lexer) : Lexer :=
  readWhile isWhitespace (loopFuel l) l.

Definition readIdentifier (l : Lexer) : option (string * Lexer) :=
  let position0 := position l in
  let l' := readWhile isLetter (loopFuel l) l in
  s ← slice (input l') position0 (position l');
  Some (s, l').

Definition readNumber (l : Lexer) : option (string * Lexer) :=
  let position0 := position l in
  let l' := readWhile isDigit (loopFuel l) l in
  s ← slice (input l') position0 (position l');
  Some (s, l').

Definition isQuote (c : ascii) : bool := nat_of_ascii c =? 34.
Definition isNul (c : ascii) : bool := nat_of_ascii c =? 0.

(** [for { l.readChar(); if l.ch == QUOTE || l.ch == 0 { break } }],
    QUOTE being the double-quote byte 34. *)
Fixpoint readString_loop (fuel : nat) (l : Lexer) : Lexer :=
  match fuel with
  | O => l
  | S fuel' =>
      let l1 := readChar l in
      if isQuote (ch l1) || isNul (ch l1) then l1 else readString_loop fuel' l1
  end.

Definition readString (l : Lexer) : option (string * Lexer) :=
  let position0 := position l + 1 in
  let l' := readString_loop (loopFuel l) l in
  s ← slice (input l') position0 (position l');
  Some (s, l').

(** [string(ch)] for a byte: the UTF-8 encoding of the code point [ch], one
    byte below 128 and two bytes from 128 on. *)
Definition stringOfByte (ch : ascii) : string :=
  let c := nat_of_ascii ch in
  if c <? 128 then String ch EmptyString
  else String (ascii_of_nat (192 + c / 64))
         (String (ascii_of_nat (128 + c mod 64)) EmptyString).

Definition newToken (tokenType : token.TokenType) (ch : ascii) : token.Token :=
  token.mkToken tokenType (stringOfByte ch).

(** The single-byte cases of the [switch l.ch] of [NextToken]. *)
Definition singleByte (c : ascii) : option token.TokenType :=
  match nat_of_ascii c with
  | 43 => Some token.PLUS
  | 45 => Some token.MINUS
  | 47 => Some token.SLASH
  | 42 => Some token.ASTERISK
  | 60 => Some token.LT
  | 62 => Some token.GT
  | 59 => Some token.SEMICOLON
  | 44 => Some token.COMMA
  | 123 => Some token.LBRACE
  | 125 => Some token.RBRACE
  | 40 => Some token.LPAREN
  | 41 => Some token.RPAREN
  | 91 => Some token.LBRACKET
  | 93 => Some token.RBRACKET
  | 58 => Some token.COLON
  | _ => None
  end.

(** [NextToken] returns the token and the advanced lexer; [None] is a Go
    slice-bounds panic (excluded for lexers made by [New], see
    [NextToken_total]). *)
Definition NextToken (l0 : Lexer) : option (token.Token * Lexer) :=
  let l := skipWhitespace l0 in
  let c := nat_of_ascii (ch l) in
  if (c =? 61) || (c =? 33) then
    (* '=' and '!' : one byte of lookahead *)
    if nat_of_ascii (peekChar l) =? 61 then
      let ch0 := ch l in
      let l1 := readChar l in
      let literal := stringOfByte ch0 ++ stringOfByte (ch l1) in
      Some (token.mkToken (if c =? 61 then token.EQ else token.NOT_EQ) literal,
            readChar l1)
    else
      Some (newToken (if c =? 61 then token.ASSIGN else token.BANG) (ch l),
            readChar l)
  else if c =? 34 then
    '(s, l1) ← readString l;
    Some (token.mkToken token.STRING s, readChar l1)
  else if c =? 0 then
    Some (token.mkToken token.EOF "", readChar l)
  else
    match singleByte (ch l) with
    | Some t => Some (newToken t (ch l), readChar l)
    | None =>
        if isLetter (ch l) then
          '(s, l1) ← readIdentifier l;
          Some (token.mkToken (token.LookupIdent s) s, l1)
        else if isDigit (ch l) then
          '(s, l1) ← readNumber l;
          Some (token.mkToken token.INT s, l1)
        else
          Some (newToken token.ILLEGAL (ch l), readChar l)
    end.

(** The lexer after [n] calls of [NextToken], and the token returned by
    call number [n] (counting from 0) on a fresh lexer. *)
Fixpoint after (n : nat) (l : Lexer) : option Lexer :=
  match n with
  | O => Some l
  | S n' => '(_, l') ← NextToken l; after n' l'
  end.

Definition nthToken (input : string) (n : nat) : option token.Token :=
  l ← after n (New input); fst <$> NextToken l.

(** The first [n] tokens of an input. *)
Fixpoint tokens (n : nat) (l : Lexer) : option (list token.Token) :=
  match n with
  | O => Some []
  | S n' => '(t, l') ← NextToken l; ts ← tokens n' l'; Some (t :: ts)
  end.

Definition eofToken : token.Token := token.mkToken token.EOF "".

Definition hasNul (s : string) : bool :=
  existsb isNul (list_ascii_of_string s).

(** The byte at index [i], or the sentinel 0 past the end of [s]. *)
Definition byteAt (s : string) (i : nat) : ascii :=
  if String.length s <=? i then zero
  else match String.get i s with Some b => b | None => zero end.

(** The lexer states that [New] and [readChar] produce: the current byte is
    the one at [position], or the sentinel 0 past the end. *)
Definition consistent (l : Lexer) : Prop :=
  readPosition l = S (position l) /\ ch l = byteAt (input l) (position l).

End lexer.

(** ** package ast *)

Module ast.

(** An expression slot of a node holds a Go interface value, which is nil
    after a failed sub-parse: slots are [option Expression].  A
    [*BlockStatement] is the list of its statements. *)
Inductive Expression : Type :=
| Identifier (Value : string)
| Boolean (Value : bool)
| IntegerLiteral (Value : Z)
| PrefixExpression (Operator : string) (Right : option Expression)
| InfixExpression (Left : option Expression) (Operator : string)
    (Right : option Expression)
| IfExpression (Condition : option Expression) (Consequence : list Statement)
    (Alternative : option (list Statement))
| FunctionLiteral (Parameters : list string) (Body : list Statement)
| CallExpression (Function : option Expression)
    (Arguments : list (option Expression))
| StringLiteral (Value : string)
| ArrayLiteral (Elements : list (option Expression))
| IndexExpression (Left : option Expression) (Index : option Expression)
| HashLiteral (Pairs : list (option Expression * option Expression))
(** [NilLetStatement] is the nil [*LetStatement] that [parseLetStatement]
    returns on failure and [parseStatement] wraps into a non-nil
    [Statement] interface value. *)
with Statement : Type :=
| LetStatement (Name : string) (Value : option Expression)
| NilLetStatement
| ReturnStatement (ReturnValue : option Expression)
| ExpressionStatement (Expression : option Expression).

(** [HashLiteral.Pairs] is a Go [map[Expression]Expression]: its keys are
    interface values compared by node identity, so two parsed keys never
    collide unless both are nil.  The list holds the entries of the map (in
    the order of their first insertion); the order in which [range] visits
    them is not part of the map, see [evaluator.rangeOrder]. *)
Definition Pairs_insert (key value : option Expression)
    (pairs : list (option Expression * option Expression))
  : list (option Expression * option Expression) :=
  match key with
  | Some _ => pairs ++ [(key, value)]
  | None =>
      if existsb (fun kv => match fst kv with None => true | Some _ => false end) pairs
      then map (fun kv => match fst kv with
                          | None => (None, value)
                          | Some _ => kv
                          end) pairs
      else pairs ++ [(key, value)]
  end.

(** The values of the interface [ast.Node] that [Eval] switches on. *)
Inductive Node : Type :=
| Program (Statements : list Statement)
| Stmt (s : Statement)
| BlockStatement (Statements : list Statement)
| Expr (e : Expression)
| Nil.

Definition exprNode (e : option Expression) : Node :=
  match e with
  | Some e => Expr e
  | None => Nil
  end.

(** A statement that is not a [let]. *)
Definition notLet (s : Statement) : bool :=
  match s with
  | LetStatement _ _ | NilLetStatement => false
  | _ => true
  end.

(** A block ends in a value when its last statement exists and is not a
    [let]. *)
Definition endsInValue (statements : list Statement) : bool :=
  match last statements with
  | Some s => notLet s
  | None => false
  end.

(** [complete e]: no slot under [e] is nil (the tree was parsed without
    error), and every block and function body under [e] ends in a value. *)
Fixpoint complete (e : Expression) : bool :=
  let slot := fun o : option Expression =>
    match o with Some e' => complete e' | None => false end in
  let block := fun statements : list Statement =>
    forallb completeStatement statements && endsInValue statements in
  match e with
  | Identifier _ | Boolean _ | IntegerLiteral _ | StringLiteral _ => true
  | PrefixExpression _ r => slot r
  | InfixExpression l _ r => slot l && slot r
  | IfExpression c conseq alt =>
      slot c && block conseq &&
      match alt with Some a => block a | None => true end
  | FunctionLiteral _ body => block body
  | CallExpression f args => slot f && forallb slot args
  | ArrayLiteral els => forallb slot els
  | IndexExpression l i => slot l && slot i
  | HashLiteral pairs => forallb (fun kv => slot (fst kv) && slot (snd kv)) pairs
  end
with completeStatement (s : Statement) : bool :=
  match s with
  | LetStatement _ (Some e) | ReturnStatement (Some e)
  | ExpressionStatement (Some e) => complete e
  | _ => false
  end.

(** [plain e]: no function is called and nothing is divided under [e]
    (function bodies apart, which only a call would run). *)
Fixpoint plain (e : Expression) : bool :=
  let slot := fun o : option Expression =>
    match o with Some e' => plain e' | None => true end in
  let block := fun statements : list Statement =>
    forallb plainStatement statements in
  match e with
  | Identifier _ | Boolean _ | IntegerLiteral _ | StringLiteral _
  | FunctionLiteral _ _ => true
  | PrefixExpression _ r => slot r
  | InfixExpression l operator r =>
      negb (String.eqb operator "/") && slot l && slot r
  | IfExpression c conseq alt =>
      slot c && block conseq &&
      match alt with Some a => block a | None => true end
  | CallExpression _ _ => false
  | ArrayLiteral els => forallb slot els
  | IndexExpression l i => slot l && slot i
  | HashLiteral pairs => forallb (fun kv => slot (fst kv) && slot (snd kv)) pairs
  end
with plainStatement (s : Statement) : bool :=
  match s with
  | LetStatement _ (Some e) | ReturnStatement (Some e)
  | ExpressionStatement (Some e) => plain e
  | _ => true
  end.

Definition plainSlot (o : option Expression) : bool :=
  match o with Some e => plain e | None => true end.

Definition plainNode (node : Node) : bool :=
  match node with
  | Program statements | BlockStatement statements =>
      forallb plainStatement statements
  | Stmt s => plainStatement s
  | Expr e => plain e
  | Nil => true
  end.

(** The number of nested calls of [Eval] that evaluating a plain node
    takes. *)
Fixpoint height (e : Expression) : nat :=
  let slot := fun o : option Expression =>
    match o with Some e' => height e' | None => 0 end in
  let block := fun statements : list Statement =>
    S (fold_right (fun s acc => Nat.max (heightStatement s) acc) 0 statements) in
  match e with
  | Identifier _ | Boolean _ | IntegerLiteral _ | StringLiteral _
  | FunctionLiteral _ _ | CallExpression _ _ => 1
  | PrefixExpression _ r => S (slot r)
  | InfixExpression l _ r => S (Nat.max (slot l) (slot r))
  | IfExpression c conseq alt =>
      S (Nat.max (slot c)
           (Nat.max (block conseq) (match alt with Some a => block a | None => 0 end)))
  | ArrayLiteral els => S (fold_right (fun o acc => Nat.max (slot o) acc) 0 els)
  | IndexExpression l i => S (Nat.max (slot l) (slot i))
  | HashLiteral pairs =>
      S (fold_right (fun kv acc =>
           Nat.max (Nat.max (slot (fst kv)) (slot (snd kv))) acc) 0 pairs)
  end
with heightStatement (s : Statement) : nat :=
  match s with
  | LetStatement _ (Some e) | ReturnStatement (Some e)
  | ExpressionStatement (Some e) => S (height e)
  | _ => 1
  end.

Definition heightSlot (o : option Expression) : nat :=
  match o with Some e => height e | None => 0 end.

Definition heightBlock (statements : list Statement) : nat :=
  S (fold_right (fun s acc => Nat.max (heightStatement s) acc) 0 statements).

Definition heightNode (node : Node) : nat :=
  match node with
  | Program statements | BlockStatement statements => heightBlock statements
  | Stmt s => heightStatement s
  | Expr e => height e
  | Nil => 1
  end.

(** [noNil e]: no slot under [e] is nil. *)
Fixpoint noNil (e : Expression) : bool :=
  let slot := fun o : option Expression =>
    match o with Some e' => noNil e' | None => false end in
  let block := fun statements : list Statement =>
    forallb noNilStatement statements in
  match e with
  | Identifier _ | Boolean _ | IntegerLiteral _ | StringLiteral _ => true
  | PrefixExpression _ r => slot r
  | InfixExpression l _ r => slot l && slot r
  | IfExpression c conseq alt =>
      slot c && block conseq &&
      match alt with Some a => block a | None => true end
  | FunctionLiteral _ body => block body
  | CallExpression f args => slot f && forallb slot args
  | ArrayLiteral els => forallb slot els
  | IndexExpression l i => slot l && slot i
  | HashLiteral pairs => forallb (fun kv => slot (fst kv) && slot (snd kv)) pairs
  end
with noNilStatement (s : Statement) : bool :=
  match s with
  | LetStatement _ (Some e) | ReturnStatement (Some e)
  | ExpressionStatement (Some e) => noNil e
  | _ => false
  end.

Definition noNilSlot (o : option Expression) : bool :=
  match o with Some e => noNil e | None => false end.

Definition noNilPair (kv : option Expression * option Expression) : bool :=
  noNilSlot (fst kv) && noNilSlot (snd kv).

Definition completeSlot (o : option Expression) : bool :=
  match o with Some e => complete e | None => false end.

Definition completeBlock (statements : list Statement) : bool :=
  forallb completeStatement statements && endsInValue statements.

Definition completeNode (node : Node) : bool :=
  match node with
  | Program statements | BlockStatement statements => completeBlock statements
  | Stmt s => completeStatement s
  | Expr e => complete e
  | Nil => false
  end.

End ast.

(** ** package strconv (Go standard library) *)

Module strconv.

(** [strconv.ParseInt(s, 0, 64)], after the documentation and the code of
    the Go standard library: an optional sign; with base 0 the base is
    taken from the prefix ([0b] 2, [0o] 8, [0x] 16, a leading [0] 8, and 10
    otherwise); a digit not below the base is a syntax error, a value that
    does not fit 64 signed bits a range error.  [None] is [err != nil].
    Underscores, which the lexer never puts into an [INT] literal, are
    rejected here. *)
Definition lower (c : nat) : nat := Nat.lor c 32.

Definition digitValue (c : ascii) : option nat :=
  let n := nat_of_ascii c in
  if (48 <=? n) && (n <=? 57) then Some (n - 48)
  else if (97 <=? lower n) && (lower n <=? 122) then Some (lower n - 97 + 10)
  else None.

(** The digit loop of [ParseUint]: [n] is the value so far. *)
Fixpoint parseDigits (base : Z) (s : string) (n : Z) : option Z :=
  match s with
  | EmptyString => Some n
  | String c rest =>
      match digitValue c with
      | None => None
      | Some d =>
          if (base <=? Z.of_nat d)%Z then None
          else if (18446744073709551615 / base + 1 <=? n)%Z then None
          else
            let n1 := (n * base + Z.of_nat d)%Z in
            if (18446744073709551615 <? n1)%Z then None
            else parseDigits base rest n1
      end
  end.

Definition ParseUint0 (s : string) : option Z :=
  match s with
  | EmptyString => None
  | String c0 rest =>
      if nat_of_ascii c0 =? 48 then
        match rest with
        | String c1 (String c2 rest2) =>
            if lower (nat_of_ascii c1) =? 98 then parseDigits 2 (String c2 rest2) 0
            else if lower (nat_of_ascii c1) =? 111 then parseDigits 8 (String c2 rest2) 0
            else if lower (nat_of_ascii c1) =? 120 then parseDigits 16 (String c2 rest2) 0
            else parseDigits 8 rest 0
        | _ => parseDigits 8 rest 0
        end
      else parseDigits 10 s 0
  end.

Definition ParseInt0_64 (s : string) : option Z :=
  match s with
  | EmptyString => None
  | String c rest =>
      let neg := nat_of_ascii c =? 45 in
      let digits := if (nat_of_ascii c =? 43) || neg then rest else s in
      match ParseUint0 digits with
      | None => None
      | Some un =>
          if negb neg && (9223372036854775808 <=? un)%Z then None
          else if neg && (9223372036854775808 <? un)%Z then None
          else Some (if neg then (- un)%Z else un)
      end
  end.

(** The number that a run of decimal digits denotes (after the digits
    already read, whose value is [acc]). *)
Fixpoint decimal (s : string) (acc : Z) : Z :=
  match s with
  | EmptyString => acc
  | String c rest => decimal rest (acc * 10 + Z.of_nat (nat_of_ascii c - 48))
  end.

Definition allDigits (s : string) : bool :=
  forallb lexer.isDigit (list_ascii_of_string s).

End strconv.

(** ** package parser *)

Module parser.

Definition LOWEST : nat := 1.
Definition EQUALS : nat := 2.
Definition LESSGREATER : nat := 3.
Definition SUM : nat := 4.
Definition PRODUCT : nat := 5.
Definition PREFIX : nat := 6.
Definition CALL : nat := 7.
Definition INDEX : nat := 8.

Definition precedences (t : token.TokenType) : option nat :=
  match t with
  | token.EQ | token.NOT_EQ => Some EQUALS
  | token.LT | token.GT => Some LESSGREATER
  | token.PLUS | token.MINUS => Some SUM
  | token.SLASH | token.ASTERISK => Some PRODUCT
  | token.LPAREN => Some CALL
  | token.LBRACKET => Some INDEX
  | _ => None
  end.

Record Parser : Set := mkParser {
  l : lexer.Lexer;
  errors : list string;
  curToken : token.Token;
  peekToken : token.Token
}.

Inductive Result (A : Type) : Type :=
| Ok (a : A) (p : Parser)
| Panic
| OutOfFuel.
Arguments Ok {A}.
Arguments Panic {A}.
Arguments OutOfFuel {A}.

Definition PM (A : Type) : Type := Parser -> Result A.

#[global] Instance PM_ret : MRet PM := fun A a p => Ok a p.
#[global] Instance PM_bind : MBind PM := fun A B f m p =>
  match m p with
  | Ok a p' => f a p'
  | Panic => Panic
  | OutOfFuel => OutOfFuel
  end.

Definition outOfFuel {A : Type} : PM A := fun _ => OutOfFuel.

Definition getCurToken : PM token.Token := fun p => Ok (curToken p) p.
Definition getPeekToken : PM token.Token := fun p => Ok (peekToken p) p.

Definition addError (msg : string) : PM unit :=
  fun p => Ok tt {| l := l p; errors := errors p ++ [msg];
                    curToken := curToken p; peekToken := peekToken p |}.

Definition nextToken : PM unit :=
  fun p => match lexer.NextToken (l p) with
           | Some (tok, l') =>
               Ok tt {| l := l'; errors := errors p;
                        curToken := peekToken p; peekToken := tok |}
           | None => Panic
           end.

(** The zero [Token] of a new parser, gone after the two calls of
    [nextToken] in [New]. *)
Definition zeroToken : token.Token := token.mkToken token.ILLEGAL "".

Definition New (l : lexer.Lexer) : Result unit :=
  (_ ← nextToken; nextToken)
    {| l := l; errors := []; curToken := zeroToken; peekToken := zeroToken |}.

Definition tokenTypeIs (tok : token.Token) (t : token.TokenType) : bool :=
  bool_decide (token.Type' tok = t).

Definition curTokenIs (t : token.TokenType) : PM bool :=
  tok ← getCurToken; mret (tokenTypeIs tok t).

Definition peekTokenIs (t : token.TokenType) : PM bool :=
  tok ← getPeekToken; mret (tokenTypeIs tok t).

Definition peekError (t : token.TokenType) : PM unit :=
  tok ← getPeekToken;
  addError ("expected next token to be " ++ token.name t ++ ", got "
            ++ token.name (token.Type' tok) ++ " instead").

Definition expectPeek (t : token.TokenType) : PM bool :=
  b ← peekTokenIs t;
  if b : bool then _ ← nextToken; mret true
  else _ ← peekError t; mret false.

Definition noPrefixParseFnError (t : token.TokenType) : PM unit :=
  addError ("no prefix parse function for " ++ token.name t ++ " found").

Definition peekPrecedence : PM nat :=
  tok ← getPeekToken; mret (default LOWEST (precedences (token.Type' tok))).

Definition curPrecedence : PM nat :=
  tok ← getCurToken; mret (default LOWEST (precedences (token.Type' tok))).

Definition parseIdentifier : PM (option ast.Expression) :=
  tok ← getCurToken; mret (Some (ast.Identifier (token.Literal tok))).

(** [%q] of a string without bytes to escape, as the digits of an [INT]
    literal are: the string between two double quotes (byte 34). *)
Definition quote (s : string) : string :=
  String (ascii_of_nat 34) (s ++ String (ascii_of_nat 34) EmptyString).

Definition parseIntegerLiteral : PM (option ast.Expression) :=
  tok ← getCurToken;
  match strconv.ParseInt0_64 (token.Literal tok) with
  | None =>
      _ ← addError ("could not parse " ++ quote (token.Literal tok) ++ " as integer");
      mret None
  | Some value => mret (Some (ast.IntegerLiteral value))
  end.

Definition parseStringLiteral : PM (option ast.Expression) :=
  tok ← getCurToken; mret (Some (ast.StringLiteral (token.Literal tok))).

Definition parseBoolean : PM (option ast.Expression) :=
  tok ← getCurToken; mret (Some (ast.Boolean (tokenTypeIs tok token.TRUE))).

Definition skipSemicolon : PM unit :=
  b ← peekTokenIs token.SEMICOLON;
  if b : bool then nextToken else mret tt.

(** The functions below call [parseExpression]; [parseExpression] stands
    for that recursive call, and [n] bounds the iterations of each loop. *)
Section Open.

Variable parseExpression : nat -> PM (option ast.Expression).
Variable n : nat.

Definition parseLetStatement : PM ast.Statement :=
  b ← expectPeek token.IDENT;
  if b : bool then
    tok ← getCurToken;
    b ← expectPeek token.ASSIGN;
    if b : bool then
      _ ← nextToken;
      value ← parseExpression LOWEST;
      _ ← skipSemicolon;
      mret (ast.LetStatement (token.Literal tok) value)
    else mret ast.NilLetStatement
  else mret ast.NilLetStatement.

Definition parseReturnStatement : PM ast.Statement :=
  _ ← nextToken;
  value ← parseExpression LOWEST;
  _ ← skipSemicolon;
  mret (ast.ReturnStatement value).

Definition parseExpressionStatement : PM ast.Statement :=
  e ← parseExpression LOWEST;
  _ ← skipSemicolon;
  mret (ast.ExpressionStatement e).

(** The [Statement] returned is never the nil interface value, so the test
    [stmt != nil] of the callers always holds. *)
Definition parseStatement : PM ast.Statement :=
  tok ← getCurToken;
  match token.Type' tok with
  | token.LET => parseLetStatement
  | token.RETURN => parseReturnStatement
  | _ => parseExpressionStatement
  end.

Fixpoint parseBlockStatement_loop (fuel : nat) (statements : list ast.Statement)
  : PM (list ast.Statement) :=
  match fuel with
  | O => outOfFuel
  | S fuel' =>
      tok ← getCurToken;
      if tokenTypeIs tok token.RBRACE || tokenTypeIs tok token.EOF then mret statements
      else
        stmt ← parseStatement;
        _ ← nextToken;
        parseBlockStatement_loop fuel' (statements ++ [stmt])
  end.

Definition parseBlockStatement : PM (list ast.Statement) :=
  _ ← nextToken;
  parseBlockStatement_loop n [].

Definition parsePrefixExpression : PM (option ast.Expression) :=
  tok ← getCurToken;
  _ ← nextToken;
  right ← parseExpression PREFIX;
  mret (Some (ast.PrefixExpression (token.Literal tok) right)).

Definition parseInfixExpression (left : option ast.Expression)
  : PM (option ast.Expression) :=
  tok ← getCurToken;
  precedence ← curPrecedence;
  _ ← nextToken;
  right ← parseExpression precedence;
  mret (Some (ast.InfixExpression left (token.Literal tok) right)).

Definition parseGroupedExpression : PM (option ast.Expression) :=
  _ ← nextToken;
  exp ← parseExpression LOWEST;
  b ← expectPeek token.RPAREN;
  if b : bool then mret exp else mret None.

Definition parseIfExpression : PM (option ast.Expression) :=
  b ← expectPeek token.LPAREN;
  if negb b then mret None else
  _ ← nextToken;
  condition ← parseExpression LOWEST;
  b ← expectPeek token.RPAREN;
  if negb b then mret None else
  b ← expectPeek token.LBRACE;
  if negb b then mret None else
  consequence ← parseBlockStatement;
  b ← peekTokenIs token.ELSE;
  if b : bool then
    _ ← nextToken;
    b ← expectPeek token.LBRACE;
    if negb b then mret None else
    alternative ← parseBlockStatement;
    mret (Some (ast.IfExpression condition consequence (Some alternative)))
  else mret (Some (ast.IfExpression condition consequence None)).

(** [for p.peekTokenIs(token.COMMA) { ... }] of [parseFunctionParameters] *)
Fixpoint parseFunctionParameters_loop (fuel : nat) (identifiers : list string)
  : PM (list string) :=
  match fuel with
  | O => outOfFuel
  | S fuel' =>
      b ← peekTokenIs token.COMMA;
      if b : bool then
        _ ← nextToken;
        _ ← nextToken;
        tok ← getCurToken;
        parseFunctionParameters_loop fuel' (identifiers ++ [token.Literal tok])
      else mret identifiers
  end.

(** The nil slice returned on failure is the empty list. *)
Definition parseFunctionParameters : PM (list string) :=
  b ← peekTokenIs token.RPAREN;
  if b : bool then _ ← nextToken; mret []
  else
    _ ← nextToken;
    tok ← getCurToken;
    identifiers ← parseFunctionParameters_loop n [token.Literal tok];
    b ← expectPeek token.RPAREN;
    if b : bool then mret identifiers else mret [].

Definition parseFunctionLiteral : PM (option ast.Expression) :=
  b ← expectPeek token.LPAREN;
  if negb b then mret None else
  parameters ← parseFunctionParameters;
  b ← expectPeek token.LBRACE;
  if negb b then mret None else
  body ← parseBlockStatement;
  mret (Some (ast.FunctionLiteral parameters body)).

Fixpoint parseExpressionList_loop (fuel : nat) (list0 : list (option ast.Expression))
  : PM (list (option ast.Expression)) :=
  match fuel with
  | O => outOfFuel
  | S fuel' =>
      b ← peekTokenIs token.COMMA;
      if b : bool then
        _ ← nextToken;
        _ ← nextToken;
        e ← parseExpression LOWEST;
        parseExpressionList_loop fuel' (list0 ++ [e])
      else mret list0
  end.

Definition parseExpressionList (end' : token.TokenType)
  : PM (list (option ast.Expression)) :=
  b ← peekTokenIs end';
  if b : bool then _ ← nextToken; mret []
  else
    _ ← nextToken;
    e ← parseExpression LOWEST;
    list0 ← parseExpressionList_loop n [e];
    b ← expectPeek end';
    if b : bool then mret list0 else mret [].

Definition parseCallExpression (function : option ast.Expression)
  : PM (option ast.Expression) :=
  arguments ← parseExpressionList token.RPAREN;
  mret (Some (ast.CallExpression function arguments)).

Definition parseArrayLiteral : PM (option ast.Expression) :=
  elements ← parseExpressionList token.RBRACKET;
  mret (Some (ast.ArrayLiteral elements)).

Definition parseIndexExpression (left : option ast.Expression)
  : PM (option ast.Expression) :=
  _ ← nextToken;
  index ← parseExpression LOWEST;
  b ← expectPeek token.RBRACKET;
  if b : bool then mret (Some (ast.IndexExpression left index)) else mret None.

(** The loop of [parseHashLiteral]; [inl tt] is a [return nil] from inside
    the loop. *)
Fixpoint parseHashLiteral_loop (fuel : nat)
    (pairs : list (option ast.Expression * option ast.Expression))
  : PM (unit + list (option ast.Expression * option ast.Expression)) :=
  match fuel with
  | O => outOfFuel
  | S fuel' =>
      b ← peekTokenIs token.RBRACE;
      if b : bool then mret (inr pairs)
      else
        _ ← nextToken;
        key ← parseExpression LOWEST;
        b ← expectPeek token.COLON;
        if negb b then mret (inl tt) else
        _ ← nextToken;
        value ← parseExpression LOWEST;
        let pairs := ast.Pairs_insert key value pairs in
        b ← peekTokenIs token.RBRACE;
        if b : bool then parseHashLiteral_loop fuel' pairs
        else
          b ← expectPeek token.COMMA;
          if b : bool then parseHashLiteral_loop fuel' pairs else mret (inl tt)
  end.

Definition parseHashLiteral : PM (option ast.Expression) :=
  r ← parseHashLiteral_loop n [];
  match r with
  | inl _ => mret None
  | inr pairs =>
      b ← expectPeek token.RBRACE;
      if b : bool then mret (Some (ast.HashLiteral pairs)) else mret None
  end.

(** [p.prefixParseFns[t]]; [None] is the nil function of an unregistered
    token type. *)
Definition prefixParseFns (t : token.TokenType) : option (PM (option ast.Expression)) :=
  match t with
  | token.IDENT => Some parseIdentifier
  | token.INT => Some parseIntegerLiteral
  | token.STRING => Some parseStringLiteral
  | token.BANG | token.MINUS => Some parsePrefixExpression
  | token.TRUE | token.FALSE => Some parseBoolean
  | token.LPAREN => Some parseGroupedExpression
  | token.IF => Some parseIfExpression
  | token.FUNCTION => Some parseFunctionLiteral
  | token.LBRACKET => Some parseArrayLiteral
  | token.LBRACE => Some parseHashLiteral
  | _ => None
  end.

Definition infixParseFns (t : token.TokenType)
  : option (option ast.Expression -> PM (option ast.Expression)) :=
  match t with
  | token.PLUS | token.MINUS | token.SLASH | token.ASTERISK
  | token.EQ | token.NOT_EQ | token.LT | token.GT => Some parseInfixExpression
  | token.LPAREN => Some parseCallExpression
  | token.LBRACKET => Some parseIndexExpression
  | _ => None
  end.

(** [for !p.peekTokenIs(token.SEMICOLON) && precedence < p.peekPrecedence() { ... }] *)
Fixpoint parseExpression_loop (fuel : nat) (precedence : nat)
    (leftExp : option ast.Expression) : PM (option ast.Expression) :=
  match fuel with
  | O => outOfFuel
  | S fuel' =>
      semicolon ← peekTokenIs token.SEMICOLON;
      peekPrec ← peekPrecedence;
      if negb semicolon && (precedence <? peekPrec) then
        tok ← getPeekToken;
        match infixParseFns (token.Type' tok) with
        | None => mret leftExp
        | Some infix =>
            _ ← nextToken;
            leftExp ← infix leftExp;
            parseExpression_loop fuel' precedence leftExp
        end
      else mret leftExp
  end.

Definition parseExpressionBody (precedence : nat) : PM (option ast.Expression) :=
  tok ← getCurToken;
  match prefixParseFns (token.Type' tok) with
  | None => _ ← noPrefixParseFnError (token.Type' tok); mret None
  | Some prefix =>
      leftExp ← prefix;
      parseExpression_loop n precedence leftExp
  end.

End Open.

(** [parseExpression]: every call takes one unit of fuel, and every loop
    started at that depth runs at most that many times. *)
Fixpoint parseExpression (fuel : nat) (precedence : nat) : PM (option ast.Expression) :=
  match fuel with
  | O => outOfFuel
  | S fuel' => parseExpressionBody (parseExpression fuel') fuel' precedence
  end.

Fixpoint ParseProgram_loop (fuel : nat) (statements : list ast.Statement)
  : PM (list ast.Statement) :=
  match fuel with
  | O => outOfFuel
  | S fuel' =>
      tok ← getCurToken;
      if tokenTypeIs tok token.EOF then mret statements
      else
        stmt ← parseStatement (parseExpression fuel');
        _ ← nextToken;
        ParseProgram_loop fuel' (statements ++ [stmt])
  end.

Definition ParseProgram (fuel : nat) : PM (list ast.Statement) :=
  ParseProgram_loop fuel [].

(** [p := New(lexer.New(input)); program := p.ParseProgram(); p.Errors()] *)
Definition parse (fuel : nat) (input : string)
  : option (list ast.Statement * list string) :=
  match New (lexer.New input) with
  | Ok _ p =>
      match ParseProgram fuel p with
      | Ok program p' => Some (program, errors p')
      | _ => None
      end
  | _ => None
  end.

(** The bytes of the input that the lexer has not read yet, and a measure
    of what is left to parse: it is 0 when the input is read and both
    tokens of the parser are [EOF], and every [nextToken] before that
    makes it smaller. *)
Definition remaining (p : Parser) : nat :=
  String.length (lexer.input (l p)) - lexer.position (l p).

Definition measure (p : Parser) : nat :=
  3 * remaining p
  + (if tokenTypeIs (peekToken p) token.EOF then 0 else 2)
  + (if tokenTypeIs (curToken p) token.EOF then 0 else 1).

(** [returns b m Q]: from every parser state over a consistent lexer with
    a measure below [b], [m] returns (no panic, fuel left); it keeps the
    lexer consistent, does not raise the measure, only appends to the
    errors, and its result is in [Q] when it appends none. *)
Definition returns {A : Type} (b : nat) (m : PM A) (Q : A -> Prop) : Prop :=
  forall p, lexer.consistent (l p) -> measure p < b ->
  exists a p', m p = Ok a p' /\ lexer.consistent (l p') /\ measure p' <= measure p /\
    errors p `prefix_of` errors p' /\ (errors p' = errors p -> Q a).

End parser.

(** ** package object *)

Module object.

Definition ObjectType : Set := string.

Definition NULL_OBJ : ObjectType := "NULL".
Definition ERROR_OBJ : ObjectType := "ERROR".
Definition INTEGER_OBJ : ObjectType := "INTEGER".
Definition BOOLEAN_OBJ : ObjectType := "BOOLEAN".
Definition STRING_OBJ : ObjectType := "STRING".
Definition RETURN_VALUE_OBJ : ObjectType := "RETURN_VALUE".
Definition FUNCTION_OBJ : ObjectType := "FUNCTION".
Definition BUILTIN_OBJ : ObjectType := "BUILTIN".
Definition ARRAY_OBJ : ObjectType := "ARRAY".
Definition HASH_OBJ : ObjectType := "HASH".

(** [HashKey{Type, Value uint64}] *)
Definition HashKey : Set := ObjectType * Z.

Record HashPair (O : Type) : Type := mkHashPair { Key : O; Value : option O }.
Arguments mkHashPair {O}.
Arguments Key {O}.
Arguments Value {O}.

(** An [Object] is a pointer to one of the structs of object.go: the first
    field [p] is its address, the others the (immutable) struct.  An
    [object.Object] interface value, which may be nil, is an
    [option Object].  [Env] is a reference into the frames of the state, and
    [Fn] names the host function of a builtin. *)
Inductive Object : Type :=
| Integer (p : nat) (Value : Z)
| Boolean (p : nat) (Value : bool)
| Null (p : nat)
| ReturnValue (p : nat) (Value : option Object)
| Error (p : nat) (Message : string)
| Function (p : nat) (Parameters : list string) (Body : list ast.Statement)
    (Env : nat)
| String (p : nat) (Value : string)
| Builtin (p : nat) (Fn : nat)
| Array (p : nat) (Elements : list (option Object))
| Hash (p : nat) (Pairs : gmap HashKey (HashPair Object)).

Definition Type' (o : Object) : ObjectType :=
  match o with
  | Integer _ _ => INTEGER_OBJ
  | Boolean _ _ => BOOLEAN_OBJ
  | Null _ => NULL_OBJ
  | ReturnValue _ _ => RETURN_VALUE_OBJ
  | Error _ _ => ERROR_OBJ
  | Function _ _ _ _ => FUNCTION_OBJ
  | String _ _ => STRING_OBJ
  | Builtin _ _ => BUILTIN_OBJ
  | Array _ _ => ARRAY_OBJ
  | Hash _ _ => HASH_OBJ
  end.

Definition addr (o : Object) : nat :=
  match o with
  | Integer p _ | Boolean p _ | Null p | ReturnValue p _ | Error p _
  | Function p _ _ _ | String p _ | Builtin p _ | Array p _ | Hash p _ => p
  end.

(** [a == b] on interface values: both nil, or the same dynamic type and
    the same pointer. *)
Definition same (a b : option Object) : bool :=
  match a, b with
  | None, None => true
  | Some x, Some y => String.eqb (Type' x) (Type' y) && Nat.eqb (addr x) (addr y)
  | _, _ => false
  end.

Definition two64 : Z := 18446744073709551616.

(** [int64] arithmetic: the result of an operation, wrapped into
    [-2^63 .. 2^63 - 1]. *)
Definition wrap64 (z : Z) : Z :=
  ((z + 9223372036854775808) mod two64 - 9223372036854775808)%Z.

(** The values of an [int64]. *)
Definition int64 (z : Z) : Prop :=
  (- 9223372036854775808 <= z < 9223372036854775808)%Z.

(** hash/fnv, [New64a]: FNV-1a over the bytes of the string. *)
Definition fnv64a (s : string) : Z :=
  fold_left
    (fun h b => (Z.lxor h (Z.of_nat (nat_of_ascii b)) * 1099511628211 mod two64)%Z)
    (list_ascii_of_string s) 14695981039346656037%Z.

(** The type assertion [obj.(Hashable)] followed by [HashKey()]; [None]
    when the object is not hashable. *)
Definition hashKey (o : Object) : option HashKey :=
  match o with
  | Integer _ v => Some (INTEGER_OBJ, (v mod two64)%Z)
  | Boolean _ b => Some (BOOLEAN_OBJ, if b then 1%Z else 0%Z)
  | String _ s => Some (STRING_OBJ, fnv64a s)
  | _ => None
  end.

(** [Environment{store, outer}]; [outer] is nil for the root scope. *)
Record Environment : Type := mkEnvironment {
  store : gmap string (option Object);
  outer : option nat
}.

End object.

(** ** package fmt (Go standard library) *)

Module fmt.

(** A format without the byte [%] holds no verb: [fmt.Sprintf] prints it
    as it is. *)
Definition verbFree (format : string) : bool :=
  forallb (fun c => negb (nat_of_ascii c =? 37)) (list_ascii_of_string format).

End fmt.

(** ** package evaluator *)

Module evaluator.

Import object.

(** The state of a run: the next free address, and the environment frames
    allocated so far.  Objects are immutable; frames are the only mutable
    heap cells. *)
Record State : Type := mkState {
  next : nat;
  frames : gmap nat Environment
}.

Inductive Result (A : Type) : Type :=
| Ok (a : A) (s : State)
| Panic (msg : string)
| OutOfFuel.
Arguments Ok {A}.
Arguments Panic {A}.
Arguments OutOfFuel {A}.

Definition M (A : Type) : Type := State -> Result A.

#[global] Instance M_ret : MRet M := fun A a s => Ok a s.
#[global] Instance M_bind : MBind M := fun A B f m s =>
  match m s with
  | Ok a s' => f a s'
  | Panic msg => Panic msg
  | OutOfFuel => OutOfFuel
  end.

Definition panic {A : Type} (msg : string) : M A := fun _ => Panic msg.
Definition outOfFuel {A : Type} : M A := fun _ => OutOfFuel.

(** [&T{...}]: a fresh address. *)
Definition alloc : M nat :=
  fun s => Ok (next s) {| next := S (next s); frames := frames s |}.

Definition nilDeref : string := "invalid memory address or nil pointer dereference".
Definition indexOutOfRange : string := "index out of range".
Definition divideByZero : string := "integer divide by zero".
Definition interfaceConversion : string := "interface conversion".

(** *** object/environment.go *)

(** [e.store] and [e.outer] of the frame at reference [e].  Environments
    are made by [NewEnvironment] and [NewEnclosedEnvironment] only and are
    never freed, so a reference without a frame does not arise in a run
    that starts in a frame; the model stops there as Go does at a nil
    [*Environment]. *)
Definition readFrame (e : nat) : M Environment :=
  fun s => match frames s !! e with
           | Some fr => Ok fr s
           | None => Panic nilDeref
           end.

Definition writeFrame (e : nat) (fr : Environment) : M unit :=
  fun s => Ok tt {| next := next s; frames := <[e := fr]> (frames s) |}.

Definition NewEnvironment : M nat :=
  env ← alloc;
  _ ← writeFrame env {| store := ∅; outer := None |};
  mret env.

Definition NewEnclosedEnvironment (outer : nat) : M nat :=
  env ← NewEnvironment;
  fr ← readFrame env;
  _ ← writeFrame env {| store := store fr; outer := Some outer |};
  mret env.

(** [Get]: [Some v] is [(v, true)], [None] is [(nil, false)].  The recursion
    follows [outer]; a frame is always younger than its outer frame, so
    [S e] steps suffice from frame [e] (see [Get_chain]). *)
Fixpoint Get_rec (fuel : nat) (e : nat) (name : string) : M (option (option Object)) :=
  match fuel with
  | O => outOfFuel
  | S fuel' =>
      fr ← readFrame e;
      match store fr !! name, outer fr with
      | None, Some o => Get_rec fuel' o name
      | r, _ => mret r
      end
  end.

Definition Get (e : nat) (name : string) : M (option (option Object)) :=
  Get_rec (S e) e name.

Definition Set' (e : nat) (name : string) (val : option Object) : M (option Object) :=
  fr ← readFrame e;
  _ ← writeFrame e {| store := <[name := val]> (store fr); outer := outer fr |};
  mret val.

(** *** evaluator.go *)

Definition NULL : Object := Null 0.
Definition TRUE : Object := Boolean 1 true.
Definition FALSE : Object := Boolean 2 false.

(** The state after package initialisation: the three singletons exist. *)
Definition initState : State := {| next := 3; frames := ∅ |}.

Definition nativeBoolToBooleanObject (input : bool) : Object :=
  if input then TRUE else FALSE.

Definition newError (msg : string) : M (option Object) :=
  p ← alloc; mret (Some (Error p msg)).

(** [obj.Type()]; a method call on a nil interface value panics. *)
Definition typeOf (obj : option Object) : M ObjectType :=
  match obj with
  | Some o => mret (Type' o)
  | None => panic nilDeref
  end.

Definition isError (obj : option Object) : bool :=
  match obj with
  | Some o => String.eqb (Type' o) ERROR_OBJ
  | None => false
  end.

Definition evalBangOperatorExpression (right : option Object) : Object :=
  if same right (Some TRUE) then FALSE
  else if same right (Some FALSE) then TRUE
  else if same right (Some NULL) then TRUE
  else FALSE.

Definition evalMinusPrefixOperatorExpression (right : option Object) : M (option Object) :=
  t ← typeOf right;
  if negb (String.eqb t INTEGER_OBJ) then newError ("unknown operator: -" ++ t)
  else match right with
       | Some (Integer _ value) => p ← alloc; mret (Some (Integer p (wrap64 (- value))))
       | _ => panic interfaceConversion
       end.

Definition evalPrefixExpression (operator : string) (right : option Object) : M (option Object) :=
  if String.eqb operator "!" then mret (Some (evalBangOperatorExpression right))
  else if String.eqb operator "-" then evalMinusPrefixOperatorExpression right
  else t ← typeOf right; newError ("unknown operator: " ++ operator ++ t).

Definition newInteger (v : Z) : M (option Object) :=
  p ← alloc; mret (Some (Integer p v)).

(** [left.Type() == t && right.Type() == t], with Go's short-circuit. *)
Definition bothTypes (t : ObjectType) (left right : option Object) : M bool :=
  lt ← typeOf left;
  if String.eqb lt t then rt ← typeOf right; mret (String.eqb rt t)
  else mret false.

Definition unknownOperator (operator : string) (left right : option Object)
  : M (option Object) :=
  lt ← typeOf left;
  rt ← typeOf right;
  newError ("unknown operator: " ++ lt ++ " " ++ operator ++ " " ++ rt).

Definition evalIntegerInfixExpression (operator : string) (left right : option Object)
  : M (option Object) :=
  match left, right with
  | Some (Integer _ leftVal), Some (Integer _ rightVal) =>
      if String.eqb operator "+" then newInteger (wrap64 (leftVal + rightVal))
      else if String.eqb operator "-" then newInteger (wrap64 (leftVal - rightVal))
      else if String.eqb operator "*" then newInteger (wrap64 (leftVal * rightVal))
      else if String.eqb operator "/" then
        if Z.eqb rightVal 0 then panic divideByZero
        else newInteger (wrap64 (Z.quot leftVal rightVal))
      else if String.eqb operator "<" then
        mret (Some (nativeBoolToBooleanObject (Z.ltb leftVal rightVal)))
      else if String.eqb operator ">" then
        mret (Some (nativeBoolToBooleanObject (Z.gtb leftVal rightVal)))
      else if String.eqb operator "==" then
        mret (Some (nativeBoolToBooleanObject (Z.eqb leftVal rightVal)))
      else if String.eqb operator "!=" then
        mret (Some (nativeBoolToBooleanObject (negb (Z.eqb leftVal rightVal))))
      else unknownOperator operator left right
  | _, _ => panic interfaceConversion
  end.

Definition evalStringInfixExpression (operator : string) (left right : option Object)
  : M (option Object) :=
  if negb (String.eqb operator "+") then unknownOperator operator left right
  else match left, right with
       | Some (String _ leftVal), Some (String _ rightVal) =>
           p ← alloc; mret (Some (String p (leftVal ++ rightVal)))
       | _, _ => panic interfaceConversion
       end.

Definition evalInfixExpression (operator : string) (left right : option Object)
  : M (option Object) :=
  bothInteger ← bothTypes INTEGER_OBJ left right;
  if bothInteger : bool then evalIntegerInfixExpression operator left right
  else
    bothString ← bothTypes STRING_OBJ left right;
    if bothString : bool then evalStringInfixExpression operator left right
    else if String.eqb operator "==" then
      mret (Some (nativeBoolToBooleanObject (same left right)))
    else if String.eqb operator "!=" then
      mret (Some (nativeBoolToBooleanObject (negb (same left right))))
    else
      lt ← typeOf left;
      rt ← typeOf right;
      if negb (String.eqb lt rt) then
        newError ("type mismatch: " ++ lt ++ " " ++ operator ++ " " ++ rt)
      else
        newError ("unknown operator: " ++ lt ++ " " ++ operator ++ " " ++ rt).

Definition isTruthy (obj : option Object) : bool :=
  if same obj (Some NULL) then false
  else if same obj (Some TRUE) then true
  else if same obj (Some FALSE) then false
  else true.

Definition unwrapReturnValue (obj : option Object) : option Object :=
  match obj with
  | Some (ReturnValue _ v) => v
  | _ => obj
  end.

Definition evalArrayIndexExpression (array index : option Object) : M (option Object) :=
  match array, index with
  | Some (Array _ Elements), Some (Integer _ idx) =>
      let max := (Z.of_nat (length Elements) - 1)%Z in
      if Z.ltb idx 0 || Z.gtb idx max then mret (Some NULL)
      else match Elements !! Z.to_nat idx with
           | Some e => mret e
           | None => panic indexOutOfRange
           end
  | _, _ => panic interfaceConversion
  end.

Definition evalHashIndexExpression (hash index : option Object) : M (option Object) :=
  match hash with
  | Some (Hash _ Pairs) =>
      match index ≫= hashKey with
      | None => t ← typeOf index; newError ("unusable as hash key: " ++ t)
      | Some key =>
          match Pairs !! key with
          | None => mret (Some NULL)
          | Some pair0 => mret (Value pair0)
          end
      end
  | _ => panic interfaceConversion
  end.

Definition evalIndexExpression (left index : option Object) : M (option Object) :=
  lt ← typeOf left;
  arrayAndInteger ←
    (if String.eqb lt ARRAY_OBJ then it ← typeOf index; mret (String.eqb it INTEGER_OBJ)
     else mret false);
  if arrayAndInteger : bool then evalArrayIndexExpression left index
  else if String.eqb lt HASH_OBJ then evalHashIndexExpression left index
  else newError ("index operator not supported: " ++ lt).

Section Eval.

(** [fmt.Sprintf(format)], the call without operands that [newError] makes
    for an unknown identifier.  The other calls of [newError] pass a
    constant format whose verbs are all [%s], and strings to print in their
    place: their messages are written out. *)
Variable Sprintf0 : string -> string.

(** builtins.go is not part of the sources.  The table [builtins] maps a
    name to the address and the host function of its [*object.Builtin];
    [callBuiltin] runs a host function. *)
Variable builtins : gmap string (nat * nat).
Variable callBuiltin : nat -> list (option Object) -> M (option Object).

(** Go leaves the order of [range] over a map unspecified: [rangeOrder]
    gives the order in which the entries of a hash literal are visited in a
    given state (some permutation of the entries). *)
Variable rangeOrder :
  State -> list (option ast.Expression * option ast.Expression) ->
  list (option ast.Expression * option ast.Expression).

Definition visitOrder (Pairs : list (option ast.Expression * option ast.Expression))
  : M (list (option ast.Expression * option ast.Expression)) :=
  fun s => Ok (rangeOrder s Pairs) s.

Definition evalIdentifier (name : string) (env : nat) : M (option Object) :=
  r ← Get env name;
  match r with
  | Some val => mret val
  | None =>
      match builtins !! name with
      | Some (p, fn) => mret (Some (Builtin p fn))
      | None => newError (Sprintf0 ("identifier not found: " ++ name))
      end
  end.

(** [for paramIdx, param := range fn.Parameters { env.Set(param.Value, args[paramIdx]) }] *)
Fixpoint bindParameters (env : nat) (params : list string) (paramIdx : nat)
    (args : list (option Object)) : M unit :=
  match params with
  | [] => mret tt
  | param :: rest =>
      match args !! paramIdx with
      | None => panic indexOutOfRange
      | Some arg =>
          _ ← Set' env param arg;
          bindParameters env rest (S paramIdx) args
      end
  end.

Definition extendFunctionEnv (fnParameters : list string) (fnEnv : nat)
    (args : list (option Object)) : M nat :=
  env ← NewEnclosedEnvironment fnEnv;
  _ ← bindParameters env fnParameters 0 args;
  mret env.

(** The functions below call [Eval] on sub-nodes; [ev] stands for that
    recursive call. *)
Section Open.

Variable ev : ast.Node -> nat -> M (option Object).

Fixpoint evalProgram_loop (statements : list ast.Statement) (env : nat)
    (result : option Object) : M (option Object) :=
  match statements with
  | [] => mret result
  | statement :: rest =>
      result ← ev (ast.Stmt statement) env;
      match result with
      | Some (ReturnValue _ v) => mret v
      | Some (Error _ _) => mret result
      | _ => evalProgram_loop rest env result
      end
  end.

Definition evalProgram (statements : list ast.Statement) (env : nat) : M (option Object) :=
  evalProgram_loop statements env None.

Fixpoint evalBlockStatement_loop (statements : list ast.Statement) (env : nat)
    (result : option Object) : M (option Object) :=
  match statements with
  | [] => mret result
  | statement :: rest =>
      result ← ev (ast.Stmt statement) env;
      match result with
      | Some o =>
          let rt := Type' o in
          if String.eqb rt RETURN_VALUE_OBJ || String.eqb rt ERROR_OBJ then mret result
          else evalBlockStatement_loop rest env result
      | None => evalBlockStatement_loop rest env result
      end
  end.

Definition evalBlockStatement (statements : list ast.Statement) (env : nat)
  : M (option Object) :=
  evalBlockStatement_loop statements env None.

Definition evalIfExpression (Condition : option ast.Expression)
    (Consequence : list ast.Statement) (Alternative : option (list ast.Statement))
    (env : nat) : M (option Object) :=
  condition ← ev (ast.exprNode Condition) env;
  if isError condition then mret condition
  else if isTruthy condition then ev (ast.BlockStatement Consequence) env
  else match Alternative with
       | Some alt => ev (ast.BlockStatement alt) env
       | None => mret (Some NULL)
       end.

(** [evalExpressions]; the result of the loop is the list built so far, or
    the one-element list of the first error. *)
Fixpoint evalExpressions_loop (exps : list (option ast.Expression)) (env : nat)
    (result : list (option Object)) : M (list (option Object)) :=
  match exps with
  | [] => mret result
  | e :: rest =>
      evaluated ← ev (ast.exprNode e) env;
      if isError evaluated then mret [evaluated]
      else evalExpressions_loop rest env (result ++ [evaluated])
  end.

Definition evalExpressions (exps : list (option ast.Expression)) (env : nat)
  : M (list (option Object)) :=
  evalExpressions_loop exps env [].

Definition applyFunction (fn : option Object) (args : list (option Object))
  : M (option Object) :=
  match fn with
  | Some (Function _ Parameters Body Env) =>
      extendedEnv ← extendFunctionEnv Parameters Env args;
      evaluated ← ev (ast.BlockStatement Body) extendedEnv;
      mret (unwrapReturnValue evaluated)
  | Some (Builtin _ Fn) => callBuiltin Fn args
  | _ => t ← typeOf fn; newError ("not a function: " ++ t)
  end.

(** The body of the [range node.Pairs] loop of [evalHashLiteral], over the
    entries in the order they are visited: [inl] is a [return] from inside
    the loop, [inr] the map after the last entry. *)
Fixpoint evalHashLiteral_loop
    (entries : list (option ast.Expression * option ast.Expression)) (env : nat)
    (pairs : gmap HashKey (HashPair Object))
  : M (option Object + gmap HashKey (HashPair Object)) :=
  match entries with
  | [] => mret (inr pairs)
  | (keyNode, valueNode) :: rest =>
      key ← ev (ast.exprNode keyNode) env;
      if isError key then mret (inl key)
      else match key, key ≫= hashKey with
           | Some k, Some hashed =>
               value ← ev (ast.exprNode valueNode) env;
               if isError value then mret (inl value)
               else evalHashLiteral_loop rest env
                      (<[hashed := mkHashPair k value]> pairs)
           | _, _ =>
               t ← typeOf key;
               r ← newError ("unusable as hash key: " ++ t);
               mret (inl r)
           end
  end.

Definition evalHashLiteral (Pairs : list (option ast.Expression * option ast.Expression))
    (env : nat) : M (option Object) :=
  order ← visitOrder Pairs;
  r ← evalHashLiteral_loop order env ∅;
  match r with
  | inl o => mret o
  | inr pairs => p ← alloc; mret (Some (Hash p pairs))
  end.

Definition EvalNode (node : ast.Node) (env : nat) : M (option Object) :=
  match node with
  | ast.Program statements => evalProgram statements env
  | ast.Stmt (ast.ExpressionStatement e) => ev (ast.exprNode e) env
  | ast.BlockStatement statements => evalBlockStatement statements env
  | ast.Stmt (ast.ReturnStatement e) =>
      val ← ev (ast.exprNode e) env;
      if isError val then mret val
      else p ← alloc; mret (Some (ReturnValue p val))
  | ast.Stmt (ast.LetStatement name e) =>
      val ← ev (ast.exprNode e) env;
      if isError val then mret val
      else _ ← Set' env name val; mret None
  | ast.Stmt ast.NilLetStatement => panic nilDeref
  | ast.Expr (ast.IntegerLiteral v) => newInteger v
  | ast.Expr (ast.StringLiteral v) => p ← alloc; mret (Some (String p v))
  | ast.Expr (ast.Boolean v) => mret (Some (nativeBoolToBooleanObject v))
  | ast.Expr (ast.PrefixExpression operator r) =>
      right ← ev (ast.exprNode r) env;
      if isError right then mret right
      else evalPrefixExpression operator right
  | ast.Expr (ast.InfixExpression l operator r) =>
      left ← ev (ast.exprNode l) env;
      if isError left then mret left
      else right ← ev (ast.exprNode r) env;
           if isError right then mret right
           else evalInfixExpression operator left right
  | ast.Expr (ast.IfExpression c conseq alt) => evalIfExpression c conseq alt env
  | ast.Expr (ast.Identifier name) => evalIdentifier name env
  | ast.Expr (ast.FunctionLiteral params body) =>
      p ← alloc; mret (Some (Function p params body env))
  | ast.Expr (ast.CallExpression f arguments) =>
      function ← ev (ast.exprNode f) env;
      if isError function then mret function
      else args ← evalExpressions arguments env;
           match args with
           | [a] => if isError a then mret a else applyFunction function args
           | _ => applyFunction function args
           end
  | ast.Expr (ast.ArrayLiteral els) =>
      elements ← evalExpressions els env;
      match elements with
      | [a] => if isError a then mret a
               else p ← alloc; mret (Some (Array p elements))
      | _ => p ← alloc; mret (Some (Array p elements))
      end
  | ast.Expr (ast.IndexExpression l i) =>
      left ← ev (ast.exprNode l) env;
      if isError left then mret left
      else index ← ev (ast.exprNode i) env;
           if isError index then mret index
           else evalIndexExpression left index
  | ast.Expr (ast.HashLiteral pairs) => evalHashLiteral pairs env
  | ast.Nil => mret None
  end.

End Open.

(** [Eval]: every call of the Go function takes one unit of fuel. *)
Fixpoint Eval (fuel : nat) (node : ast.Node) (env : nat) : M (option Object) :=
  match fuel with
  | O => outOfFuel
  | S fuel' => EvalNode (Eval fuel') node env
  end.

End Eval.

(** [inv I m]: every successful run of [m] from a state in [I] ends in [I]. *)
Definition inv (I : State -> Prop) {A : Type} (m : M A) : Prop :=
  forall s a s', I s -> m s = Ok a s' -> I s'.

(** The state after one allocation. *)
Definition bump (s : State) : State := {| next := S (next s); frames := frames s |}.

(** The search of section 3 of the specification: [Get] "searches the chain
    from innermost outward".  [lookupChain fs e name r]: in the frames [fs],
    the chain that starts at frame [e] binds [name] first to [r = Some v],
    or not at all ([r = None]). *)
Inductive lookupChain (fs : gmap nat Environment) (name : string)
  : nat -> option (option Object) -> Prop :=
| lookup_here e fr v :
    fs !! e = Some fr -> store fr !! name = Some v ->
    lookupChain fs name e (Some v)
| lookup_outer e fr o r :
    fs !! e = Some fr -> store fr !! name = None -> outer fr = Some o ->
    lookupChain fs name o r ->
    lookupChain fs name e r
| lookup_unbound e fr :
    fs !! e = Some fr -> store fr !! name = None -> outer fr = None ->
    lookupChain fs name e None.

(** The frames that [NewEnvironment] and [NewEnclosedEnvironment] build: the
    outer frame of a frame exists and is older than the frame. *)
Definition wfFrames (fs : gmap nat Environment) : Prop :=
  forall e fr o, fs !! e = Some fr -> outer fr = Some o -> o < e /\ is_Some (fs !! o).

(** The states that a run builds: the frames are well formed, and older
    than the next address. *)
Definition wfState (s : State) : Prop :=
  wfFrames (frames s) /\ forall e, is_Some (frames s !! e) -> e < next s.

(** The bindings that the loop of [extendFunctionEnv] adds to a store:
    every parameter is bound to the argument at its position, in the order
    of the parameters (a later parameter of the same name overwrites). *)
Fixpoint bound (params : list string) (args : list (option Object))
    (store0 : gmap string (option Object)) : gmap string (option Object) :=
  match params, args with
  | param :: params', arg :: args' => bound params' args' (<[param := arg]> store0)
  | _, _ => store0
  end.

(** Host functions allocate, and never give addresses back. *)
Definition allocateOnly (callBuiltin : nat -> list (option Object) -> M (option Object))
  : Prop :=
  forall n fn args, inv (fun s => n <= next s) (callBuiltin fn args).

(** [writesOnly W m]: a run of [m] that returns takes no address back and
    leaves every frame that was there before (at an address below [next]),
    those in [W] apart, as it was. *)
Definition writesOnly (W : nat -> Prop) {A : Type} (m : M A) : Prop :=
  forall s a s', m s = Ok a s' ->
    next s <= next s' /\
    forall e, e < next s -> ~ W e -> frames s' !! e = frames s !! e.

(** Host functions that leave the frames alone. *)
Definition framesKept (callBuiltin : nat -> list (option Object) -> M (option Object))
  : Prop :=
  forall fn args, writesOnly (fun _ => False) (callBuiltin fn args).

(** The expressions that construct a new Array or Hash. *)
Definition constructsAggregate (e : ast.Expression) : bool :=
  match e with
  | ast.ArrayLiteral _ | ast.HashLiteral _ => true
  | _ => false
  end.

(** [Sprintf0] on the formats without verbs. *)
Definition printsVerbFree (Sprintf0 : string -> string) : Prop :=
  forall format, fmt.verbFree format = true -> Sprintf0 format = format.

(** A run of a whole program in a fresh root environment, without builtins,
    the entries of a hash literal being visited in source order; and the
    value a run returns, if it returns.  Formats are printed as they are,
    which is what [fmt.Sprintf] does for the names that the lexer makes
    (letters and [_]). *)
Definition verbatim : string -> string := fun format => format.

Definition noBuiltins : gmap string (nat * nat) := ∅.

Definition noBuiltinCall : nat -> list (option Object) -> M (option Object) :=
  fun _ _ => panic "no such builtin".

Definition sourceOrder
  : State -> list (option ast.Expression * option ast.Expression) ->
    list (option ast.Expression * option ast.Expression) :=
  fun _ entries => entries.

Definition run (fuel : nat) (program : list ast.Statement) : Result (option Object) :=
  (env ← NewEnvironment;
   Eval verbatim noBuiltins noBuiltinCall sourceOrder fuel (ast.Program program) env) initState.

(** The root environment of [run] and the state in which it starts. *)
Definition rootEnv : nat := 3.

Definition rootState : State :=
  match NewEnvironment initState with
  | Ok _ s => s
  | _ => initState
  end.

Definition value {A : Type} (r : Result A) : option A :=
  match r with
  | Ok a _ => Some a
  | _ => None
  end.

(** The pipeline of section 2 of the specification: the source text is
    parsed and, when there is no parse error, the program is run. *)
Definition interpret (fuel : nat) (input : string) : option (Result (option Object)) :=
  match parser.parse fuel input with
  | Some (program, []) => Some (run fuel program)
  | _ => None
  end.

(** The value that a source text evaluates to, when it parses without
    error and its evaluation returns; the message of the Error and the
    number of the Integer that it evaluates to. *)
Definition valueOf (input : string) : option (option Object) :=
  r ← interpret 30 input; value r.

Definition messageOf (input : string) : option string :=
  match valueOf input with
  | Some (Some (Error _ msg)) => Some msg
  | _ => None
  end.

Definition integerOf (input : string) : option Z :=
  match valueOf input with
  | Some (Some (Integer _ v)) => Some v
  | _ => None
  end.

(** [good o]: no nil is stored inside the object [o], and the body of every
    function inside it is complete. *)
Inductive good : Object -> Prop :=
| good_Integer p v : good (Integer p v)
| good_Boolean p b : good (Boolean p b)
| good_Null p : good (Null p)
| good_ReturnValue p o : good o -> good (ReturnValue p (Some o))
| good_Error p msg : good (Error p msg)
| good_Function p Parameters Body Env :
    ast.completeBlock Body = true -> good (Function p Parameters Body Env)
| good_String p v : good (String p v)
| good_Builtin p fn : good (Builtin p fn)
| good_Array p Elements :
    Forall (fun e => exists o, e = Some o /\ good o) Elements ->
    good (Array p Elements)
| good_Hash p Pairs :
    map_Forall (fun _ pair0 =>
      good (Key pair0) /\ exists o, Value pair0 = Some o /\ good o) Pairs ->
    good (Hash p Pairs).

(** A result that is an object (a value or an Error), not nil. *)
Definition goodResult (r : option Object) : Prop :=
  exists o, r = Some o /\ good o.

Definition goodPair (pair0 : HashPair Object) : Prop :=
  good (Key pair0) /\ goodResult (Value pair0).

Definition goodStore (store0 : gmap string (option Object)) : Prop :=
  forall name v, store0 !! name = Some v -> goodResult v.

(** Every name bound in a frame is bound to a good object. *)
Definition goodState (s : State) : Prop :=
  forall e fr, frames s !! e = Some fr -> goodStore (store fr).

(** [sound m Q]: every successful run of [m] from a good state ends in a
    good state with a result in [Q]. *)
Definition sound {A : Type} (m : M A) (Q : A -> Prop) : Prop :=
  forall s a s', goodState s -> m s = Ok a s' -> goodState s' /\ Q a.

(** The states in which a plain node is evaluated in the frame [env]: good,
    with well-formed frames, [env] among them. *)
Definition steady (env : nat) (s : State) : Prop :=
  goodState s /\ wfFrames (frames s) /\ is_Some (frames s !! env).

(** [total env m Q]: from every steady state [m] returns, in a steady
    state, a result in [Q]. *)
Definition total {A : Type} (env : nat) (m : M A) (Q : A -> Prop) : Prop :=
  forall s, steady env s -> exists a s', m s = Ok a s' /\ steady env s' /\ Q a.

(** A node that a call of [Eval] with fuel [n] can take: complete, plain
    and of height at most [n]. *)
Definition fits (n : nat) (node : ast.Node) : Prop :=
  ast.completeNode node = true /\ ast.plainNode node = true /\ ast.heightNode node <= n.

(** Host functions return objects, and keep the state good. *)
Definition goodBuiltins (callBuiltin : nat -> list (option Object) -> M (option Object))
  : Prop :=
  forall fn args, Forall goodResult args -> sound (callBuiltin fn args) goodResult.

(** What [Eval] returns on a complete node: nothing or an Error for a
    [let] statement, an object for every other node. *)
Definition resultOf (node : ast.Node) (r : option Object) : Prop :=
  match node with
  | ast.Stmt (ast.LetStatement _ _) => r = None \/ isError r = true
  | _ => goodResult r
  end.

(** A statement result after which the loops of [evalProgram] and
    [evalBlockStatement] go on to the next statement. *)
Definition continues (result : option Object) : bool :=
  match result with
  | Some (ReturnValue _ _) | Some (Error _ _) => false
  | _ => true
  end.

(** [passes ev env statements s s']: from state [s] every statement of
    [statements] evaluates, in order, to a result after which the loop
    continues, and leaves state [s']. *)
Inductive passes (ev : ast.Node -> nat -> M (option Object)) (env : nat)
  : list ast.Statement -> State -> State -> Prop :=
| passes_nil s : passes ev env [] s s
| passes_cons statement rest s result s1 s2 :
    ev (ast.Stmt statement) env s = Ok result s1 ->
    continues result = true ->
    passes ev env rest s1 s2 ->
    passes ev env (statement :: rest) s s2.

(** [visits ev env entries s inserted s']: from state [s] the entries are
    evaluated one after the other, each key before its value, every key is
    hashable and nothing is an error; [inserted] lists the map insertions
    made, in that order, and [s'] is the state left. *)
Inductive visits (ev : ast.Node -> nat -> M (option Object)) (env : nat)
  : list (option ast.Expression * option ast.Expression) -> State ->
    list (HashKey * HashPair Object) -> State -> Prop :=
| visits_nil s : visits ev env [] s [] s
| visits_cons keyNode valueNode rest s key s1 hashed val s2 inserted s3 :
    ev (ast.exprNode keyNode) env s = Ok (Some key) s1 ->
    isError (Some key) = false ->
    hashKey key = Some hashed ->
    ev (ast.exprNode valueNode) env s1 = Ok val s2 ->
    isError val = false ->
    visits ev env rest s2 inserted s3 ->
    visits ev env ((keyNode, valueNode) :: rest) s
      ((hashed, mkHashPair key val) :: inserted) s3.

(** [evaluated ev env exps s vals s']: from state [s] the expressions are
    evaluated one after the other, none to an Error; [vals] are their
    results, in that order, and [s'] is the state left. *)
Inductive evaluated (ev : ast.Node -> nat -> M (option Object)) (env : nat)
  : list (option ast.Expression) -> State -> list (option Object) -> State -> Prop :=
| evaluated_nil s : evaluated ev env [] s [] s
| evaluated_cons e rest s val s1 vals s2 :
    ev (ast.exprNode e) env s = Ok val s1 ->
    isError val = false ->
    evaluated ev env rest s1 vals s2 ->
    evaluated ev env (e :: rest) s (val :: vals) s2.

(** [pairs[hashed] = ...] for each insertion, in order. *)
Definition insertAll (inserted : list (HashKey * HashPair Object))
    (pairs : gmap HashKey (HashPair Object)) : gmap HashKey (HashPair Object) :=
  fold_left (fun m e => <[fst e := snd e]> m) inserted pairs.

(** The Integer stored under the key [hk] of the Hash that a run returns. *)
Definition integerAt (r : Result (option Object)) (hk : HashKey) : option Z :=
  match r with
  | Ok (Some (Hash _ Pairs)) _ =>
      match Pairs !! hk with
      | Some {| Value := Some (Integer _ v) |} => Some v
      | _ => None
      end
  | _ => None
  end.

(** The pair inserted last under the key [hk]. *)
Fixpoint lastEntry (hk : HashKey) (inserted : list (HashKey * HashPair Object))
  : option (HashPair Object) :=
  match inserted with
  | [] => None
  | (k, pair0) :: rest =>
      match lastEntry hk rest with
      | Some later => Some later
      | None => if decide (k = hk) then Some pair0 else None
      end
  end.

End evaluator.

(* ===================================================================== *)
(** * Part II: properties                                                 *)
(* ===================================================================== *)

Example lexer_demo :
  lexer.tokens 6 (lexer.New "let x = 10;") =
  Some [token.mkToken token.LET "let"; token.mkToken token.IDENT "x";
        token.mkToken token.ASSIGN "="; token.mkToken token.INT "10";
        token.mkToken token.SEMICOLON ";"; token.mkToken token.EOF ""].
Proof. reflexivity. Qed.

(** ** The lexer *)

Section LexerFacts.

Import lexer.

Lemma byteAt_end s i : String.length s <= i -> byteAt s i = zero.
Proof.
  intros H. unfold byteAt.
  destruct (Nat.leb_spec (String.length s) i); [reflexivity | lia].
Qed.

Lemma byteAt_nonzero s i : byteAt s i <> zero -> i < String.length s.
Proof.
  intros H. destruct (Nat.lt_ge_cases i (String.length s)) as [Hlt | Hge];
    [assumption | exfalso; apply H, byteAt_end, Hge].
Qed.

Lemma readChar_input l : input (readChar l) = input l.
Proof. reflexivity. Qed.

Lemma readChar_position l : position (readChar l) = readPosition l.
Proof. reflexivity. Qed.

Lemma readChar_consistent l : consistent (readChar l).
Proof. split; simpl; [lia | reflexivity]. Qed.

Lemma New_consistent s : consistent (New s) /\ input (New s) = s /\ position (New s) = 0.
Proof. split; [apply readChar_consistent | split; reflexivity]. Qed.

Lemma consistent_position l :
  consistent l -> position (readChar l) = S (position l).
Proof. intros [H _]. simpl. exact H. Qed.

Lemma consistent_ch_nonzero l :
  consistent l -> ch l <> zero -> position l < String.length (input l).
Proof. intros [_ H] Hnz. apply byteAt_nonzero. rewrite <- H. exact Hnz. Qed.

Lemma consistent_ch_end l :
  consistent l -> String.length (input l) <= position l -> ch l = zero.
Proof. intros [_ H] Hle. rewrite H. apply byteAt_end, Hle. Qed.

(** *** The scanning loops leave through their exit test *)

Lemma readWhile_spec cond (Hz : cond zero = false) fuel : forall l,
  consistent l ->
  String.length (input l) <= position l + fuel ->
  let l' := readWhile cond fuel l in
  consistent l' /\ input l' = input l /\ position l <= position l' /\
  cond (ch l') = false /\
  (position l <= String.length (input l) -> position l' <= String.length (input l)) /\
  (cond (ch l) = true -> position l < position l').
Proof.
  induction fuel as [| fuel IH]; intros l Hc Hf; cbn [readWhile].
  - assert (ch l = zero) as Hz' by (apply consistent_ch_end; [assumption | lia]).
    rewrite Hz', Hz. repeat split; auto; try apply Hc; discriminate.
  - destruct (cond (ch l)) eqn:Hcond.
    + assert (ch l <> zero) as Hnz by (intros E; rewrite E, Hz in Hcond; discriminate).
      pose proof (consistent_ch_nonzero l Hc Hnz) as Hlt.
      pose proof (consistent_position l Hc) as Hp.
      destruct (IH (readChar l) (readChar_consistent l)) as (H1 & H2 & H3 & H4 & H5 & _).
      { rewrite readChar_input, Hp. lia. }
      rewrite readChar_input, Hp in *.
      repeat split; auto; try apply H1; try lia.
    + repeat split; auto; try apply Hc; discriminate.
Qed.

(** Enough fuel from every state, consistent or not. *)
Lemma readWhile_exit cond (Hz : cond zero = false) l :
  cond (ch (readWhile cond (loopFuel l) l)) = false.
Proof.
  unfold loopFuel. simpl. destruct (cond (ch l)) eqn:Hcond; [| exact Hcond].
  apply (readWhile_spec cond Hz (String.length (input l)) (readChar l)).
  - apply readChar_consistent.
  - rewrite readChar_input. lia.
Qed.

Lemma readString_loop_spec fuel : forall l,
  consistent l ->
  position l < String.length (input l) ->
  String.length (input l) <= position l + fuel ->
  let l' := readString_loop fuel l in
  consistent l' /\ input l' = input l /\
  S (position l) <= position l' /\ position l' <= String.length (input l) /\
  isQuote (ch l') || isNul (ch l') = true.
Proof.
  induction fuel as [| fuel IH]; intros l Hc Hlt Hf; cbn [readString_loop]; [lia |].
  pose proof (consistent_position l Hc) as Hp.
  destruct (isQuote (ch (readChar l)) || isNul (ch (readChar l))) eqn:Hexit.
  - rewrite Hp. repeat split; try apply readChar_consistent; auto; lia.
  - assert (ch (readChar l) <> zero) as Hnz.
    { intros E. rewrite E in Hexit. discriminate. }
    pose proof (consistent_ch_nonzero _ (readChar_consistent l) Hnz) as Hlt'.
    rewrite readChar_input, Hp in Hlt'.
    destruct (IH (readChar l) (readChar_consistent l)) as (H1 & H2 & H3 & H4 & H5).
    { rewrite readChar_input, Hp. exact Hlt'. }
    { rewrite readChar_input, Hp. lia. }
    rewrite readChar_input, Hp in *.
    repeat split; auto; try apply H1; lia.
Qed.

Lemma slice_in_bounds s lo hi :
  lo <= hi -> hi <= String.length s -> slice s lo hi = Some (substring lo (hi - lo) s).
Proof.
  intros H1 H2. unfold slice.
  destruct (Nat.leb_spec lo hi); [| lia].
  destruct (Nat.leb_spec hi (String.length s)); [reflexivity | lia].
Qed.

End LexerFacts.

Section NextTokenFacts.

Import lexer.

Lemma isWhitespace_zero : isWhitespace zero = false.
Proof. reflexivity. Qed.

Lemma skipWhitespace_spec l :
  consistent l ->
  let l' := skipWhitespace l in
  consistent l' /\ input l' = input l /\ position l <= position l' /\
  isWhitespace (ch l') = false.
Proof.
  intros Hc.
  destruct (readWhile_spec isWhitespace isWhitespace_zero (loopFuel l) l Hc)
    as (H1 & H2 & H3 & H4 & _); [unfold loopFuel; lia |].
  unfold skipWhitespace. auto.
Qed.

Lemma skipWhitespace_at_end l :
  ch l = zero -> skipWhitespace l = l.
Proof. intros H. unfold skipWhitespace, loopFuel. cbn [readWhile]. rewrite H. reflexivity. Qed.

(** [readIdentifier] and [readNumber]: the slice is within bounds. *)
Lemma readRun_total cond (Hz : cond zero = false) l :
  consistent l -> cond (ch l) = true ->
  let l' := readWhile cond (loopFuel l) l in
  exists s, slice (input l') (position l) (position l') = Some s /\
    consistent l' /\ input l' = input l /\ position l < position l'.
Proof.
  intros Hc Hcond.
  assert (ch l <> zero) as Hnz by (intros E; rewrite E, Hz in Hcond; discriminate).
  pose proof (consistent_ch_nonzero l Hc Hnz) as Hlt.
  destruct (readWhile_spec cond Hz (loopFuel l) l Hc)
    as (H1 & H2 & H3 & H4 & H5 & H6); [unfold loopFuel; lia |].
  cbv zeta. eexists. split; [apply slice_in_bounds |]; rewrite ?H2; auto.
  apply H5. lia.
Qed.

Lemma readString_total l :
  consistent l -> ch l <> zero ->
  exists s l', readString l = Some (s, l') /\
    consistent l' /\ input l' = input l /\ position l < position l'.
Proof.
  intros Hc Hnz.
  pose proof (consistent_ch_nonzero l Hc Hnz) as Hlt.
  destruct (readString_loop_spec (loopFuel l) l Hc Hlt)
    as (H1 & H2 & H3 & H4 & H5); [unfold loopFuel; lia |].
  unfold readString. rewrite slice_in_bounds; rewrite ?H2; try lia.
  cbn. eexists _, _. split; [reflexivity |]. repeat split; auto; try apply H1; lia.
Qed.

Lemma nat_of_ascii_zero c : nat_of_ascii c = 0 -> c = zero.
Proof.
  intros H. rewrite <- (ascii_nat_embedding c), H. reflexivity.
Qed.

Lemma nat_of_ascii_nonzero c n : nat_of_ascii c = S n -> c <> zero.
Proof. intros H E. rewrite E in H. discriminate. Qed.

(** Every call on a consistent lexer returns, stays consistent and consumes
    at least one position. *)
Lemma NextToken_total l0 :
  consistent l0 ->
  exists t l', NextToken l0 = Some (t, l') /\
    consistent l' /\ input l' = input l0 /\ position l0 < position l'.
Proof.
  intros Hc0.
  destruct (skipWhitespace_spec l0 Hc0) as (Hc & Hin & Hpos & _).
  unfold NextToken. set (l := skipWhitespace l0) in *.
  pose proof (consistent_position l Hc) as Hp.
  pose proof (readChar_consistent l) as Hc1.
  assert (forall t : token.Token, exists t' l', Some (t, readChar l) = Some (t', l') /\
            consistent l' /\ input l' = input l0 /\ position l0 < position l') as Hone.
  { intros t. eexists _, _. split; [reflexivity |].
    rewrite readChar_input, Hp. repeat split; auto; try apply Hc1. lia. }
  cbv zeta.
  destruct ((nat_of_ascii (ch l) =? 61) || (nat_of_ascii (ch l) =? 33)) eqn:E1.
  { destruct (nat_of_ascii (peekChar l) =? 61); [| apply Hone].
    eexists _, _. split; [reflexivity |].
    pose proof (consistent_position _ Hc1) as Hp2.
    rewrite !readChar_input, Hp2, Hp.
    repeat split; auto; try apply (readChar_consistent (readChar l)). lia. }
  destruct (nat_of_ascii (ch l) =? 34) eqn:E2.
  { apply Nat.eqb_eq in E2.
    destruct (readString_total l Hc (nat_of_ascii_nonzero _ _ E2))
      as (s & l1 & Hrs & Hc' & Hin' & Hpos').
    rewrite Hrs. cbn. eexists _, _. split; [reflexivity |].
    rewrite readChar_input, (consistent_position _ Hc'), Hin'.
    repeat split; auto; try apply (readChar_consistent l1). lia. }
  destruct (nat_of_ascii (ch l) =? 0) eqn:E3; [apply Hone |].
  destruct (singleByte (ch l)); [apply Hone |].
  destruct (isLetter (ch l)) eqn:E4.
  { destruct (readRun_total isLetter eq_refl l Hc E4) as (s & Hs & Hc' & Hin' & Hpos').
    unfold readIdentifier. cbv zeta. rewrite Hs. cbn [mbind option_bind]. eexists _, _. split; [reflexivity |].
    rewrite Hin'. repeat split; auto; try apply Hc'. lia. }
  destruct (isDigit (ch l)) eqn:E5; [| apply Hone].
  destruct (readRun_total isDigit eq_refl l Hc E5) as (s & Hs & Hc' & Hin' & Hpos').
  unfold readNumber. cbv zeta. rewrite Hs. cbn [mbind option_bind]. eexists _, _. split; [reflexivity |].
  rewrite Hin'. repeat split; auto; try apply Hc'. lia.
Qed.

(** At the end of the input every call yields [EOF] and moves on. *)
Lemma NextToken_at_end l :
  consistent l -> String.length (input l) <= position l ->
  NextToken l = Some (eofToken, readChar l).
Proof.
  intros Hc Hle. pose proof (consistent_ch_end l Hc Hle) as Hz.
  unfold NextToken. rewrite (skipWhitespace_at_end l Hz), Hz. reflexivity.
Qed.

Lemma LookupIdent_not_EOF s : token.LookupIdent s <> token.EOF.
Proof.
  unfold token.LookupIdent.
  repeat match goal with |- context [String.eqb ?a ?b] => destruct (String.eqb a b) end;
    discriminate.
Qed.

Lemma singleByte_not_EOF c t : singleByte c = Some t -> t <> token.EOF.
Proof.
  destruct c as [[] [] [] [] [] [] [] []]; cbv; intros H E; subst; discriminate.
Qed.

(** An [EOF] token only comes from the sentinel byte. *)
Lemma NextToken_EOF_inv l0 t l' :
  NextToken l0 = Some (t, l') -> token.Type' t = token.EOF ->
  t = eofToken /\ ch (skipWhitespace l0) = zero /\ l' = readChar (skipWhitespace l0).
Proof.
  unfold NextToken. set (l := skipWhitespace l0). cbv zeta.
  destruct ((nat_of_ascii (ch l) =? 61) || (nat_of_ascii (ch l) =? 33)).
  { destruct (nat_of_ascii (peekChar l) =? 61), (nat_of_ascii (ch l) =? 61);
      intros [= <- <-]; discriminate. }
  destruct (nat_of_ascii (ch l) =? 34).
  { destruct (readString l) as [[s l1] |]; cbn; [intros [= <- <-] |]; discriminate. }
  destruct (nat_of_ascii (ch l) =? 0) eqn:E3.
  { apply Nat.eqb_eq, nat_of_ascii_zero in E3. intros [= <- <-] _. auto. }
  destruct (singleByte (ch l)) eqn:E4.
  { intros [= <- <-] E. exfalso. exact (singleByte_not_EOF _ _ E4 E). }
  destruct (isLetter (ch l)).
  { destruct (readIdentifier l) as [[s l1] |]; cbn; [intros [= <- <-] E |]; try discriminate.
    exfalso. exact (LookupIdent_not_EOF _ E). }
  destruct (isDigit (ch l)).
  { destruct (readNumber l) as [[s l1] |]; cbn; [intros [= <- <-] |]; discriminate. }
  intros [= <- <-]; discriminate.
Qed.

Lemma after_total n : forall l,
  consistent l ->
  exists l', after n l = Some l' /\ consistent l' /\ input l' = input l /\
    position l + n <= position l'.
Proof.
  induction n as [| n IH]; intros l Hc; cbn [after].
  - exists l. repeat split; auto; try apply Hc. lia.
  - destruct (NextToken_total l Hc) as (t & l1 & -> & Hc1 & Hin1 & Hpos1). cbn.
    destruct (IH l1 Hc1) as (l' & -> & Hc' & Hin' & Hpos').
    exists l'. rewrite Hin', Hin1. repeat split; auto; try apply Hc'. lia.
Qed.

Lemma after_add n : forall k l,
  after (n + k) l = l' ← after n l; after k l'.
Proof.
  induction n as [| n IH]; intros k l; [reflexivity |].
  cbn [Nat.add after]. destruct (NextToken l) as [[t l1] |]; cbn [mbind option_bind];
    [apply IH | reflexivity].
Qed.

(** Past the end of the input the lexer stays there. *)
Lemma after_at_end n : forall l,
  consistent l -> String.length (input l) <= position l ->
  exists l', after n l = Some l' /\ consistent l' /\ input l' = input l /\
    String.length (input l') <= position l'.
Proof.
  intros l Hc Hle. destruct (after_total n l Hc) as (l' & H1 & H2 & H3 & H4).
  exists l'. rewrite H3. repeat split; auto; try apply H2. lia.
Qed.

Lemma get_no_nul s : forall i c,
  hasNul s = false -> String.get i s = Some c -> isNul c = false.
Proof.
  unfold hasNul. induction s as [| a s IH]; intros i c Hn Hg; [discriminate |].
  cbn in Hn. apply orb_false_iff in Hn as [Ha Hs].
  destruct i as [| i]; cbn in Hg; [injection Hg as <-; exact Ha | eauto].
Qed.

Lemma get_in_bounds s : forall i, i < String.length s -> exists c, String.get i s = Some c.
Proof.
  induction s as [| a s IH]; intros i Hi; cbn in Hi; [lia |].
  destruct i as [| i]; cbn; [eauto | apply IH; lia].
Qed.

(** Without a NUL byte in the input, the sentinel is seen at the end only. *)
Lemma byteAt_zero_end s i :
  hasNul s = false -> byteAt s i = zero -> String.length s <= i.
Proof.
  intros Hn Hz. destruct (Nat.le_gt_cases (String.length s) i) as [| Hlt]; [assumption |].
  exfalso. unfold byteAt in Hz.
  destruct (Nat.leb_spec (String.length s) i); [lia |].
  destruct (get_in_bounds s i Hlt) as [c Hc]. rewrite Hc in Hz. subst c.
  pose proof (get_no_nul s i zero Hn Hc). discriminate.
Qed.

End NextTokenFacts.

(** *** Identifier tokens *)

Section IdentifierTokens.

Import lexer.

Lemma byteAt_cons c s i : byteAt (String c s) (S i) = byteAt s i.
Proof.
  unfold byteAt. cbn [String.length String.get].
  destruct (Nat.leb_spec (S (String.length s)) (S i)), (Nat.leb_spec (String.length s) i);
    try lia; reflexivity.
Qed.

(** The bytes of a slice are the bytes of the string at its positions. *)
Lemma substring_forall (cond : ascii -> bool) s : forall lo n,
  lo + n <= String.length s ->
  (forall i, lo <= i < lo + n -> cond (byteAt s i) = true) ->
  forallb cond (list_ascii_of_string (substring lo n s)) = true.
Proof.
  induction s as [| c s IH]; intros lo n Hlen Hall.
  - cbn in Hlen. assert (lo = 0) as -> by lia. assert (n = 0) as -> by lia. reflexivity.
  - destruct lo as [| lo].
    + destruct n as [| n]; [reflexivity |].
      cbn [substring list_ascii_of_string forallb].
      rewrite (Hall 0 ltac:(lia) : cond c = true). cbn [andb].
      apply IH; [cbn in Hlen; lia |].
      intros i Hi. rewrite <- byteAt_cons with (c := c). apply Hall. lia.
    + cbn [substring]. apply IH; [cbn in Hlen; lia |].
      intros i Hi. rewrite <- byteAt_cons with (c := c). apply Hall. lia.
Qed.

(** The bytes that a scanning loop passes all satisfy its test. *)
Lemma readWhile_run cond (Hz : cond zero = false) fuel : forall l,
  consistent l ->
  forall i, position l <= i < position (readWhile cond fuel l) ->
  cond (byteAt (input l) i) = true.
Proof.
  induction fuel as [| fuel IH]; intros l Hc i Hi; cbn [readWhile] in Hi; [lia |].
  destruct (cond (ch l)) eqn:Hcond; [| lia].
  destruct (Nat.eq_dec i (position l)) as [-> | Hne].
  - destruct Hc as [_ <-]. exact Hcond.
  - rewrite <- (readChar_input l). apply IH; [apply readChar_consistent |].
    rewrite (consistent_position l Hc). lia.
Qed.

Lemma isLetter_not_percent c : isLetter c = true -> negb (nat_of_ascii c =? 37) = true.
Proof.
  unfold isLetter. cbv zeta. intros H.
  destruct (Nat.eqb_spec (nat_of_ascii c) 37) as [E | E]; [| reflexivity].
  rewrite E in H. discriminate.
Qed.

Lemma readIdentifier_verbFree l s l' :
  consistent l -> readIdentifier l = Some (s, l') -> fmt.verbFree s = true.
Proof.
  intros Hc. unfold readIdentifier, slice. cbv zeta.
  destruct (readWhile_spec isLetter eq_refl (loopFuel l) l Hc) as (_ & Hin & _);
    [unfold loopFuel; lia |].
  pose proof (readWhile_run isLetter eq_refl (loopFuel l) l Hc) as Hrun.
  set (l1 := readWhile isLetter (loopFuel l) l) in *. clearbody l1.
  destruct (Nat.leb_spec (position l) (position l1)) as [H1 |]; [| discriminate].
  destruct (Nat.leb_spec (position l1) (String.length (input l1))) as [H2 |]; [| discriminate].
  cbn. intros [= <- <-]. unfold fmt.verbFree.
  apply substring_forall; [lia |].
  intros i Hi. apply isLetter_not_percent. rewrite Hin. apply Hrun. lia.
Qed.

Lemma singleByte_not_IDENT c t : singleByte c = Some t -> t <> token.IDENT.
Proof.
  destruct c as [[] [] [] [] [] [] [] []]; cbv; intros H E; subst; discriminate.
Qed.

(** The literal of an [IDENT] token holds letters and [_] only: no [%]. *)
Lemma NextToken_IDENT_verbFree l0 t l' :
  consistent l0 -> NextToken l0 = Some (t, l') -> token.Type' t = token.IDENT ->
  fmt.verbFree (token.Literal t) = true.
Proof.
  intros Hc0. destruct (skipWhitespace_spec l0 Hc0) as (Hc & _).
  unfold NextToken. set (l := skipWhitespace l0) in *. cbv zeta.
  destruct ((nat_of_ascii (ch l) =? 61) || (nat_of_ascii (ch l) =? 33)).
  { destruct (nat_of_ascii (peekChar l) =? 61), (nat_of_ascii (ch l) =? 61);
      intros [= <- <-]; discriminate. }
  destruct (nat_of_ascii (ch l) =? 34).
  { destruct (readString l) as [[s l1] |]; cbn; [intros [= <- <-] |]; discriminate. }
  destruct (nat_of_ascii (ch l) =? 0); [intros [= <- <-]; discriminate |].
  destruct (singleByte (ch l)) eqn:E4.
  { intros [= <- <-] E. exfalso. exact (singleByte_not_IDENT _ _ E4 E). }
  destruct (isLetter (ch l)).
  { destruct (readIdentifier l) as [[s l1] |] eqn:Hr; cbn; [intros [= <- <-] _ |]; try discriminate.
    exact (readIdentifier_verbFree l s l1 Hc Hr). }
  destruct (isDigit (ch l)).
  { destruct (readNumber l) as [[s l1] |]; cbn; [intros [= <- <-] |]; discriminate. }
  intros [= <- <-]; discriminate.
Qed.

End IdentifierTokens.

(** C8 (as stated) fails: the byte 0 inside the input is lexed as [EOF], and
    the calls after it go on with the rest of the input.  On the two-byte
    input NUL,[a] call 0 yields [EOF] and call 1 yields the identifier. *)
Lemma NextToken_EOF_not_idempotent_with_NUL :
  ~ (forall (input : string) (n m : nat) (t : token.Token),
       lexer.nthToken input n = Some t -> token.Type' t = token.EOF -> n <= m ->
       exists t', lexer.nthToken input m = Some t' /\ token.Type' t' = token.EOF).
Proof.
  intros H.
  destruct (H (String zero "a") 0 1 lexer.eofToken eq_refl eq_refl (le_S _ _ (le_n 0)))
    as (t' & Ht & HE).
  vm_compute in Ht. injection Ht as <-. discriminate.
Qed.

(** C8 (amended): for every input, every call of [NextToken] returns; from
    call number [len(input)] on every call yields [EOF]; and when the input
    holds no NUL byte, every call after the first [EOF] yields [EOF] again. *)
Theorem NextToken_reaches_EOF_and_stays (input : string) :
  (forall m, exists t, lexer.nthToken input m = Some t) /\
  (forall m, String.length input <= m -> lexer.nthToken input m = Some lexer.eofToken) /\
  (lexer.hasNul input = false ->
   forall n m t, lexer.nthToken input n = Some t -> token.Type' t = token.EOF ->
     n <= m -> lexer.nthToken input m = Some lexer.eofToken).
Proof.
  destruct (New_consistent input) as (Hc0 & Hin0 & Hp0).
  split; [| split].
  - intros m. unfold lexer.nthToken.
    destruct (after_total m _ Hc0) as (l & -> & Hc & _).
    cbn [mbind option_bind].
    destruct (NextToken_total l Hc) as (t & l' & -> & _). cbn. eauto.
  - intros m Hm. unfold lexer.nthToken.
    destruct (after_total m _ Hc0) as (l & -> & Hc & Hin & Hpos).
    cbn [mbind option_bind]. rewrite NextToken_at_end; [reflexivity | assumption |].
    rewrite Hin, Hin0. lia.
  - intros Hnul n m t Hn HE Hnm. unfold lexer.nthToken in *.
    replace m with (n + (m - n)) by lia. rewrite after_add.
    destruct (after_total n _ Hc0) as (l & Hl & Hc & Hin & _). rewrite Hl in *.
    cbn [mbind option_bind] in *.
    destruct (lexer.NextToken l) as [[t0 l1] |] eqn:Hnt; [| discriminate].
    cbn in Hn. injection Hn as ->.
    destruct (NextToken_EOF_inv _ _ _ Hnt HE) as (-> & Hz & ->).
    destruct (skipWhitespace_spec l Hc) as (Hcs & Hins & Hps & _).
    assert (String.length (lexer.input (lexer.skipWhitespace l))
            <= lexer.position (lexer.skipWhitespace l)) as Hend.
    { apply byteAt_zero_end; [rewrite Hins, Hin, Hin0; exact Hnul |].
      destruct Hcs as [_ <-]. exact Hz. }
    destruct (m - n) as [| k].
    + cbn [lexer.after mbind option_bind]. rewrite Hnt. reflexivity.
    + cbn [lexer.after mbind option_bind]. rewrite Hnt. cbn [mbind option_bind].
      destruct (after_at_end k (lexer.readChar (lexer.skipWhitespace l)))
        as (l' & -> & Hc' & _ & Hend').
      { apply readChar_consistent. }
      { rewrite readChar_input, (consistent_position _ Hcs). lia. }
      cbn [mbind option_bind]. rewrite NextToken_at_end; auto.
Qed.

(** The amended C8 at the input [let x = 5;] (no NUL byte): call 5 is the
    first to yield [EOF], and call 9 yields [EOF] too. *)
Lemma NextToken_reaches_EOF_and_stays_witness :
  lexer.hasNul "let x = 5;" = false /\
  lexer.nthToken "let x = 5;" 5 = Some lexer.eofToken /\
  lexer.nthToken "let x = 5;" 9 = Some lexer.eofToken.
Proof.
  split; [reflexivity |]. split; [reflexivity |].
  apply (proj2 (proj2 (NextToken_reaches_EOF_and_stays "let x = 5;")) eq_refl
           5 9 lexer.eofToken); [reflexivity | reflexivity | lia].
Defined.


(** ** The evaluator *)

Section MonadFacts.

Import evaluator.

Lemma bind_Ok {A B} (m : M A) (k : A -> M B) s a s' :
  m s = Ok a s' -> (m ≫= k) s = k a s'.
Proof. intros H. unfold mbind, M_bind. rewrite H. reflexivity. Qed.

Lemma bind_Ok_inv {A B} (m : M A) (k : A -> M B) s b s' :
  (m ≫= k) s = Ok b s' -> exists a s1, m s = Ok a s1 /\ k a s1 = Ok b s'.
Proof.
  unfold mbind, M_bind. destruct (m s) as [a s1 | |]; [eauto | discriminate | discriminate].
Qed.

Lemma bind_Panic {A B} (m : M A) (k : A -> M B) s msg :
  m s = Panic msg -> (m ≫= k) s = Panic msg.
Proof. intros H. unfold mbind, M_bind. rewrite H. reflexivity. Qed.

Lemma ret_Ok_inv {A} (a b : A) s s' : mret (M := M) a s = Ok b s' -> a = b /\ s = s'.
Proof. intros [= -> ->]. auto. Qed.

End MonadFacts.

(** *** State invariants of [Eval]

    [inv I m]: every successful run of [m] from a state in [I] ends in [I]. *)

Section Invariants.

Import evaluator.

Variable Sprintf0 : string -> string.
Variable builtins : gmap string (nat * nat).
Variable callBuiltin : nat -> list (option object.Object) -> M (option object.Object).
Variable rangeOrder :
  State -> list (option ast.Expression * option ast.Expression) ->
  list (option ast.Expression * option ast.Expression).

Variable I : State -> Prop.

Lemma inv_ret {A} (a : A) : inv I (mret a).
Proof. intros s b s' HI [= _ <-]. exact HI. Qed.

Lemma inv_bind {A B} (m : M A) (k : A -> M B) :
  inv I m -> (forall a, inv I (k a)) -> inv I (m ≫= k).
Proof.
  intros Hm Hk s b s' HI H. apply bind_Ok_inv in H as (a & s1 & H1 & H2).
  eapply Hk; [eapply Hm |]; eassumption.
Qed.

Lemma inv_panic {A} msg : inv I (panic (A := A) msg).
Proof. intros s b s' _ [=]. Qed.

Lemma inv_outOfFuel {A} : inv I (outOfFuel (A := A)).
Proof. intros s b s' _ [=]. Qed.

Lemma inv_readFrame e : inv I (readFrame e).
Proof.
  intros s b s' HI. unfold readFrame.
  destruct (frames s !! e); intros [= _ <-]. exact HI.
Qed.

Lemma inv_typeOf obj : inv I (typeOf obj).
Proof. destruct obj; [apply inv_ret | apply inv_panic]. Qed.

Hypothesis I_alloc : inv I alloc.
Hypothesis I_writeFrame : forall e fr, inv I (writeFrame e fr).
Hypothesis I_callBuiltin : forall fn args, inv I (callBuiltin fn args).

Ltac inv_auto :=
  repeat first
    [ assumption
    | match goal with H : _ |- inv I _ => solve [apply H] end
    | apply inv_ret | apply inv_panic | apply inv_outOfFuel
    | apply inv_readFrame | apply inv_typeOf
    | apply inv_bind; [| intros ?]
    | match goal with
      | |- inv I (if ?b then _ else _) => destruct b
      | |- inv I (match ?x with _ => _ end) => destruct x
      end ].

Lemma inv_NewEnvironment : inv I NewEnvironment.
Proof. unfold NewEnvironment. inv_auto. Qed.

Lemma inv_NewEnclosedEnvironment o : inv I (NewEnclosedEnvironment o).
Proof. unfold NewEnclosedEnvironment. pose proof inv_NewEnvironment. inv_auto. Qed.

Lemma inv_Get_rec fuel : forall e name, inv I (Get_rec fuel e name).
Proof. induction fuel as [| fuel IH]; intros e name; cbn [Get_rec]; inv_auto. Qed.

Lemma inv_Set' e name val : inv I (Set' e name val).
Proof. unfold Set'. inv_auto. Qed.

Lemma inv_newError msg : inv I (newError msg).
Proof. unfold newError. inv_auto. Qed.

Lemma inv_newInteger v : inv I (newInteger v).
Proof. unfold newInteger. inv_auto. Qed.

Lemma inv_evalPrefixExpression operator right : inv I (evalPrefixExpression operator right).
Proof.
  unfold evalPrefixExpression, evalMinusPrefixOperatorExpression.
  pose proof inv_newError. inv_auto.
Qed.

Lemma inv_unknownOperator operator left right : inv I (unknownOperator operator left right).
Proof. unfold unknownOperator. pose proof inv_newError. inv_auto. Qed.

Lemma inv_bothTypes t left right : inv I (bothTypes t left right).
Proof. unfold bothTypes. inv_auto. Qed.

Lemma inv_evalInfixExpression operator left right :
  inv I (evalInfixExpression operator left right).
Proof.
  unfold evalInfixExpression, evalIntegerInfixExpression, evalStringInfixExpression.
  pose proof inv_newError. pose proof inv_newInteger.
  pose proof inv_unknownOperator. pose proof inv_bothTypes. inv_auto.
Qed.

Lemma inv_evalIndexExpression left index : inv I (evalIndexExpression left index).
Proof.
  unfold evalIndexExpression, evalArrayIndexExpression, evalHashIndexExpression.
  pose proof inv_newError. inv_auto.
Qed.

Lemma inv_evalIdentifier name env : inv I (evalIdentifier Sprintf0 builtins name env).
Proof.
  unfold evalIdentifier, Get. pose proof inv_newError. pose proof inv_Get_rec. inv_auto.
Qed.

Lemma inv_bindParameters env params : forall paramIdx args,
  inv I (bindParameters env params paramIdx args).
Proof.
  induction params as [| param rest IH]; intros paramIdx args; cbn [bindParameters].
  - inv_auto.
  - pose proof inv_Set'. inv_auto; apply IH.
Qed.

Lemma inv_extendFunctionEnv params fnEnv args :
  inv I (extendFunctionEnv params fnEnv args).
Proof.
  unfold extendFunctionEnv.
  pose proof inv_NewEnclosedEnvironment. pose proof inv_bindParameters. inv_auto.
Qed.

Section Open.

Variable ev : ast.Node -> nat -> M (option object.Object).
Hypothesis inv_ev : forall node env, inv I (ev node env).

Lemma inv_evalProgram_loop statements env : forall result,
  inv I (evalProgram_loop ev statements env result).
Proof.
  induction statements as [| statement rest IH]; intros result; cbn [evalProgram_loop];
    inv_auto; apply IH.
Qed.

Lemma inv_evalBlockStatement_loop statements env : forall result,
  inv I (evalBlockStatement_loop ev statements env result).
Proof.
  induction statements as [| statement rest IH]; intros result;
    cbn [evalBlockStatement_loop]; inv_auto; apply IH.
Qed.

Lemma inv_evalExpressions_loop exps env : forall result,
  inv I (evalExpressions_loop ev exps env result).
Proof.
  induction exps as [| e rest IH]; intros result; cbn [evalExpressions_loop];
    inv_auto; apply IH.
Qed.

Lemma inv_applyFunction fn args : inv I (applyFunction callBuiltin ev fn args).
Proof.
  unfold applyFunction. pose proof inv_extendFunctionEnv. pose proof inv_newError. inv_auto.
Qed.

Lemma inv_evalHashLiteral_loop entries env : forall pairs,
  inv I (evalHashLiteral_loop ev entries env pairs).
Proof.
  induction entries as [| [keyNode valueNode] rest IH]; intros pairs;
    cbn [evalHashLiteral_loop]; pose proof inv_newError; inv_auto; apply IH.
Qed.

Lemma inv_visitOrder Pairs : inv I (visitOrder rangeOrder Pairs).
Proof. intros s a s' HI [= _ <-]. exact HI. Qed.

Lemma inv_EvalNode node env :
  inv I (EvalNode Sprintf0 builtins callBuiltin rangeOrder ev node env).
Proof.
  pose proof inv_evalProgram_loop. pose proof inv_evalBlockStatement_loop.
  pose proof inv_evalExpressions_loop. pose proof inv_applyFunction.
  pose proof inv_evalHashLiteral_loop. pose proof inv_visitOrder.
  pose proof inv_evalIdentifier. pose proof inv_evalIndexExpression.
  pose proof inv_evalInfixExpression. pose proof inv_evalPrefixExpression.
  pose proof inv_newInteger. pose proof inv_Set'.
  unfold EvalNode, evalProgram, evalBlockStatement, evalIfExpression, evalExpressions,
    evalHashLiteral.
  destruct node as [statements | [] | statements | [] |]; inv_auto.
Qed.

End Open.

(** Every successful run of [Eval] preserves an invariant that allocation,
    frame updates and the builtins preserve. *)
Lemma inv_Eval fuel : forall node env,
  inv I (Eval Sprintf0 builtins callBuiltin rangeOrder fuel node env).
Proof.
  induction fuel as [| fuel IH]; intros node env; cbn [Eval];
    [apply inv_outOfFuel | apply inv_EvalNode, IH].
Qed.

End Invariants.

(** *** Evaluation of one node, given the results of its operands *)

Section EvalSteps.

Import evaluator.

Variable Sprintf0 : string -> string.
Variable builtins : gmap string (nat * nat).
Variable callBuiltin : nat -> list (option object.Object) -> M (option object.Object).
Variable rangeOrder :
  State -> list (option ast.Expression * option ast.Expression) ->
  list (option ast.Expression * option ast.Expression).

Local Abbreviation Eval' := (Eval Sprintf0 builtins callBuiltin rangeOrder).

Lemma Eval_InfixExpression fuel l operator r env s lv s1 rv s2 :
  Eval' fuel (ast.exprNode l) env s = Ok lv s1 -> isError lv = false ->
  Eval' fuel (ast.exprNode r) env s1 = Ok rv s2 -> isError rv = false ->
  Eval' (S fuel) (ast.Expr (ast.InfixExpression l operator r)) env s =
    evalInfixExpression operator lv rv s2.
Proof.
  intros Hl Hle Hr Hre. cbn [Eval EvalNode].
  rewrite (bind_Ok _ _ _ _ _ Hl), Hle, (bind_Ok _ _ _ _ _ Hr), Hre. reflexivity.
Qed.

Lemma Eval_IndexExpression fuel l i env s lv s1 iv s2 :
  Eval' fuel (ast.exprNode l) env s = Ok lv s1 -> isError lv = false ->
  Eval' fuel (ast.exprNode i) env s1 = Ok iv s2 -> isError iv = false ->
  Eval' (S fuel) (ast.Expr (ast.IndexExpression l i)) env s =
    evalIndexExpression lv iv s2.
Proof.
  intros Hl Hle Hr Hre. cbn [Eval EvalNode].
  rewrite (bind_Ok _ _ _ _ _ Hl), Hle, (bind_Ok _ _ _ _ _ Hr), Hre. reflexivity.
Qed.

End EvalSteps.

(** The embedding run without builtins, visiting hash entries in source
    order: the instance used for the concrete runs below. *)
Example Eval_closure_capture :
  (* let newAdder = fn(x) { fn(y) { x + y } }; let addTwo = newAdder(2); addTwo(3) *)
  evaluator.value (evaluator.run 20
    [ast.LetStatement "newAdder" (Some (ast.FunctionLiteral ["x"]
       [ast.ExpressionStatement (Some (ast.FunctionLiteral ["y"]
          [ast.ExpressionStatement (Some (ast.InfixExpression
             (Some (ast.Identifier "x")) "+" (Some (ast.Identifier "y"))))]))]));
     ast.LetStatement "addTwo" (Some (ast.CallExpression (Some (ast.Identifier "newAdder"))
       [Some (ast.IntegerLiteral 2)]));
     ast.ExpressionStatement (Some (ast.CallExpression (Some (ast.Identifier "addTwo"))
       [Some (ast.IntegerLiteral 3)]))])
  = Some (Some (object.Integer 10 5)).
Proof. vm_compute. reflexivity. Qed.

(** C6: for an Array [a] and an Integer index [i], the index expression
    [a[i]] yields the element at position [i] when [0 <= i <= len(a) - 1]
    and [NULL], not an error, for every other [i]; a negative [i] never
    wraps around.  Stated for [evalIndexExpression] and for [Eval] of an
    index node whose operands evaluate to the Array and the Integer. *)
Theorem evalIndexExpression_array
    (p q : nat) (Elements : list (option object.Object)) (idx : Z) :
  let a := Some (object.Array p Elements) in
  let i := Some (object.Integer q idx) in
  let expected :=
    if decide (0 <= idx <= Z.of_nat (length Elements) - 1)%Z
    then default None (Elements !! Z.to_nat idx) else Some evaluator.NULL in
  ((0 <= idx <= Z.of_nat (length Elements) - 1)%Z ->
     is_Some (Elements !! Z.to_nat idx)) /\
  (forall s, evaluator.evalIndexExpression a i s = evaluator.Ok expected s) /\
  (forall Sprintf0 builtins callBuiltin rangeOrder fuel l r env s s1 s2,
     evaluator.Eval Sprintf0 builtins callBuiltin rangeOrder fuel (ast.exprNode l) env s
       = evaluator.Ok a s1 ->
     evaluator.Eval Sprintf0 builtins callBuiltin rangeOrder fuel (ast.exprNode r) env s1
       = evaluator.Ok i s2 ->
     evaluator.Eval Sprintf0 builtins callBuiltin rangeOrder (S fuel)
       (ast.Expr (ast.IndexExpression l r)) env s = evaluator.Ok expected s2).
Proof.
  cbv zeta.
  assert (forall s,
    evaluator.evalIndexExpression (Some (object.Array p Elements))
      (Some (object.Integer q idx)) s =
    evaluator.Ok (if decide (0 <= idx <= Z.of_nat (length Elements) - 1)%Z
                  then default None (Elements !! Z.to_nat idx)
                  else Some evaluator.NULL) s) as Hfn.
  { intros s. unfold evaluator.evalIndexExpression, evaluator.evalArrayIndexExpression.
    unfold mbind, evaluator.M_bind, mret, evaluator.M_ret. cbn.
    destruct (Z.ltb_spec idx 0);
      [rewrite decide_False by lia; reflexivity |].
    destruct (Z.gtb_spec idx (Z.of_nat (length Elements) - 1));
      [rewrite decide_False by lia; reflexivity |].
    rewrite decide_True by lia. cbn.
    destruct (lookup_lt_is_Some_2 Elements (Z.to_nat idx)) as [e He]; [lia |].
    rewrite He. reflexivity. }
  split; [| split].
  - intros H. apply lookup_lt_is_Some_2. lia.
  - exact Hfn.
  - intros Sprintf0 builtins callBuiltin rangeOrder fuel l r env s s1 s2 Hl Hr.
    erewrite Eval_IndexExpression; [apply Hfn | exact Hl | reflexivity | exact Hr | reflexivity].
Qed.

(** C6 at [[1, 2, 3][2]], [[1, 2, 3][99]] and [[1, 2, 3][-1]]. *)
Lemma evalIndexExpression_array_witness :
  let a := Some (ast.ArrayLiteral
    [Some (ast.IntegerLiteral 1); Some (ast.IntegerLiteral 2); Some (ast.IntegerLiteral 3)]) in
  let index i :=
    evaluator.value
      (evaluator.Eval evaluator.verbatim evaluator.noBuiltins
        evaluator.noBuiltinCall evaluator.sourceOrder 4
         (ast.Expr (ast.IndexExpression a i)) evaluator.rootEnv evaluator.rootState) in
  index (Some (ast.IntegerLiteral 2)) = Some (Some (object.Integer 6 3)) /\
  index (Some (ast.IntegerLiteral 99)) = Some (Some evaluator.NULL) /\
  index (Some (ast.PrefixExpression "-" (Some (ast.IntegerLiteral 1)))) = Some (Some evaluator.NULL).
Proof.
  cbv zeta. split; [| split].
  - erewrite (proj2 (proj2 (evalIndexExpression_array 7 8
      [Some (object.Integer 4 1); Some (object.Integer 5 2); Some (object.Integer 6 3)] 2)));
      reflexivity.
  - erewrite (proj2 (proj2 (evalIndexExpression_array 7 8
      [Some (object.Integer 4 1); Some (object.Integer 5 2); Some (object.Integer 6 3)] 99)));
      reflexivity.
  - erewrite (proj2 (proj2 (evalIndexExpression_array 7 9
      [Some (object.Integer 4 1); Some (object.Integer 5 2); Some (object.Integer 6 3)] (-1))));
      reflexivity.
Defined.

(** C9: for two String operands, [+] yields their concatenation (a new
    String) and every other operator, [==] and [!=] included, yields the
    error [unknown operator: STRING <op> STRING]. *)
Theorem evalInfixExpression_strings
    (operator : string) (p q : nat) (l r : string) (s : evaluator.State) :
  evaluator.evalInfixExpression operator
    (Some (object.String p l)) (Some (object.String q r)) s =
  if String.eqb operator "+"
  then evaluator.Ok (Some (object.String (evaluator.next s) (l ++ r))) (evaluator.bump s)
  else evaluator.Ok
         (Some (object.Error (evaluator.next s)
                  ("unknown operator: STRING " ++ operator ++ " STRING")))
         (evaluator.bump s).
Proof.
  unfold evaluator.evalInfixExpression, evaluator.bothTypes,
    evaluator.evalStringInfixExpression, evaluator.unknownOperator, evaluator.newError.
  unfold mbind, evaluator.M_bind, mret, evaluator.M_ret. cbn.
  destruct (String.eqb operator "+"); reflexivity.
Qed.

Example Eval_string_concatenation :
  evaluator.value (evaluator.run 10
    [ast.ExpressionStatement (Some (ast.InfixExpression
       (Some (ast.StringLiteral "Hello")) "+" (Some (ast.StringLiteral " World"))))])
  = Some (Some (object.String 6 "Hello World")).
Proof. reflexivity. Qed.

Example Eval_string_equality :
  evaluator.value (evaluator.run 10
    [ast.ExpressionStatement (Some (ast.InfixExpression
       (Some (ast.StringLiteral "a")) "==" (Some (ast.StringLiteral "a"))))])
  = Some (Some (object.Error 6 "unknown operator: STRING == STRING")).
Proof. reflexivity. Qed.

(** *** Allocation is monotone, and literals of aggregates are fresh *)

Section Fresh.

Import evaluator.

Variable Sprintf0 : string -> string.
Variable builtins : gmap string (nat * nat).
Variable callBuiltin : nat -> list (option object.Object) -> M (option object.Object).
Variable rangeOrder :
  State -> list (option ast.Expression * option ast.Expression) ->
  list (option ast.Expression * option ast.Expression).

Hypothesis callBuiltin_allocates : allocateOnly callBuiltin.

Local Abbreviation Eval' := (Eval Sprintf0 builtins callBuiltin rangeOrder).

Lemma inv_next_alloc n : inv (fun s => n <= next s) alloc.
Proof. intros s a s' H [= _ <-]. cbn. lia. Qed.

Lemma inv_next_writeFrame n e fr : inv (fun s => n <= next s) (writeFrame e fr).
Proof. intros s a s' H [= _ <-]. exact H. Qed.

Lemma Eval_next_mono fuel node env s r s' :
  Eval' fuel node env s = Ok r s' -> next s <= next s'.
Proof.
  intros H.
  eapply (inv_Eval Sprintf0 builtins callBuiltin rangeOrder (fun s0 => next s <= next s0));
    [apply inv_next_alloc | apply inv_next_writeFrame | apply callBuiltin_allocates
    | | exact H].
  cbn. lia.
Qed.

Lemma evalExpressions_next_mono fuel exps env s r s' :
  evalExpressions (Eval' fuel) exps env s = Ok r s' -> next s <= next s'.
Proof.
  intros H.
  eapply (inv_evalExpressions_loop (fun s0 => next s <= next s0)); [| | exact H].
  - intros node env0 s0 a s1 H0 H1. apply Eval_next_mono in H1. lia.
  - cbn. lia.
Qed.

Lemma evalHashLiteral_loop_next_mono fuel entries env pairs s r s' :
  evalHashLiteral_loop (Eval' fuel) entries env pairs s = Ok r s' -> next s <= next s'.
Proof.
  intros H.
  eapply (inv_evalHashLiteral_loop (fun s0 => next s <= next s0)); [| | | exact H].
  - apply inv_next_alloc.
  - intros node env0 s0 a s1 H0 H1. apply Eval_next_mono in H1. lia.
  - cbn. lia.
Qed.

(** A [return] from inside the loop of [evalHashLiteral] returns an error. *)
Lemma evalHashLiteral_loop_inl ev entries env : forall pairs s o s',
  evalHashLiteral_loop ev entries env pairs s = Ok (inl o) s' -> isError o = true.
Proof.
  induction entries as [| [keyNode valueNode] rest IH]; intros pairs s o s' H;
    cbn [evalHashLiteral_loop] in H.
  - discriminate.
  - apply bind_Ok_inv in H as (key & s1 & Hkey & H). destruct (isError key) eqn:Ea.
    { injection H as <- <-. exact Ea. }
    destruct key as [k |].
    2:{ apply bind_Ok_inv in H as (t & s2 & Ht & H). discriminate. }
    cbn [mbind option_bind] in H.
    destruct (object.hashKey k) as [hashed |].
    + apply bind_Ok_inv in H as (value & s2 & Hval & H). destruct (isError value) eqn:Ev.
      { injection H as <- <-. exact Ev. }
      eapply IH, H.
    + apply bind_Ok_inv in H as (t & s2 & _ & H).
      apply bind_Ok_inv in H as (r & s3 & Hr & H).
      injection H as <- <-. unfold newError in Hr.
      apply bind_Ok_inv in Hr as (p & s4 & _ & Hr).
      injection Hr as <- <-. reflexivity.
Qed.

(** The result of an array or hash literal is an error or a new object. *)
Lemma Eval_aggregate_fresh fuel e env s v s' :
  constructsAggregate e = true ->
  Eval' fuel (ast.Expr e) env s = Ok v s' ->
  isError v = true \/
  exists o, v = Some o /\
    (object.Type' o = object.ARRAY_OBJ \/ object.Type' o = object.HASH_OBJ) /\
    next s <= object.addr o < next s'.
Proof.
  intros He H. destruct fuel as [| fuel]; [discriminate |].
  destruct e; try discriminate; cbn [Eval EvalNode] in H.
  - apply bind_Ok_inv in H as (elements & s1 & Hel & H).
    apply evalExpressions_next_mono in Hel.
    assert ((alloc ≫= fun p => mret (Some (object.Array p elements))) s1 = Ok v s' ->
            exists o, v = Some o /\
              (object.Type' o = object.ARRAY_OBJ \/ object.Type' o = object.HASH_OBJ) /\
              next s <= object.addr o < next s') as Hnew.
    { intros [= <- <-]. eexists. split; [reflexivity |]. cbn. split; [auto | lia]. }
    destruct elements as [| a0 [| a1 rest]]; auto.
    destruct (isError a0) eqn:Ea; auto. injection H as <- <-. auto.
  - unfold evalHashLiteral in H.
    apply bind_Ok_inv in H as (order & s1 & Hord & H). injection Hord as <- <-.
    apply bind_Ok_inv in H as (res & s2 & Hloop & H). destruct res as [o | pairs].
    + injection H as <- <-. left. eapply evalHashLiteral_loop_inl, Hloop.
    + apply evalHashLiteral_loop_next_mono in Hloop. injection H as <- <-.
      right. eexists. split; [reflexivity |]. cbn. split; [auto | lia].
Qed.

End Fresh.

Lemma allocateOnly_noBuiltinCall : evaluator.allocateOnly evaluator.noBuiltinCall.
Proof. intros n fn args s a s' _ [=]. Qed.

Lemma same_Type_differs (l r : object.Object) :
  object.Type' l <> object.Type' r -> object.same (Some l) (Some r) = false.
Proof.
  intros H. cbn. apply String.eqb_neq in H. rewrite H. reflexivity.
Qed.

Lemma same_addr_differs (l r : object.Object) :
  object.addr l <> object.addr r -> object.same (Some l) (Some r) = false.
Proof.
  intros H. cbn. apply Nat.eqb_neq in H. rewrite H. apply andb_false_r.
Qed.

(** X19: for [==] and [!=] on two objects (neither operand is nil) that are
    not both Integers and not both Strings, the result is the Boolean of the
    identity comparison of the two objects, never a [type mismatch] error.
    In particular objects of different types are unequal under [==], and
    two array or hash literals, each constructing its own object, are
    unequal whatever their contents. *)
Theorem evalInfixExpression_identity :
  (forall operator l r s,
     operator = "==" \/ operator = "!=" ->
     ~ (object.Type' l = object.INTEGER_OBJ /\ object.Type' r = object.INTEGER_OBJ) ->
     ~ (object.Type' l = object.STRING_OBJ /\ object.Type' r = object.STRING_OBJ) ->
     evaluator.evalInfixExpression operator (Some l) (Some r) s =
       evaluator.Ok
         (Some (evaluator.nativeBoolToBooleanObject
                  (if String.eqb operator "==" then object.same (Some l) (Some r)
                   else negb (object.same (Some l) (Some r))))) s) /\
  (forall l r s,
     object.Type' l <> object.Type' r ->
     evaluator.evalInfixExpression "==" (Some l) (Some r) s =
       evaluator.Ok (Some evaluator.FALSE) s) /\
  (forall Sprintf0 builtins callBuiltin rangeOrder fuel a b env s r s',
     evaluator.allocateOnly callBuiltin ->
     evaluator.constructsAggregate a = true ->
     evaluator.constructsAggregate b = true ->
     evaluator.Eval Sprintf0 builtins callBuiltin rangeOrder fuel
       (ast.Expr (ast.InfixExpression (Some a) "==" (Some b))) env s = evaluator.Ok r s' ->
     r = Some evaluator.FALSE \/ evaluator.isError r = true).
Proof.
  assert (forall operator l r s,
     operator = "==" \/ operator = "!=" ->
     ~ (object.Type' l = object.INTEGER_OBJ /\ object.Type' r = object.INTEGER_OBJ) ->
     ~ (object.Type' l = object.STRING_OBJ /\ object.Type' r = object.STRING_OBJ) ->
     evaluator.evalInfixExpression operator (Some l) (Some r) s =
       evaluator.Ok
         (Some (evaluator.nativeBoolToBooleanObject
                  (if String.eqb operator "==" then object.same (Some l) (Some r)
                   else negb (object.same (Some l) (Some r))))) s) as Hid.
  { intros operator l r s Hop Hint Hstr.
    unfold evaluator.evalInfixExpression, evaluator.bothTypes. cbn [evaluator.typeOf].
    unfold mbind, evaluator.M_bind, mret, evaluator.M_ret.
    destruct (String.eqb_spec (object.Type' l) object.INTEGER_OBJ) as [El | El];
      destruct (String.eqb_spec (object.Type' r) object.INTEGER_OBJ) as [Er | Er];
      try tauto;
      destruct (String.eqb_spec (object.Type' l) object.STRING_OBJ) as [Fl | Fl];
      destruct (String.eqb_spec (object.Type' r) object.STRING_OBJ) as [Fr | Fr];
      try tauto;
      destruct Hop as [-> | ->]; reflexivity. }
  split; [exact Hid | split].
  - intros l r s Hne.
    rewrite Hid; [| auto | intros [E1 E2]; congruence | intros [E1 E2]; congruence].
    rewrite (same_Type_differs l r Hne). reflexivity.
  - intros Sprintf0 builtins callBuiltin rangeOrder fuel a b env s r s' Hcall Ha Hb H.
    destruct fuel as [| fuel]; [discriminate |].
    cbn [evaluator.Eval evaluator.EvalNode ast.exprNode] in H.
    apply bind_Ok_inv in H as (left & s1 & Hl & H).
    pose proof (Eval_aggregate_fresh _ _ _ _ Hcall _ _ _ _ _ _ Ha Hl) as Fl.
    destruct (evaluator.isError left) eqn:El; [injection H as <- <-; auto |].
    apply bind_Ok_inv in H as (right & s2 & Hr & H).
    pose proof (Eval_aggregate_fresh _ _ _ _ Hcall _ _ _ _ _ _ Hb Hr) as Fr.
    destruct (evaluator.isError right) eqn:Er; [injection H as <- <-; auto |].
    destruct Fl as [? | (lo & -> & Tl & Al)]; [congruence |].
    destruct Fr as [? | (ro & -> & Tr & Ar)]; [congruence |].
    rewrite Hid in H; [| auto | |].
    + rewrite same_addr_differs in H by lia. injection H as <- <-. auto.
    + intros [E _]. destruct Tl as [T | T]; rewrite T in E; discriminate.
    + intros [E _]. destruct Tl as [T | T]; rewrite T in E; discriminate.
Qed.

(** X19 at [5 == "5"], at [[1, 2] == [1, 2]] and at [{1: 2} == {1: 2}]. *)
Lemma evalInfixExpression_identity_witness :
  let eq a b :=
    evaluator.Eval evaluator.verbatim evaluator.noBuiltins
      evaluator.noBuiltinCall evaluator.sourceOrder 4
      (ast.Expr (ast.InfixExpression (Some a) "==" (Some b)))
      evaluator.rootEnv evaluator.rootState in
  let array := ast.ArrayLiteral [Some (ast.IntegerLiteral 1); Some (ast.IntegerLiteral 2)] in
  let hash := ast.HashLiteral [(Some (ast.IntegerLiteral 1), Some (ast.IntegerLiteral 2))] in
  evaluator.evalInfixExpression "==" (Some (object.Integer 4 5)) (Some (object.String 5 "5"))
    evaluator.rootState = evaluator.Ok (Some evaluator.FALSE) evaluator.rootState /\
  evaluator.value (eq array array) = Some (Some evaluator.FALSE) /\
  evaluator.value (eq hash hash) = Some (Some evaluator.FALSE).
Proof.
  cbv zeta.
  destruct evalInfixExpression_identity as (_ & Htypes & Hfresh).
  split; [apply Htypes; discriminate | split].
  - destruct (evaluator.Eval _ _ _ _ 4
      (ast.Expr (ast.InfixExpression (Some (ast.ArrayLiteral _)) "==" _)) _ _)
      as [r s' | |] eqn:E; [| discriminate E ..].
    pose proof (fun Ha Hb =>
      Hfresh _ _ _ _ _ _ _ _ _ _ _ allocateOnly_noBuiltinCall Ha Hb E) as HF.
    destruct (HF eq_refl eq_refl) as [-> | Herr]; [reflexivity |].
    vm_compute in E. injection E as <- _. discriminate Herr.
  - destruct (evaluator.Eval _ _ _ _ 4
      (ast.Expr (ast.InfixExpression (Some (ast.HashLiteral _)) "==" _)) _ _)
      as [r s' | |] eqn:E; [| discriminate E ..].
    pose proof (fun Ha Hb =>
      Hfresh _ _ _ _ _ _ _ _ _ _ _ allocateOnly_noBuiltinCall Ha Hb E) as HF.
    destruct (HF eq_refl eq_refl) as [-> | Herr]; [reflexivity |].
    vm_compute in E. injection E as <- _. discriminate Herr.
Defined.

(** C10 (fails on the code): for [==] and [!=] the evaluator does not always
    return a Boolean when the operands are not both Integers and not both
    Strings.  [evalInfixExpression] asks its left operand for its type
    first, and an operand can be nil: a call of a function with an empty
    body evaluates to nil.  The source text [fn(){}() == 1] parses without
    error and its evaluation ends in the panic of a nil dereference instead
    of the Boolean [false]; so does every infix expression whose left
    operand is nil, and every one whose right operand is nil after an
    Integer or a String.  With the nil on the right of another object, as
    in [true == fn(){}()], the comparison is reached and yields [FALSE]. *)
Theorem evalInfixExpression_nil_operand_panics :
  parser.parse 10 "fn(){}() == 1" =
    Some ([ast.ExpressionStatement (Some (ast.InfixExpression
             (Some (ast.CallExpression (Some (ast.FunctionLiteral [] [])) []))
             "==" (Some (ast.IntegerLiteral 1))))], []) /\
  evaluator.interpret 10 "fn(){}() == 1" = Some (evaluator.Panic evaluator.nilDeref) /\
  evaluator.interpret 10 "fn(){}() != 1" = Some (evaluator.Panic evaluator.nilDeref) /\
  evaluator.valueOf "true == fn(){}()" = Some (Some evaluator.FALSE) /\
  (forall operator right s,
     evaluator.evalInfixExpression operator None right s
     = evaluator.Panic evaluator.nilDeref) /\
  (forall operator l s,
     object.Type' l = object.INTEGER_OBJ \/ object.Type' l = object.STRING_OBJ ->
     evaluator.evalInfixExpression operator (Some l) None s
     = evaluator.Panic evaluator.nilDeref) /\
  (forall l s,
     object.Type' l <> object.INTEGER_OBJ -> object.Type' l <> object.STRING_OBJ ->
     evaluator.evalInfixExpression "==" (Some l) None s
     = evaluator.Ok (Some evaluator.FALSE) s /\
     evaluator.evalInfixExpression "!=" (Some l) None s
     = evaluator.Ok (Some evaluator.TRUE) s).
Proof.
  split; [vm_compute; reflexivity |]. split; [vm_compute; reflexivity |].
  split; [vm_compute; reflexivity |]. split; [vm_compute; reflexivity |].
  split; [reflexivity |]. split.
  - intros operator l s H.
    unfold evaluator.evalInfixExpression, evaluator.bothTypes. cbn [evaluator.typeOf].
    unfold mbind, evaluator.M_bind, mret, evaluator.M_ret, evaluator.panic.
    destruct (String.eqb_spec (object.Type' l) object.INTEGER_OBJ) as [El | El];
      [reflexivity |].
    destruct (String.eqb_spec (object.Type' l) object.STRING_OBJ) as [Fl | Fl];
      [reflexivity | tauto].
  - intros l s Hint Hstr.
    unfold evaluator.evalInfixExpression, evaluator.bothTypes. cbn [evaluator.typeOf].
    unfold mbind, evaluator.M_bind, mret, evaluator.M_ret.
    destruct (String.eqb_spec (object.Type' l) object.INTEGER_OBJ) as [El | El];
      [contradiction |].
    destruct (String.eqb_spec (object.Type' l) object.STRING_OBJ) as [Fl | Fl];
      [contradiction |].
    split; reflexivity.
Qed.

(** ** Identifiers *)

Section Identifiers.

Import evaluator.

Lemma lookupChain_functional fs name e r1 r2 :
  lookupChain fs name e r1 -> lookupChain fs name e r2 -> r1 = r2.
Proof.
  intros H1. revert r2. induction H1 as [e fr v Hf Hs | e fr o r Hf Hs Ho H IH | e fr Hf Hs Ho];
    intros r2 H2; inversion H2; subst; simplify_eq; auto.
Qed.

(** [Get] has fuel enough to walk every chain of well-formed frames. *)
Lemma Get_rec_chain name s fuel : forall e,
  wfFrames (frames s) -> is_Some (frames s !! e) -> e < fuel ->
  exists r, lookupChain (frames s) name e r /\ Get_rec fuel e name s = Ok r s.
Proof.
  induction fuel as [| fuel IH]; intros e Hwf [fr Hfr] Hlt; [lia |].
  cbn [Get_rec]. unfold mbind, M_bind, readFrame. rewrite Hfr.
  destruct (object.store fr !! name) as [v |] eqn:Hs.
  - exists (Some v). split; [eapply lookup_here; eassumption |].
    destruct (object.outer fr); reflexivity.
  - destruct (object.outer fr) as [o |] eqn:Ho.
    + destruct (Hwf e fr o Hfr Ho) as [Hoe Hsome].
      destruct (IH o Hwf Hsome) as (r & Hr & HG); [lia |].
      exists r. split; [eapply lookup_outer; eassumption | exact HG].
    + exists None. split; [eapply lookup_unbound; eassumption | reflexivity].
Qed.

Lemma Get_chain name s e :
  wfFrames (frames s) -> is_Some (frames s !! e) ->
  exists r, lookupChain (frames s) name e r /\ Get e name s = Ok r s.
Proof. intros Hwf He. apply Get_rec_chain; auto. Qed.

(** A binding written by [Set] is the one [Get] finds first. *)
Lemma Get_after_Set e name val s r s1 :
  Set' e name val s = Ok r s1 -> Get e name s1 = Ok (Some val) s1.
Proof.
  unfold Set', readFrame, writeFrame, mbind, M_bind.
  destruct (frames s !! e) as [fr |] eqn:Hfr; [| discriminate].
  intros [= <- <-]. unfold Get. cbn [Get_rec]. unfold mbind, M_bind, readFrame. cbn.
  rewrite lookup_insert_eq. cbn. rewrite lookup_insert_eq.
  destruct (object.outer fr); reflexivity.
Qed.

Lemma verbFree_app a b :
  fmt.verbFree (a ++ b) = fmt.verbFree a && fmt.verbFree b.
Proof.
  unfold fmt.verbFree. induction a as [| c a IH]; [reflexivity |].
  change (String c a ++ b) with (String c (a ++ b)).
  cbn [list_ascii_of_string forallb]. rewrite IH. apply andb_assoc.
Qed.

Lemma printsVerbFree_verbatim : printsVerbFree verbatim.
Proof. intros format _. reflexivity. Qed.

End Identifiers.

(** C7: an identifier evaluates to the value that the search of the
    environment chain, from the innermost frame outward, finds first;
    otherwise to the builtin of that name; otherwise to the error
    [identifier not found: <name>] (the name is part of the format that
    [fmt.Sprintf] prints: the message is this one for a name without [%],
    as all names of the lexer are).  A binding made by [let] ([Set] on the
    current frame) is found whatever the built-ins table holds. *)
Theorem evalIdentifier_lookup
    (Sprintf0 : string -> string) (builtins : gmap string (nat * nat))
    (name : string) (env : nat) (s : evaluator.State) :
  evaluator.wfFrames (evaluator.frames s) ->
  is_Some (evaluator.frames s !! env) ->
  (exists r,
     evaluator.lookupChain (evaluator.frames s) name env r /\
     evaluator.evalIdentifier Sprintf0 builtins name env s =
       match r with
       | Some val => evaluator.Ok val s
       | None =>
           match builtins !! name with
           | Some (p, fn) => evaluator.Ok (Some (object.Builtin p fn)) s
           | None =>
               evaluator.Ok
                 (Some (object.Error (evaluator.next s)
                          (Sprintf0 ("identifier not found: " ++ name))))
                 (evaluator.bump s)
           end
       end) /\
  (evaluator.printsVerbFree Sprintf0 -> fmt.verbFree name = true ->
   Sprintf0 ("identifier not found: " ++ name) = "identifier not found: " ++ name) /\
  (forall val r s1,
     evaluator.Set' env name val s = evaluator.Ok r s1 ->
     evaluator.evalIdentifier Sprintf0 builtins name env s1 = evaluator.Ok val s1).
Proof.
  intros Hwf Henv. split; [| split].
  - destruct (Get_chain name s env Hwf Henv) as (r & Hr & HG).
    exists r. split; [exact Hr |].
    unfold evaluator.evalIdentifier. rewrite (bind_Ok _ _ _ _ _ HG).
    destruct r as [val |]; [reflexivity |].
    destruct (builtins !! name) as [[p fn] |]; reflexivity.
  - intros HS Hname. apply HS. rewrite verbFree_app, Hname. reflexivity.
  - intros val r s1 HS. unfold evaluator.evalIdentifier.
    rewrite (bind_Ok _ _ _ _ _ (Get_after_Set _ _ _ _ _ _ HS)). reflexivity.
Qed.

(** C7 in an inner frame (5) whose outer frame (3) binds [x]: [x] is found
    in the outer frame, [len] is the builtin, [y] is not found; and after
    [let len = ...] in the inner frame, [len] is the bound value. *)
Lemma evalIdentifier_lookup_witness :
  let builtins : gmap string (nat * nat) := {[ "len" := (100, 0) ]} in
  let x := Some (object.Integer 4 7) in
  let s := {| evaluator.next := 6;
              evaluator.frames :=
                {[ 3 := {| object.store := {[ "x" := x ]}; object.outer := None |};
                   5 := {| object.store := ∅; object.outer := Some 3 |} ]} |} in
  evaluator.value (evaluator.evalIdentifier evaluator.verbatim builtins "x" 5 s) = Some x /\
  evaluator.value (evaluator.evalIdentifier evaluator.verbatim builtins "len" 5 s)
    = Some (Some (object.Builtin 100 0)) /\
  evaluator.value (evaluator.evalIdentifier evaluator.verbatim builtins "y" 5 s)
    = Some (Some (object.Error 6 "identifier not found: y")) /\
  evaluator.value
    (match evaluator.Set' 5 "len" x s with
     | evaluator.Ok _ s1 => evaluator.evalIdentifier evaluator.verbatim builtins "len" 5 s1
     | _ => evaluator.OutOfFuel
     end) = Some x.
Proof.
  cbv zeta.
  set (builtins := ({[ "len" := (100, 0) ]} : gmap string (nat * nat))).
  set (s := {| evaluator.next := 6; evaluator.frames := _ |}).
  assert (evaluator.wfFrames (evaluator.frames s)) as Hwf.
  { intros e fr o Hfr Ho. subst s. cbn in Hfr.
    apply lookup_insert_Some in Hfr as [[<- <-] | [_ Hfr]]; [discriminate |].
    apply lookup_singleton_Some in Hfr as [<- <-]. injection Ho as <-.
    split; [lia | eexists; reflexivity]. }
  assert (is_Some (evaluator.frames s !! 5)) as H5 by (eexists; reflexivity).
  repeat apply conj.
  - destruct (proj1 (evalIdentifier_lookup evaluator.verbatim builtins "x" 5 s Hwf H5)) as (r & Hr & ->).
    rewrite (lookupChain_functional _ _ _ _ (Some (Some (object.Integer 4 7))) Hr);
      [reflexivity |].
    eapply evaluator.lookup_outer; [reflexivity .. |].
    eapply evaluator.lookup_here; reflexivity.
  - destruct (proj1 (evalIdentifier_lookup evaluator.verbatim builtins "len" 5 s Hwf H5)) as (r & Hr & ->).
    rewrite (lookupChain_functional _ _ _ _ None Hr); [reflexivity |].
    eapply evaluator.lookup_outer; [reflexivity .. |].
    eapply evaluator.lookup_unbound; reflexivity.
  - destruct (evalIdentifier_lookup evaluator.verbatim builtins "y" 5 s Hwf H5)
      as ((r & Hr & ->) & Hmsg & _).
    rewrite (Hmsg printsVerbFree_verbatim eq_refl).
    rewrite (lookupChain_functional _ _ _ _ None Hr); [reflexivity |].
    eapply evaluator.lookup_outer; [reflexivity .. |].
    eapply evaluator.lookup_unbound; reflexivity.
  - destruct (evaluator.Set' 5 "len" _ s) as [r s1 | |] eqn:HS; [| discriminate HS ..].
    rewrite (proj2 (proj2 (evalIdentifier_lookup evaluator.verbatim builtins "len" 5 s Hwf H5))
               _ _ _ HS).
    reflexivity.
Defined.

(** ** Function calls *)

Section Calls.

Import evaluator.

Lemma Set'_Ok e name val s :
  is_Some (frames s !! e) ->
  exists s', Set' e name val s = Ok val s' /\ is_Some (frames s' !! e) /\ next s' = next s.
Proof.
  intros [fr Hfr]. unfold Set', readFrame, writeFrame, mbind, M_bind. rewrite Hfr.
  eexists. split; [reflexivity |]. cbn. rewrite lookup_insert_eq. eauto.
Qed.

(** [args[paramIdx]] is out of range as soon as a parameter has no
    argument: the loop of [extendFunctionEnv] panics. *)
Lemma bindParameters_missing env params : forall paramIdx args s,
  is_Some (frames s !! env) ->
  paramIdx <= length args < paramIdx + length params ->
  bindParameters env params paramIdx args s = Panic indexOutOfRange.
Proof.
  induction params as [| param rest IH]; intros paramIdx args s Henv Hlen;
    cbn [length] in Hlen; [lia |].
  cbn [bindParameters]. destruct (args !! paramIdx) as [arg |] eqn:Harg; [| reflexivity].
  apply lookup_lt_Some in Harg.
  destruct (Set'_Ok env param arg s Henv) as (s' & HS & Henv' & _).
  rewrite (bind_Ok _ _ _ _ _ HS). apply IH; [exact Henv' | lia].
Qed.

Lemma NewEnclosedEnvironment_Ok o s :
  exists s', NewEnclosedEnvironment o s = Ok (next s) s' /\ is_Some (frames s' !! next s).
Proof.
  unfold NewEnclosedEnvironment, NewEnvironment, alloc, readFrame, writeFrame, mbind, M_bind,
    mret, M_ret. cbn. rewrite lookup_insert_eq. cbn.
  eexists. split; [reflexivity |]. cbn. rewrite lookup_insert_eq. eauto.
Qed.

Lemma extendFunctionEnv_missing params fnEnv args s :
  length args < length params ->
  extendFunctionEnv params fnEnv args s = Panic indexOutOfRange.
Proof.
  intros Hlen. unfold extendFunctionEnv.
  destruct (NewEnclosedEnvironment_Ok fnEnv s) as (s' & HN & Henv).
  rewrite (bind_Ok _ _ _ _ _ HN).
  apply bind_Panic, bindParameters_missing; [exact Henv | lia].
Qed.

End Calls.

(** C1 (fails on the code): a call with fewer arguments than parameters
    does not leave the missing parameters unbound.  The binding loop of
    [extendFunctionEnv] indexes [args] with the parameter's position and
    panics with "index out of range"; the source text [fn(x) { x }()]
    parses without error and its evaluation ends in that panic instead of
    the error [identifier not found: x]. *)
Theorem applyFunction_missing_argument_panics :
  parser.parse 10 "fn(x) { x }()" =
    Some ([ast.ExpressionStatement (Some (ast.CallExpression
             (Some (ast.FunctionLiteral ["x"]
                [ast.ExpressionStatement (Some (ast.Identifier "x"))])) []))], []) /\
  evaluator.interpret 10 "fn(x) { x }()" = Some (evaluator.Panic evaluator.indexOutOfRange) /\
  (forall callBuiltin ev p Parameters Body Env args s,
     length args < length Parameters ->
     evaluator.applyFunction callBuiltin ev
       (Some (object.Function p Parameters Body Env)) args s
     = evaluator.Panic evaluator.indexOutOfRange).
Proof.
  split; [reflexivity | split; [reflexivity |]].
  intros callBuiltin ev p Parameters Body Env args s Hlen.
  unfold evaluator.applyFunction. apply bind_Panic, extendFunctionEnv_missing, Hlen.
Qed.

(** ** Integer literals *)

Section IntegerLiterals.

Import strconv.

Lemma digitValue_digit c :
  lexer.isDigit c = true ->
  digitValue c = Some (nat_of_ascii c - 48) /\ nat_of_ascii c - 48 < 10.
Proof.
  unfold lexer.isDigit, digitValue. intros H. cbv zeta in *. rewrite H.
  apply andb_true_iff in H as [H1 H2].
  apply Nat.leb_le in H1, H2. split; [reflexivity | lia].
Qed.

Lemma decimal_ge s : forall acc,
  (0 <= acc)%Z -> (acc <= decimal s acc)%Z.
Proof.
  induction s as [| c rest IH]; intros acc Hacc; cbn [decimal]; [lia |].
  specialize (IH (acc * 10 + Z.of_nat (nat_of_ascii c - 48))%Z). lia.
Qed.

(** On a run of decimal digits the loop of [ParseUint] computes the decimal
    value, or fails when that value exceeds 64 unsigned bits. *)
Lemma parseDigits_decimal s : forall n,
  allDigits s = true -> (0 <= n <= 18446744073709551615)%Z ->
  parseDigits 10 s n =
    if (decimal s n <=? 18446744073709551615)%Z then Some (decimal s n) else None.
Proof.
  unfold allDigits.
  induction s as [| c rest IH]; intros n Hd Hn; cbn [parseDigits decimal].
  - destruct (Z.leb_spec n 18446744073709551615); [reflexivity | lia].
  - cbn [list_ascii_of_string forallb] in Hd. apply andb_true_iff in Hd as [Hc Hrest].
    destruct (digitValue_digit c Hc) as [-> Hlt].
    set (d := Z.of_nat (nat_of_ascii c - 48)).
    assert (0 <= d < 10)%Z as Hdr by (subst d; lia).
    pose proof (decimal_ge rest (n * 10 + d)%Z) as Hge.
    destruct (Z.leb_spec 10 d); [lia |].
    change (18446744073709551615 / 10 + 1)%Z with 1844674407370955162%Z.
    destruct (Z.leb_spec 1844674407370955162 n).
    { destruct (Z.leb_spec (decimal rest (n * 10 + d)) 18446744073709551615); [lia | reflexivity]. }
    destruct (Z.ltb_spec 18446744073709551615 (n * 10 + d)).
    { destruct (Z.leb_spec (decimal rest (n * 10 + d)) 18446744073709551615); [lia | reflexivity]. }
    apply IH; [exact Hrest | lia].
Qed.

(** Where the code agrees with C3: a run of digits without a leading zero
    (and the literal [0]) is read in base 10 and accepted when below 2^63. *)
Lemma ParseInt0_64_decimal c rest :
  allDigits (String c rest) = true ->
  nat_of_ascii c <> 48 \/ rest = "" ->
  ParseInt0_64 (String c rest) =
    if (decimal (String c rest) 0 <? 9223372036854775808)%Z
    then Some (decimal (String c rest) 0) else None.
Proof.
  intros Hd Hlead.
  assert (lexer.isDigit c = true) as Hc.
  { unfold allDigits in Hd. cbn in Hd. apply andb_true_iff in Hd. tauto. }
  assert (48 <= nat_of_ascii c <= 57) as Hr.
  { unfold lexer.isDigit in Hc. cbv zeta in Hc. apply andb_true_iff in Hc as [H1 H2].
    apply Nat.leb_le in H1, H2. lia. }
  unfold ParseInt0_64.
  destruct (Nat.eqb_spec (nat_of_ascii c) 45); [lia |].
  destruct (Nat.eqb_spec (nat_of_ascii c) 43); [lia |].
  cbn [orb negb andb].
  assert (ParseUint0 (String c rest) =
          if (decimal (String c rest) 0 <=? 18446744073709551615)%Z
          then Some (decimal (String c rest) 0) else None) as ->.
  { unfold ParseUint0. destruct (Nat.eqb_spec (nat_of_ascii c) 48) as [E | E].
    - destruct Hlead as [? | ->]; [lia |]. cbn. rewrite E. reflexivity.
    - apply parseDigits_decimal; [exact Hd | lia]. }
  pose proof (decimal_ge (String c rest) 0 ltac:(lia)).
  destruct (Z.leb_spec (decimal (String c rest) 0) 18446744073709551615);
    destruct (Z.ltb_spec (decimal (String c rest) 0) 9223372036854775808);
    destruct (Z.leb_spec 9223372036854775808 (decimal (String c rest) 0));
    try lia; reflexivity.
Qed.

End IntegerLiterals.

Example ParseInt_examples :
  strconv.ParseInt0_64 "9223372036854775807" = Some 9223372036854775807%Z /\
  strconv.ParseInt0_64 "9223372036854775808" = None /\
  strconv.ParseInt0_64 "0" = Some 0%Z /\
  strconv.ParseInt0_64 "010" = Some 8%Z /\
  strconv.ParseInt0_64 "08" = None.
Proof. repeat split. Qed.

(** C3 (fails on the code): [parseIntegerLiteral] calls [strconv.ParseInt]
    with base 0, which reads a literal with a leading zero in base 8.  The
    source text [010] parses, without error, to the IntegerLiteral 8 and
    evaluates to the Integer 8, not ten, and [08], a decimal number within
    range, is refused with [could not parse "08" as integer]. *)
Theorem parseIntegerLiteral_leading_zero_is_octal :
  parser.parse 10 "010" = Some ([ast.ExpressionStatement (Some (ast.IntegerLiteral 8))], []) /\
  (evaluator.value <$> evaluator.interpret 10 "010")
    = Some (Some (Some (object.Integer 4 8))) /\
  parser.parse 10 "08" =
    Some ([ast.ExpressionStatement None],
          ["could not parse " ++ parser.quote "08" ++ " as integer"]) /\
  (forall p, token.Literal (parser.curToken p) = "010" ->
     parser.parseIntegerLiteral p = parser.Ok (Some (ast.IntegerLiteral 8)) p).
Proof.
  repeat split. intros p Hp. unfold parser.parseIntegerLiteral, parser.getCurToken.
  unfold mbind, parser.PM_bind. rewrite Hp. reflexivity.
Qed.

(** ** Return values *)

Section Returns.

Import evaluator.

Variable ev : ast.Node -> nat -> M (option object.Object).

Lemma evalBlockStatement_loop_passes env pre s s1 :
  passes ev env pre s s1 ->
  forall rest result, exists result',
    evalBlockStatement_loop ev (pre ++ rest) env result s =
    evalBlockStatement_loop ev rest env result' s1.
Proof.
  induction 1 as [s | statement pre s r s1 s2 Hev Hc Hp IH]; intros rest result.
  - exists result. reflexivity.
  - destruct (IH rest r) as [result' Hr]. exists result'.
    cbn [app evalBlockStatement_loop]. rewrite (bind_Ok _ _ _ _ _ Hev), <- Hr.
    destruct r as [[] |]; try discriminate Hc; reflexivity.
Qed.

Lemma evalProgram_loop_passes env pre s s1 :
  passes ev env pre s s1 ->
  forall rest result, exists result',
    evalProgram_loop ev (pre ++ rest) env result s =
    evalProgram_loop ev rest env result' s1.
Proof.
  induction 1 as [s | statement pre s r s1 s2 Hev Hc Hp IH]; intros rest result.
  - exists result. reflexivity.
  - destruct (IH rest r) as [result' Hr]. exists result'.
    cbn [app evalProgram_loop]. rewrite (bind_Ok _ _ _ _ _ Hev), <- Hr.
    destruct r as [[] |]; try discriminate Hc; reflexivity.
Qed.

End Returns.

(** C5: a block hands a [ReturnValue] on still wrapped and skips the rest
    of its statements; a program unwraps it and stops; applying a function
    unwraps one level from the result of its body; and the nested-if
    program of the specification evaluates to the Integer 10. *)
Theorem ReturnValue_blocks_program_functions :
  (forall Sprintf0 builtins callBuiltin rangeOrder fuel pre statement post env s s1 s2 p v,
     evaluator.passes (evaluator.Eval Sprintf0 builtins callBuiltin rangeOrder fuel) env pre s s1 ->
     evaluator.Eval Sprintf0 builtins callBuiltin rangeOrder fuel (ast.Stmt statement) env s1
       = evaluator.Ok (Some (object.ReturnValue p v)) s2 ->
     evaluator.Eval Sprintf0 builtins callBuiltin rangeOrder (S fuel)
       (ast.BlockStatement (pre ++ statement :: post)) env s
       = evaluator.Ok (Some (object.ReturnValue p v)) s2 /\
     evaluator.Eval Sprintf0 builtins callBuiltin rangeOrder (S fuel)
       (ast.Program (pre ++ statement :: post)) env s
       = evaluator.Ok v s2) /\
  (forall Sprintf0 builtins callBuiltin rangeOrder fuel q Parameters Body Env args s
          extendedEnv s1 p v s2,
     evaluator.extendFunctionEnv Parameters Env args s = evaluator.Ok extendedEnv s1 ->
     evaluator.Eval Sprintf0 builtins callBuiltin rangeOrder fuel (ast.BlockStatement Body)
       extendedEnv s1 = evaluator.Ok (Some (object.ReturnValue p v)) s2 ->
     evaluator.applyFunction callBuiltin (evaluator.Eval Sprintf0 builtins callBuiltin rangeOrder fuel)
       (Some (object.Function q Parameters Body Env)) args s = evaluator.Ok v s2) /\
  (evaluator.value <$>
     evaluator.interpret 20 "if (10 > 1) { if (10 > 1) { return 10; } return 1; }")
  = Some (Some (Some (object.Integer 8 10))).
Proof.
  split; [| split; [| reflexivity]].
  - intros Sprintf0 builtins callBuiltin rangeOrder fuel pre statement post env s s1 s2 p v Hp Hev.
    split; cbn [evaluator.Eval evaluator.EvalNode].
    + unfold evaluator.evalBlockStatement.
      destruct (evalBlockStatement_loop_passes _ _ _ _ _ Hp (statement :: post) None)
        as [result' ->].
      cbn [evaluator.evalBlockStatement_loop]. rewrite (bind_Ok _ _ _ _ _ Hev). reflexivity.
    + unfold evaluator.evalProgram.
      destruct (evalProgram_loop_passes _ _ _ _ _ Hp (statement :: post) None)
        as [result' ->].
      cbn [evaluator.evalProgram_loop]. rewrite (bind_Ok _ _ _ _ _ Hev). reflexivity.
  - intros Sprintf0 builtins callBuiltin rangeOrder fuel q Parameters Body Env args s
      extendedEnv s1 p v s2 Hext Hbody.
    unfold evaluator.applyFunction.
    rewrite (bind_Ok _ _ _ _ _ Hext), (bind_Ok _ _ _ _ _ Hbody). reflexivity.
Qed.

(** C5 at the block and at the program [if (10 > 1) { return 10; } return 1;]. *)
Lemma ReturnValue_blocks_program_functions_witness :
  let inner := ast.ExpressionStatement (Some (ast.IfExpression
    (Some (ast.InfixExpression (Some (ast.IntegerLiteral 10)) ">"
       (Some (ast.IntegerLiteral 1))))
    [ast.ReturnStatement (Some (ast.IntegerLiteral 10))] None)) in
  let outer := [inner; ast.ReturnStatement (Some (ast.IntegerLiteral 1))] in
  let eval node :=
    evaluator.value
      (evaluator.Eval evaluator.verbatim evaluator.noBuiltins
        evaluator.noBuiltinCall evaluator.sourceOrder 6
         node evaluator.rootEnv evaluator.rootState) in
  eval (ast.BlockStatement outer)
    = Some (Some (object.ReturnValue 7 (Some (object.Integer 6 10)))) /\
  eval (ast.Program outer) = Some (Some (object.Integer 6 10)).
Proof.
  cbv zeta.
  edestruct (proj1 ReturnValue_blocks_program_functions
               evaluator.verbatim evaluator.noBuiltins
                 evaluator.noBuiltinCall evaluator.sourceOrder 5 [])
    as [H1 H2]; [constructor | | cbn [app] in H1, H2; rewrite H1, H2; split; reflexivity].
  vm_compute. reflexivity.
Defined.

(** ** Hash literals *)

Section HashLiterals.

Import evaluator.

Variable ev : ast.Node -> nat -> M (option object.Object).

Lemma evalHashLiteral_loop_visits env entries s inserted s1 :
  visits ev env entries s inserted s1 ->
  forall pairs,
    evalHashLiteral_loop ev entries env pairs s = Ok (inr (insertAll inserted pairs)) s1.
Proof.
  induction 1 as [s | keyNode valueNode rest s key s1 hashed val s2 inserted s3
                       Hk Hke Hh Hv Hve Hrest IH]; intros pairs.
  - reflexivity.
  - cbn [evalHashLiteral_loop]. rewrite (bind_Ok _ _ _ _ _ Hk), Hke.
    cbn [mbind option_bind]. rewrite Hh, (bind_Ok _ _ _ _ _ Hv), Hve. apply IH.
Qed.

Lemma evalHashLiteral_loop_inr env entries : forall pairs s m s1,
  evalHashLiteral_loop ev entries env pairs s = Ok (inr m) s1 ->
  exists inserted, visits ev env entries s inserted s1 /\ m = insertAll inserted pairs.
Proof.
  induction entries as [| [keyNode valueNode] rest IH]; intros pairs s m s1 H;
    cbn [evalHashLiteral_loop] in H.
  - injection H as <- <-. exists []. split; [constructor | reflexivity].
  - apply bind_Ok_inv in H as (key & s2 & Hkey & H). destruct (isError key) eqn:Ek.
    { discriminate H. }
    destruct key as [k |].
    2:{ apply bind_Ok_inv in H as (t & s3 & Ht & H). discriminate Ht. }
    cbn [mbind option_bind] in H.
    destruct (object.hashKey k) as [hashed |] eqn:Hh.
    + apply bind_Ok_inv in H as (val & s3 & Hval & H). destruct (isError val) eqn:Ev.
      { discriminate H. }
      destruct (IH _ _ _ _ H) as (inserted & Hvis & ->).
      exists ((hashed, object.mkHashPair k val) :: inserted).
      split; [econstructor; eassumption | reflexivity].
    + apply bind_Ok_inv in H as (t & s3 & _ & H).
      apply bind_Ok_inv in H as (r & s4 & _ & H). discriminate H.
Qed.

Lemma lookup_insertAll inserted : forall pairs hk,
  insertAll inserted pairs !! hk =
    match lastEntry hk inserted with
    | Some later => Some later
    | None => pairs !! hk
    end.
Proof.
  induction inserted as [| [k pair0] rest IH]; intros pairs hk; [reflexivity |].
  cbn [insertAll fold_left lastEntry fst snd]. fold (insertAll rest (<[k := pair0]> pairs)).
  rewrite IH. destruct (lastEntry hk rest); [reflexivity |].
  destruct (decide (k = hk)) as [-> | Hne];
    [apply lookup_insert_eq | apply lookup_insert_ne, Hne].
Qed.

End HashLiterals.

Lemma rev_is_permutation {A} (l : list A) : Permutation (rev l) l.
Proof. symmetry. apply Permutation_rev. Qed.

(** C2 (as stated) fails: Go does not fix the order in which [range]
    visits the entries of the literal's map.  When the two entries of
    [{1: 10, 1: 20}] are visited in reverse, the entry written first is
    inserted last, and the Hash holds 10 under the key 1, not 20. *)
Lemma evalHashLiteral_later_source_pair_may_lose :
  ~ (forall rangeOrder,
       (forall s entries, Permutation (rangeOrder s entries) entries) ->
       forall k v1 v2 : Z,
         evaluator.integerAt
           (evaluator.Eval evaluator.verbatim evaluator.noBuiltins
             evaluator.noBuiltinCall rangeOrder 3
              (ast.Expr (ast.HashLiteral
                 [(Some (ast.IntegerLiteral k), Some (ast.IntegerLiteral v1));
                  (Some (ast.IntegerLiteral k), Some (ast.IntegerLiteral v2))]))
              evaluator.rootEnv evaluator.rootState)
           (object.INTEGER_OBJ, (k mod object.two64)%Z) = Some v2).
Proof.
  intros H.
  specialize (H (fun _ entries => rev entries) (fun _ entries => rev_is_permutation entries)
                1%Z 10%Z 20%Z).
  vm_compute in H. discriminate H.
Qed.

(** C2 (amended): the entries of a hash literal are evaluated one after the
    other, each key before its value, in the order in which [range] visits
    the literal's map (a permutation of the source order that Go leaves
    open, not necessarily the source order); the Hash holds, under every
    HashKey, the pair that was inserted last in that order. *)
Theorem evalHashLiteral_visiting_order
    (Sprintf0 : string -> string) (builtins : gmap string (nat * nat))
    (callBuiltin : nat -> list (option object.Object) -> evaluator.M (option object.Object))
    (rangeOrder : evaluator.State ->
       list (option ast.Expression * option ast.Expression) ->
       list (option ast.Expression * option ast.Expression))
    (fuel : nat) (Pairs : list (option ast.Expression * option ast.Expression))
    (env : nat) (s : evaluator.State) :
  let ev := evaluator.Eval Sprintf0 builtins callBuiltin rangeOrder fuel in
  let literal :=
    evaluator.Eval Sprintf0 builtins callBuiltin rangeOrder (S fuel)
      (ast.Expr (ast.HashLiteral Pairs)) env s in
  (forall inserted s1,
     evaluator.visits ev env (rangeOrder s Pairs) s inserted s1 ->
     exists m,
       literal = evaluator.Ok (Some (object.Hash (evaluator.next s1) m)) (evaluator.bump s1) /\
       forall hk, m !! hk = evaluator.lastEntry hk inserted) /\
  (forall p m s',
     literal = evaluator.Ok (Some (object.Hash p m)) s' ->
     exists inserted s1,
       evaluator.visits ev env (rangeOrder s Pairs) s inserted s1 /\
       p = evaluator.next s1 /\ s' = evaluator.bump s1 /\
       forall hk, m !! hk = evaluator.lastEntry hk inserted).
Proof.
  cbv zeta. cbn [evaluator.Eval evaluator.EvalNode]. unfold evaluator.evalHashLiteral.
  assert (forall inserted hk,
            evaluator.insertAll inserted (∅ : gmap object.HashKey (object.HashPair object.Object))
              !! hk = evaluator.lastEntry hk inserted) as Hlast.
  { intros inserted hk. rewrite lookup_insertAll, lookup_empty.
    destruct (evaluator.lastEntry hk inserted); reflexivity. }
  split.
  - intros inserted s1 Hvis. exists (evaluator.insertAll inserted ∅).
    split; [| apply Hlast].
    rewrite (bind_Ok (evaluator.visitOrder rangeOrder Pairs) _ s (rangeOrder s Pairs) s eq_refl).
    rewrite (bind_Ok _ _ _ _ _ (evalHashLiteral_loop_visits _ _ _ _ _ _ Hvis ∅)).
    reflexivity.
  - intros p m s' H.
    rewrite (bind_Ok (evaluator.visitOrder rangeOrder Pairs) _ s (rangeOrder s Pairs) s eq_refl) in H.
    apply bind_Ok_inv in H as (r & s1 & Hloop & H). destruct r as [o | pairs].
    + injection H as -> <-. apply evalHashLiteral_loop_inl in Hloop. discriminate Hloop.
    + injection H as <- <- <-.
      destruct (evalHashLiteral_loop_inr _ _ _ _ _ _ _ Hloop) as (inserted & Hvis & ->).
      exists inserted, s1. repeat split; [exact Hvis | apply Hlast].
Qed.

(** C2 at [{1: 10, 1: 20}]: visited in reverse the Hash holds 10 under the
    key 1, visited in source order it holds 20. *)
Lemma evalHashLiteral_visiting_order_witness :
  let Pairs :=
    [(Some (ast.IntegerLiteral 1), Some (ast.IntegerLiteral 10));
     (Some (ast.IntegerLiteral 1), Some (ast.IntegerLiteral 20))] in
  let literal rangeOrder :=
    evaluator.Eval evaluator.verbatim evaluator.noBuiltins evaluator.noBuiltinCall rangeOrder 3
      (ast.Expr (ast.HashLiteral Pairs)) evaluator.rootEnv evaluator.rootState in
  evaluator.integerAt (literal (fun _ entries => rev entries)) (object.INTEGER_OBJ, 1%Z)
    = Some 10%Z /\
  evaluator.integerAt (literal evaluator.sourceOrder) (object.INTEGER_OBJ, 1%Z) = Some 20%Z.
Proof.
  cbv zeta. split.
  - edestruct (proj1 (evalHashLiteral_visiting_order evaluator.verbatim evaluator.noBuiltins
                        evaluator.noBuiltinCall (fun _ entries => rev entries) 2
                        [(Some (ast.IntegerLiteral 1), Some (ast.IntegerLiteral 10));
                         (Some (ast.IntegerLiteral 1), Some (ast.IntegerLiteral 20))]
                        evaluator.rootEnv evaluator.rootState)) as (m & Hm & Hlast).
    { cbn [rev app].
      eapply evaluator.visits_cons;
        [vm_compute; reflexivity | reflexivity | reflexivity | vm_compute; reflexivity
        | reflexivity |].
      eapply evaluator.visits_cons;
        [vm_compute; reflexivity | reflexivity | reflexivity | vm_compute; reflexivity
        | reflexivity |].
      apply evaluator.visits_nil. }
    rewrite Hm. cbn [evaluator.integerAt]. rewrite Hlast. reflexivity.
  - edestruct (proj1 (evalHashLiteral_visiting_order evaluator.verbatim evaluator.noBuiltins
                        evaluator.noBuiltinCall evaluator.sourceOrder 2
                        [(Some (ast.IntegerLiteral 1), Some (ast.IntegerLiteral 10));
                         (Some (ast.IntegerLiteral 1), Some (ast.IntegerLiteral 20))]
                        evaluator.rootEnv evaluator.rootState)) as (m & Hm & Hlast).
    { unfold evaluator.sourceOrder.
      eapply evaluator.visits_cons;
        [vm_compute; reflexivity | reflexivity | reflexivity | vm_compute; reflexivity
        | reflexivity |].
      eapply evaluator.visits_cons;
        [vm_compute; reflexivity | reflexivity | reflexivity | vm_compute; reflexivity
        | reflexivity |].
      apply evaluator.visits_nil. }
    rewrite Hm. cbn [evaluator.integerAt]. rewrite Hlast. reflexivity.
Defined.

(** ** The results of [Eval] on complete nodes *)

Section Soundness.

Import evaluator.

Lemma sound_ret {A} (a : A) (Q : A -> Prop) : Q a -> sound (mret a) Q.
Proof. intros HQ s b s' Hs [= <- <-]. auto. Qed.

Lemma sound_bind {A B} (m : M A) (k : A -> M B) (R : A -> Prop) (Q : B -> Prop) :
  sound m R -> (forall a, R a -> sound (k a) Q) -> sound (m ≫= k) Q.
Proof.
  intros Hm Hk s b s' Hs H. apply bind_Ok_inv in H as (a & s1 & H1 & H2).
  destruct (Hm _ _ _ Hs H1) as [Hs1 HR]. exact (Hk a HR _ _ _ Hs1 H2).
Qed.

Lemma sound_panic {A} msg (Q : A -> Prop) : sound (panic msg) Q.
Proof. intros s b s' _ [=]. Qed.

Lemma sound_outOfFuel {A} (Q : A -> Prop) : sound outOfFuel Q.
Proof. intros s b s' _ [=]. Qed.

Lemma sound_weaken {A} (m : M A) (Q Q' : A -> Prop) :
  sound m Q -> (forall a, Q a -> Q' a) -> sound m Q'.
Proof. intros Hm HQ s a s' Hs H. destruct (Hm _ _ _ Hs H). auto. Qed.

Lemma sound_alloc : sound alloc (fun _ => True).
Proof. intros s a s' Hs [= _ <-]. split; [exact Hs | exact I]. Qed.

Lemma sound_readFrame e : sound (readFrame e) (fun fr => goodStore (object.store fr)).
Proof.
  intros s fr s' Hs. unfold readFrame. destruct (frames s !! e) as [fr0 |] eqn:Hfr;
    intros [= <- <-]. split; [exact Hs | exact (Hs e fr0 Hfr)].
Qed.

Lemma sound_writeFrame e fr :
  goodStore (object.store fr) -> sound (writeFrame e fr) (fun _ => True).
Proof.
  intros Hfr s a s' Hs [= _ <-]. split; [| exact I].
  intros e0 fr0. cbn. rewrite lookup_insert. destruct (decide (e = e0)) as [-> | Hne].
  - intros [= <-]. exact Hfr.
  - apply Hs.
Qed.

Lemma goodStore_empty : goodStore ∅.
Proof. intros name v H. rewrite lookup_empty in H. discriminate. Qed.

Lemma goodStore_insert store0 name val :
  goodStore store0 -> goodResult val -> goodStore (<[name := val]> store0).
Proof.
  intros Hst Hval name0 v. rewrite lookup_insert.
  destruct (decide (name = name0)); [intros [= <-]; exact Hval | apply Hst].
Qed.

Lemma isError_goodResult r : isError r = true -> goodResult r.
Proof.
  destruct r as [[] |]; try discriminate. intros _. eexists. split; [reflexivity | constructor].
Qed.

Lemma goodResult_Some o : good o -> goodResult (Some o).
Proof. intros H. exists o. auto. Qed.

Lemma goodResult_intro r o : r = Some o -> good o -> goodResult r.
Proof. intros -> H. exists o. auto. Qed.

Lemma good_nativeBool b : good (nativeBoolToBooleanObject b).
Proof. destruct b; constructor. Qed.

Lemma good_bang right : good (evalBangOperatorExpression right).
Proof.
  unfold evalBangOperatorExpression.
  repeat match goal with |- context [if ?b then _ else _] => destruct b end; constructor.
Qed.

Lemma good_NULL : good NULL.
Proof. constructor. Qed.

Create HintDb sound.

Hint Resolve good_NULL : sound.

Hint Resolve goodResult_Some good_nativeBool good_bang goodStore_empty : sound.
Hint Constructors good : sound.

(** One step of a soundness proof: a leaf by a known lemma, a bind by the
    lemma of its first part, a branch by cases. *)
Ltac sound_leaf :=
  first
    [ assumption
    | match goal with H : _ |- sound _ _ => solve [eapply H; eauto with sound] end
    | apply sound_alloc | apply sound_readFrame
    | apply sound_panic | apply sound_outOfFuel ].

Ltac sound_auto :=
  repeat first
    [ sound_leaf
    | apply sound_ret; solve [eauto with sound]
    | eapply sound_bind; [sound_leaf | intros ? ?]
    | match goal with
      | |- sound (if ?b then _ else _) _ => destruct b eqn:?
      | |- sound (match ?x with _ => _ end) _ => destruct x eqn:?
      end ].

Lemma sound_typeOf obj : sound (typeOf obj) (fun _ => True).
Proof. destruct obj; [apply sound_ret; exact I | apply sound_panic]. Qed.

Lemma sound_NewEnvironment : sound NewEnvironment (fun _ => True).
Proof.
  unfold NewEnvironment.
  eapply sound_bind; [apply sound_alloc | intros env _].
  eapply sound_bind; [apply sound_writeFrame, goodStore_empty | intros _ _].
  apply sound_ret. exact I.
Qed.

Lemma sound_NewEnclosedEnvironment o : sound (NewEnclosedEnvironment o) (fun _ => True).
Proof.
  unfold NewEnclosedEnvironment.
  eapply sound_bind; [apply sound_NewEnvironment | intros env _].
  eapply sound_bind; [apply sound_readFrame | intros fr Hfr].
  eapply sound_bind; [apply sound_writeFrame, Hfr | intros _ _].
  apply sound_ret. exact I.
Qed.

Lemma sound_Get_rec fuel : forall e name,
  sound (Get_rec fuel e name) (fun r => forall v, r = Some v -> goodResult v).
Proof.
  induction fuel as [| fuel IH]; intros e name; cbn [Get_rec]; [apply sound_outOfFuel |].
  eapply sound_bind; [apply sound_readFrame | intros fr Hfr].
  destruct (object.store fr !! name) as [v |] eqn:Hv.
  - assert (sound (mret (M := M) (Some v)) (fun r => forall v, r = Some v -> goodResult v)) as H.
    { apply sound_ret. intros v0 [= <-]. exact (Hfr _ _ Hv). }
    destruct (object.outer fr); exact H.
  - destruct (object.outer fr); [apply IH |]. apply sound_ret. discriminate.
Qed.

Lemma sound_Set' e name val :
  goodResult val -> sound (Set' e name val) (fun _ => True).
Proof.
  intros Hval. unfold Set'.
  eapply sound_bind; [apply sound_readFrame | intros fr Hfr].
  eapply sound_bind; [apply sound_writeFrame, goodStore_insert; assumption | intros _ _].
  apply sound_ret. exact I.
Qed.

Lemma sound_newError msg : sound (newError msg) goodResult.
Proof.
  unfold newError. eapply sound_bind; [apply sound_alloc | intros p _].
  apply sound_ret. auto with sound.
Qed.

Lemma sound_newInteger v : sound (newInteger v) goodResult.
Proof.
  unfold newInteger. eapply sound_bind; [apply sound_alloc | intros p _].
  apply sound_ret. auto with sound.
Qed.

Lemma sound_evalPrefixExpression operator right :
  sound (evalPrefixExpression operator right) goodResult.
Proof.
  unfold evalPrefixExpression, evalMinusPrefixOperatorExpression.
  pose proof sound_newError. pose proof sound_typeOf. sound_auto.
Qed.

Lemma sound_unknownOperator operator left right :
  sound (unknownOperator operator left right) goodResult.
Proof. unfold unknownOperator. pose proof sound_newError. pose proof sound_typeOf. sound_auto. Qed.

Lemma sound_bothTypes t left right : sound (bothTypes t left right) (fun _ => True).
Proof. unfold bothTypes. pose proof sound_typeOf. sound_auto. Qed.

Lemma sound_evalInfixExpression operator left right :
  sound (evalInfixExpression operator left right) goodResult.
Proof.
  unfold evalInfixExpression, evalIntegerInfixExpression, evalStringInfixExpression.
  pose proof sound_newError. pose proof sound_newInteger. pose proof sound_typeOf.
  pose proof sound_unknownOperator. pose proof sound_bothTypes. sound_auto.
Qed.

Lemma good_Array_lookup p Elements i e :
  good (object.Array p Elements) -> Elements !! i = Some e -> goodResult e.
Proof.
  intros H He. inversion H as [| | | | | | | | p0 els HF |]; subst.
  rewrite Forall_lookup in HF. exact (HF i e He).
Qed.

Lemma good_Hash_lookup p Pairs key pair0 :
  good (object.Hash p Pairs) -> Pairs !! key = Some pair0 ->
  goodResult (object.Value pair0).
Proof.
  intros H Hp. inversion H as [| | | | | | | | | p0 m HF]; subst.
  destruct (HF key pair0 Hp) as [_ Hv]. exact Hv.
Qed.

Lemma sound_evalIndexExpression left index :
  goodResult left -> sound (evalIndexExpression left index) goodResult.
Proof.
  intros (l & -> & Hl).
  unfold evalIndexExpression, evalArrayIndexExpression, evalHashIndexExpression.
  eapply sound_bind; [apply sound_typeOf | intros lt _].
  eapply (sound_bind _ _ (fun _ => True)).
  { destruct (String.eqb lt object.ARRAY_OBJ); [| apply sound_ret; exact I].
    eapply sound_bind; [apply sound_typeOf | intros it _; apply sound_ret; exact I]. }
  intros arrayAndInteger _. destruct arrayAndInteger.
  - destruct l; try apply sound_panic.
    destruct index as [[] |]; try apply sound_panic.
    destruct (_ || _); [apply sound_ret; auto with sound |].
    match goal with
    | |- context [Elements !! ?i] => destruct (Elements !! i) as [e |] eqn:He
    end; [| apply sound_panic].
    apply sound_ret. eapply good_Array_lookup; eassumption.
  - destruct (String.eqb lt object.HASH_OBJ); [| apply sound_newError].
    destruct l; try apply sound_panic.
    destruct (index ≫= object.hashKey) as [key |].
    + destruct (Pairs !! key) as [pair0 |] eqn:Hp; apply sound_ret;
        [eapply good_Hash_lookup; eassumption | auto with sound].
    + eapply sound_bind; [apply sound_typeOf | intros t _; apply sound_newError].
Qed.

Section WithBuiltins.

Variable Sprintf0 : string -> string.
Variable builtins : gmap string (nat * nat).
Variable callBuiltin : nat -> list (option object.Object) -> M (option object.Object).
Variable rangeOrder :
  State -> list (option ast.Expression * option ast.Expression) ->
  list (option ast.Expression * option ast.Expression).

Hypothesis callBuiltin_good : goodBuiltins callBuiltin.
Hypothesis rangeOrder_permutes :
  forall s entries, Permutation (rangeOrder s entries) entries.

Lemma sound_evalIdentifier name env :
  sound (evalIdentifier Sprintf0 builtins name env) goodResult.
Proof.
  unfold evalIdentifier, Get.
  eapply sound_bind; [apply sound_Get_rec | intros r Hr].
  destruct r as [val |]; [apply sound_ret; auto |].
  destruct (builtins !! name) as [[p fn] |];
    [apply sound_ret; auto with sound | apply sound_newError].
Qed.

Lemma sound_bindParameters env params : forall paramIdx args,
  Forall goodResult args ->
  sound (bindParameters env params paramIdx args) (fun _ => True).
Proof.
  induction params as [| param rest IH]; intros paramIdx args Hargs; cbn [bindParameters].
  - apply sound_ret. exact I.
  - destruct (args !! paramIdx) as [arg |] eqn:Harg; [| apply sound_panic].
    eapply sound_bind; [| intros _ _; apply IH, Hargs].
    apply sound_Set'. rewrite Forall_lookup in Hargs. exact (Hargs _ _ Harg).
Qed.

Lemma sound_extendFunctionEnv params fnEnv args :
  Forall goodResult args ->
  sound (extendFunctionEnv params fnEnv args) (fun _ => True).
Proof.
  intros Hargs. unfold extendFunctionEnv.
  eapply sound_bind; [apply sound_NewEnclosedEnvironment | intros env _].
  eapply sound_bind; [apply sound_bindParameters, Hargs | intros _ _].
  apply sound_ret. exact I.
Qed.

Section Open.

Variable ev : ast.Node -> nat -> M (option object.Object).
Hypothesis sound_ev : forall node env,
  ast.completeNode node = true -> sound (ev node env) (resultOf node).

Lemma sound_ev_slot e env :
  ast.completeSlot e = true -> sound (ev (ast.exprNode e) env) goodResult.
Proof.
  destruct e as [e |]; [| discriminate]. intros He. exact (sound_ev (ast.Expr e) env He).
Qed.

Lemma sound_ev_block statements env :
  ast.completeBlock statements = true ->
  sound (ev (ast.BlockStatement statements) env) goodResult.
Proof. intros H. exact (sound_ev (ast.BlockStatement statements) env H). Qed.

Lemma resultOf_notLet statement r :
  ast.notLet statement = true -> resultOf (ast.Stmt statement) r -> goodResult r.
Proof. destruct statement; try discriminate; auto. Qed.

Lemma resultOf_stops statement r :
  resultOf (ast.Stmt statement) r -> continues r = false -> goodResult r.
Proof.
  destruct statement; auto. intros [-> | H] Hc; [discriminate | apply isError_goodResult, H].
Qed.

Lemma last_carry {A} (a b : A) (l : list A) (P : A -> Prop) (Q Q' : Prop) :
  match last (a :: b :: l) with Some s => P s | None => Q end ->
  match last (b :: l) with Some s => P s | None => Q' end.
Proof.
  rewrite last_cons_cons. destruct (last (b :: l)) eqn:E; [auto |].
  apply last_None in E. discriminate.
Qed.

(** The loops of [evalProgram] and [evalBlockStatement]: the result is that
    of the last statement evaluated, which is not a [let], or an Error. *)
Lemma sound_evalBlockStatement_loop env statements : forall result,
  forallb ast.completeStatement statements = true ->
  match last statements with
  | Some s => ast.notLet s = true
  | None => goodResult result
  end ->
  sound (evalBlockStatement_loop ev statements env result) goodResult.
Proof.
  induction statements as [| statement rest IH]; intros result Hall Hlast;
    cbn [evalBlockStatement_loop].
  - apply sound_ret. exact Hlast.
  - cbn [forallb] in Hall. apply andb_true_iff in Hall as [Hs Hrest].
    eapply sound_bind; [exact (sound_ev (ast.Stmt statement) env Hs) | intros r Hr].
    assert (sound (evalBlockStatement_loop ev rest env r) goodResult) as Hgo.
    { apply IH; [exact Hrest |]. destruct rest as [| s2 rest'].
      - cbn in Hlast |- *. eapply resultOf_notLet; eassumption.
      - eapply last_carry, Hlast. }
    destruct r as [o |]; [| exact Hgo]. cbv zeta.
    destruct (String.eqb (object.Type' o) object.RETURN_VALUE_OBJ
              || String.eqb (object.Type' o) object.ERROR_OBJ) eqn:Hstop; [| exact Hgo].
    apply sound_ret. eapply resultOf_stops; [exact Hr |].
    destruct o; try discriminate Hstop; reflexivity.
Qed.

Lemma sound_evalProgram_loop env statements : forall result,
  forallb ast.completeStatement statements = true ->
  match last statements with
  | Some s => ast.notLet s = true
  | None => goodResult result
  end ->
  sound (evalProgram_loop ev statements env result) goodResult.
Proof.
  induction statements as [| statement rest IH]; intros result Hall Hlast;
    cbn [evalProgram_loop].
  - apply sound_ret. exact Hlast.
  - cbn [forallb] in Hall. apply andb_true_iff in Hall as [Hs Hrest].
    eapply sound_bind; [exact (sound_ev (ast.Stmt statement) env Hs) | intros r Hr].
    assert (sound (evalProgram_loop ev rest env r) goodResult) as Hgo.
    { apply IH; [exact Hrest |]. destruct rest as [| s2 rest'].
      - cbn in Hlast |- *. eapply resultOf_notLet; eassumption.
      - eapply last_carry, Hlast. }
    destruct r as [o |]; [| exact Hgo].
    assert (continues (Some o) = false -> good o) as Hstop.
    { intros Hc. destruct (resultOf_stops _ _ Hr Hc) as (o' & [= <-] & Ho). exact Ho. }
    destruct o; try exact Hgo; specialize (Hstop eq_refl); apply sound_ret.
    + inversion Hstop; subst. eexists; eauto.
    + eexists; eauto.
Qed.

Lemma completeBlock_inv statements :
  ast.completeBlock statements = true ->
  forallb ast.completeStatement statements = true /\
  match last statements with
  | Some s => ast.notLet s = true
  | None => goodResult None
  end.
Proof.
  unfold ast.completeBlock, ast.endsInValue. intros H. apply andb_true_iff in H as [H1 H2].
  split; [exact H1 |]. destruct (last statements); [exact H2 | discriminate].
Qed.

Lemma sound_evalExpressions_loop env exps : forall result,
  forallb ast.completeSlot exps = true ->
  Forall goodResult result ->
  sound (evalExpressions_loop ev exps env result) (Forall goodResult).
Proof.
  induction exps as [| e rest IH]; intros result Hall Hres; cbn [evalExpressions_loop].
  - apply sound_ret. exact Hres.
  - cbn [forallb] in Hall. apply andb_true_iff in Hall as [He Hrest].
    eapply sound_bind; [exact (sound_ev_slot e env He) | intros r Hr].
    destruct (isError r).
    + apply sound_ret. constructor; [exact Hr | constructor].
    + apply IH; [exact Hrest |]. apply Forall_app. split; [exact Hres |].
      constructor; [exact Hr | constructor].
Qed.

Lemma sound_applyFunction fn args :
  goodResult fn -> Forall goodResult args ->
  sound (applyFunction callBuiltin ev fn args) goodResult.
Proof.
  intros (f & -> & Hf) Hargs. unfold applyFunction.
  destruct f; try (eapply sound_bind; [apply sound_typeOf | intros t _; apply sound_newError]).
  - inversion Hf; subst.
    eapply sound_bind; [apply sound_extendFunctionEnv, Hargs | intros extendedEnv _].
    eapply sound_bind; [apply sound_ev_block; assumption | intros evaluated He].
    apply sound_ret. destruct He as (o & -> & Ho).
    destruct o; cbn; try (eexists; split; [reflexivity | assumption]).
    inversion Ho; subst. eexists; eauto.
  - apply callBuiltin_good, Hargs.
Qed.

Lemma sound_evalHashLiteral_loop env entries : forall pairs,
  forallb (fun kv => ast.completeSlot (fst kv) && ast.completeSlot (snd kv)) entries = true ->
  map_Forall (fun _ pair0 => goodPair pair0) pairs ->
  sound (evalHashLiteral_loop ev entries env pairs)
    (fun r => match r with
              | inl o => goodResult o
              | inr m => map_Forall (fun _ pair0 => goodPair pair0) m
              end).
Proof.
  induction entries as [| [keyNode valueNode] rest IH]; intros pairs Hall Hpairs;
    cbn [evalHashLiteral_loop].
  - apply sound_ret. exact Hpairs.
  - cbn [forallb fst snd] in Hall. apply andb_true_iff in Hall as [Hkv Hrest].
    apply andb_true_iff in Hkv as [Hk Hv].
    eapply sound_bind; [exact (sound_ev_slot keyNode env Hk) | intros key Hkey].
    destruct (isError key); [apply sound_ret; exact Hkey |].
    destruct Hkey as (k & -> & Hgk). cbn [mbind option_bind].
    destruct (object.hashKey k) as [hashed |].
    + eapply sound_bind; [exact (sound_ev_slot valueNode env Hv) | intros val Hval].
      destruct (isError val); [apply sound_ret; exact Hval |].
      apply IH; [exact Hrest |]. apply map_Forall_insert_2; [split; assumption | exact Hpairs].
    + eapply sound_bind; [apply sound_typeOf | intros t _].
      eapply sound_bind; [apply sound_newError | intros r Hr].
      apply sound_ret. exact Hr.
Qed.

Lemma complete_entries_permuted s Pairs :
  forallb (fun kv => ast.completeSlot (fst kv) && ast.completeSlot (snd kv)) Pairs = true ->
  forallb (fun kv => ast.completeSlot (fst kv) && ast.completeSlot (snd kv))
    (rangeOrder s Pairs) = true.
Proof.
  rewrite !forallb_forall. intros H kv Hin. apply H.
  eapply Permutation_in; [apply rangeOrder_permutes | exact Hin].
Qed.

Lemma sound_evalHashLiteral Pairs env :
  forallb (fun kv => ast.completeSlot (fst kv) && ast.completeSlot (snd kv)) Pairs = true ->
  sound (evalHashLiteral rangeOrder ev Pairs env) goodResult.
Proof.
  intros Hall s r s' Hs H. unfold evalHashLiteral in H.
  apply bind_Ok_inv in H as (order & s1 & Hord & H).
  injection Hord as Horder Hs1. subst order s1.
  apply bind_Ok_inv in H as (res & s2 & Hloop & H).
  destruct (sound_evalHashLiteral_loop env (rangeOrder s Pairs) ∅
              (complete_entries_permuted s Pairs Hall) (map_Forall_empty _)
              _ _ _ Hs Hloop) as [Hs2 Hres].
  destruct res as [o | pairs].
  - injection H as <- <-. auto.
  - apply bind_Ok_inv in H as (p & s3 & Hp & H).
    injection Hp as Ep Es3. injection H as Er Es'. subst p s3 r s'.
    split; [exact Hs2 |].
    eexists. split; [reflexivity |]. constructor. exact Hres.
Qed.

Lemma sound_EvalNode node env :
  ast.completeNode node = true ->
  sound (EvalNode Sprintf0 builtins callBuiltin rangeOrder ev node env) (resultOf node).
Proof.
  destruct node as [statements | statement | statements | e |]; cbn [ast.completeNode];
    intros Hc; [| | | | discriminate].
  - destruct (completeBlock_inv _ Hc) as [Hall Hlast].
    apply sound_evalProgram_loop; assumption.
  - destruct statement as [name [e |] | | [e |] | [e |]]; try discriminate Hc;
      cbn [ast.completeStatement] in Hc; cbn [EvalNode resultOf];
      pose proof (sound_ev (ast.Expr e) env Hc) as He.
    + eapply sound_bind; [exact He | intros val Hval].
      destruct (isError val) eqn:Eerr; [apply sound_ret; right; exact Eerr |].
      apply (sound_bind _ _ (fun _ => True)); [apply sound_Set'; exact Hval | intros ? _].
      apply sound_ret. left. reflexivity.
    + eapply sound_bind; [exact He | intros val Hval].
      destruct (isError val); [apply sound_ret; exact Hval |].
      eapply sound_bind; [apply sound_alloc | intros p _].
      apply sound_ret. destruct Hval as (o & -> & Ho). cbn [resultOf]. auto with sound.
    + exact He.
  - destruct (completeBlock_inv _ Hc) as [Hall Hlast].
    apply sound_evalBlockStatement_loop; assumption.
  - destruct e as [name | b | v | operator r | l operator r | c conseq alt | params body
                   | f arguments | v | els | l i | pairs]; cbn [EvalNode];
      match goal with |- sound ?m _ => change (sound m goodResult) end.
    + apply sound_evalIdentifier.
    + apply sound_ret. auto with sound.
    + apply sound_newInteger.
    + assert (ast.completeSlot r = true) as Hr by exact Hc.
      eapply sound_bind; [exact (sound_ev_slot r env Hr) | intros right Hright].
      destruct (isError right); [apply sound_ret; exact Hright |].
      apply sound_evalPrefixExpression.
    + assert (ast.completeSlot l && ast.completeSlot r = true) as Hlr by exact Hc.
      apply andb_true_iff in Hlr as [Hl Hr].
      eapply sound_bind; [exact (sound_ev_slot l env Hl) | intros left Hleft].
      destruct (isError left); [apply sound_ret; exact Hleft |].
      eapply sound_bind; [exact (sound_ev_slot r env Hr) | intros right Hright].
      destruct (isError right); [apply sound_ret; exact Hright |].
      apply sound_evalInfixExpression.
    + assert (ast.completeSlot c && ast.completeBlock conseq &&
              match alt with Some a => ast.completeBlock a | None => true end = true)
        as Hif by exact Hc.
      apply andb_true_iff in Hif as [Hif Halt]. apply andb_true_iff in Hif as [Hcond Hconseq].
      unfold evalIfExpression.
      eapply sound_bind; [exact (sound_ev_slot c env Hcond) | intros condition Hcondition].
      destruct (isError condition); [apply sound_ret; exact Hcondition |].
      destruct (isTruthy condition); [apply sound_ev_block, Hconseq |].
      destruct alt as [a |]; [apply sound_ev_block, Halt | apply sound_ret; auto with sound].
    + assert (ast.completeBlock body = true) as Hbody by exact Hc.
      eapply sound_bind; [apply sound_alloc | intros p _].
      apply sound_ret. auto with sound.
    + assert (ast.completeSlot f && forallb ast.completeSlot arguments = true)
        as Hcall by exact Hc.
      apply andb_true_iff in Hcall as [Hf Hargs].
      eapply sound_bind; [exact (sound_ev_slot f env Hf) | intros function Hfunction].
      destruct (isError function); [apply sound_ret; exact Hfunction |].
      eapply sound_bind;
        [exact (sound_evalExpressions_loop env arguments [] Hargs (Forall_nil_2 _))
        | intros args Hgood].
      assert (sound (applyFunction callBuiltin ev function args) goodResult) as Happly
        by (apply sound_applyFunction; assumption).
      destruct args as [| a [| a' args']]; try exact Happly.
      destruct (isError a); [| exact Happly].
      apply sound_ret. inversion Hgood; assumption.
    + eapply sound_bind; [apply sound_alloc | intros p _].
      apply sound_ret. auto with sound.
    + assert (forallb ast.completeSlot els = true) as Hels by exact Hc.
      eapply sound_bind;
        [exact (sound_evalExpressions_loop env els [] Hels (Forall_nil_2 _))
        | intros elements Hgood].
      assert (sound (alloc ≫= fun p => mret (Some (object.Array p elements))) goodResult)
        as Hnew.
      { eapply sound_bind; [apply sound_alloc | intros p _].
        apply sound_ret. eexists. split; [reflexivity |]. constructor. exact Hgood. }
      destruct elements as [| a [| a' elements']]; try exact Hnew.
      destruct (isError a); [| exact Hnew].
      apply sound_ret. inversion Hgood; assumption.
    + assert (ast.completeSlot l && ast.completeSlot i = true) as Hli by exact Hc.
      apply andb_true_iff in Hli as [Hl Hi].
      eapply sound_bind; [exact (sound_ev_slot l env Hl) | intros left Hleft].
      destruct (isError left); [apply sound_ret; exact Hleft |].
      eapply sound_bind; [exact (sound_ev_slot i env Hi) | intros index Hindex].
      destruct (isError index); [apply sound_ret; exact Hindex |].
      apply sound_evalIndexExpression, Hleft.
    + apply sound_evalHashLiteral. exact Hc.
Qed.

End Open.

(** On a complete node, from a good state, every run of [Eval] that
    returns ends in a good state and returns what [resultOf] says. *)
Lemma sound_Eval fuel : forall node env,
  ast.completeNode node = true ->
  sound (Eval Sprintf0 builtins callBuiltin rangeOrder fuel node env) (resultOf node).
Proof.
  induction fuel as [| fuel IH]; intros node env Hc; cbn [Eval];
    [apply sound_outOfFuel | apply sound_EvalNode; assumption].
Qed.

End WithBuiltins.

End Soundness.

(** ** Totality of [Eval] on plain complete nodes *)

Section Totality.

Import evaluator.

Variable env : nat.

Lemma total_ret {A} (a : A) (Q : A -> Prop) : Q a -> total env (mret a) Q.
Proof. intros HQ s Hs. exists a, s. auto. Qed.

Lemma total_bind {A B} (m : M A) (k : A -> M B) (R : A -> Prop) (Q : B -> Prop) :
  total env m R -> (forall a, R a -> total env (k a) Q) -> total env (m ≫= k) Q.
Proof.
  intros Hm Hk s Hs. destruct (Hm s Hs) as (a & s1 & H1 & Hs1 & HR).
  destruct (Hk a HR s1 Hs1) as (b & s2 & H2 & Hs2 & HQ).
  exists b, s2. rewrite (bind_Ok _ _ _ _ _ H1). auto.
Qed.

Lemma total_alloc : total env alloc (fun _ => True).
Proof. intros s Hs. eexists _, _. split; [reflexivity |]. split; [exact Hs | exact I]. Qed.

Lemma total_newError msg : total env (newError msg) goodResult.
Proof.
  unfold newError. eapply total_bind; [apply total_alloc | intros p _].
  apply total_ret. eexists. split; [reflexivity | constructor].
Qed.

Lemma total_newInteger v : total env (newInteger v) goodResult.
Proof.
  unfold newInteger. eapply total_bind; [apply total_alloc | intros p _].
  apply total_ret. eexists. split; [reflexivity | constructor].
Qed.

Lemma total_typeOf o : total env (typeOf (Some o)) (fun t => t = object.Type' o).
Proof. apply total_ret. reflexivity. Qed.

Lemma Type_INTEGER o :
  String.eqb (object.Type' o) object.INTEGER_OBJ = true -> exists p v, o = object.Integer p v.
Proof. destruct o; try discriminate. eauto. Qed.

Lemma Type_STRING o :
  String.eqb (object.Type' o) object.STRING_OBJ = true -> exists p v, o = object.String p v.
Proof. destruct o; try discriminate. eauto. Qed.

Lemma Type_ARRAY o :
  String.eqb (object.Type' o) object.ARRAY_OBJ = true -> exists p els, o = object.Array p els.
Proof. destruct o; try discriminate. eauto. Qed.

Lemma Type_HASH o :
  String.eqb (object.Type' o) object.HASH_OBJ = true -> exists p m, o = object.Hash p m.
Proof. destruct o; try discriminate. eauto. Qed.

Lemma total_evalPrefixExpression operator right :
  goodResult right -> total env (evalPrefixExpression operator right) goodResult.
Proof.
  intros (o & -> & Ho). unfold evalPrefixExpression, evalMinusPrefixOperatorExpression.
  destruct (String.eqb operator "!").
  { apply total_ret. eexists. split; [reflexivity | apply good_bang]. }
  destruct (String.eqb operator "-").
  - eapply total_bind; [apply total_typeOf | intros t ->].
    destruct (String.eqb (object.Type' o) object.INTEGER_OBJ) eqn:Et; cbn [negb];
      [| apply total_newError].
    destruct (Type_INTEGER o Et) as (p & v & ->).
    eapply total_bind; [apply total_alloc | intros q _].
    apply total_ret. eexists. split; [reflexivity | constructor].
  - eapply total_bind; [apply total_typeOf | intros t _]. apply total_newError.
Qed.

Lemma total_bothTypes t l r :
  total env (bothTypes t (Some l) (Some r))
    (fun b => b = String.eqb (object.Type' l) t && String.eqb (object.Type' r) t).
Proof.
  unfold bothTypes. eapply total_bind; [apply total_typeOf | intros lt ->].
  destruct (String.eqb (object.Type' l) t); [| apply total_ret; reflexivity].
  eapply total_bind; [apply total_typeOf | intros rt ->]. apply total_ret. reflexivity.
Qed.

Lemma total_unknownOperator operator l r :
  total env (unknownOperator operator (Some l) (Some r)) goodResult.
Proof.
  unfold unknownOperator. eapply total_bind; [apply total_typeOf | intros lt _].
  eapply total_bind; [apply total_typeOf | intros rt _]. apply total_newError.
Qed.

Lemma total_evalInfixExpression operator left right :
  String.eqb operator "/" = false ->
  goodResult left -> goodResult right ->
  total env (evalInfixExpression operator left right) goodResult.
Proof.
  intros Hop (l & -> & Hl) (r & -> & Hr). unfold evalInfixExpression.
  eapply total_bind; [apply total_bothTypes | intros b ->].
  destruct (String.eqb (object.Type' l) object.INTEGER_OBJ) eqn:El;
    [destruct (String.eqb (object.Type' r) object.INTEGER_OBJ) eqn:Er |]; cbn [andb].
  { destruct (Type_INTEGER l El) as (p & lv & ->), (Type_INTEGER r Er) as (q & rv & ->).
    unfold evalIntegerInfixExpression. rewrite Hop.
    repeat match goal with
           | |- total env (if ?c then _ else _) _ => destruct c
           end;
      first [apply total_newInteger | apply total_unknownOperator
            | apply total_ret; eexists; split; [reflexivity | apply good_nativeBool]]. }
  all: eapply total_bind; [apply total_bothTypes | intros b ->].
  all: destruct (String.eqb (object.Type' l) object.STRING_OBJ) eqn:Fl;
    [destruct (String.eqb (object.Type' r) object.STRING_OBJ) eqn:Fr |]; cbn [andb].
  all: try (destruct (Type_STRING l Fl) as (p & lv & ->), (Type_STRING r Fr) as (q & rv & ->);
            unfold evalStringInfixExpression;
            destruct (String.eqb operator "+"); cbn [negb];
            [eapply total_bind; [apply total_alloc | intros p' _];
             apply total_ret; eexists; split; [reflexivity | constructor]
            | apply total_unknownOperator]).
  all: repeat match goal with
           | |- total env (if ?c then _ else _) _ => destruct c
           end;
      try (apply total_ret; eexists; split; [reflexivity | apply good_nativeBool]).
  all: eapply total_bind; [apply total_typeOf | intros lt _];
       eapply total_bind; [apply total_typeOf | intros rt _];
       destruct (negb _); apply total_newError.
Qed.

Lemma total_evalIndexExpression left index :
  goodResult left -> goodResult index ->
  total env (evalIndexExpression left index) goodResult.
Proof.
  intros (l & -> & Hl) (i & -> & Hi).
  unfold evalIndexExpression.
  eapply total_bind; [apply total_typeOf | intros lt ->].
  eapply (total_bind _ _ (fun b =>
    b = String.eqb (object.Type' l) object.ARRAY_OBJ
        && String.eqb (object.Type' i) object.INTEGER_OBJ)).
  { destruct (String.eqb (object.Type' l) object.ARRAY_OBJ); [| apply total_ret; reflexivity].
    eapply total_bind; [apply total_typeOf | intros it ->]. apply total_ret. reflexivity. }
  intros b ->.
  destruct (String.eqb (object.Type' l) object.ARRAY_OBJ) eqn:El;
    [destruct (String.eqb (object.Type' i) object.INTEGER_OBJ) eqn:Ei |]; cbn [andb].
  - destruct (Type_ARRAY l El) as (p & els & ->), (Type_INTEGER i Ei) as (q & idx & ->).
    unfold evalArrayIndexExpression. cbv zeta.
    destruct (Z.ltb_spec idx 0); cbn [orb];
      [apply total_ret; eexists; split; [reflexivity | constructor] |].
    destruct (Z.gtb_spec idx (Z.of_nat (length els) - 1));
      [apply total_ret; eexists; split; [reflexivity | constructor] |].
    destruct (lookup_lt_is_Some_2 els (Z.to_nat idx)) as [e He]; [lia |].
    rewrite He. apply total_ret. eapply good_Array_lookup; eassumption.
  - destruct (Type_ARRAY l El) as (p & els & ->). cbn. apply total_newError.
  - destruct (String.eqb (object.Type' l) object.HASH_OBJ) eqn:Eh; [| apply total_newError].
    destruct (Type_HASH l Eh) as (p & m & ->). unfold evalHashIndexExpression.
    cbn [mbind option_bind].
    destruct (object.hashKey i) as [key |].
    + destruct (m !! key) as [pair0 |] eqn:Hp; apply total_ret;
        [eapply good_Hash_lookup; eassumption | eexists; split; [reflexivity | constructor]].
    + eapply total_bind; [apply total_typeOf | intros t _]. apply total_newError.
Qed.

Lemma steady_Set' name val s fr :
  goodResult val -> steady env s -> frames s !! env = Some fr ->
  steady env {| next := next s;
                frames := <[env := {| object.store := <[name := val]> (object.store fr);
                                      object.outer := object.outer fr |}]> (frames s) |}.
Proof.
  intros Hval (Hg & Hwf & He) Hfr. split; [| split]; cbn.
  - intros e0 fr0. cbn. rewrite lookup_insert. destruct (decide (env = e0)) as [<- | Hne].
    + intros [= <-]. cbn. apply goodStore_insert; [exact (Hg env fr Hfr) | exact Hval].
    + apply Hg.
  - intros e0 fr0 o. rewrite lookup_insert. destruct (decide (env = e0)) as [<- | Hne].
    + intros [= <-]. cbn. intros Ho. destruct (Hwf env fr o Hfr Ho) as [Hlt Hso].
      split; [exact Hlt |]. apply lookup_insert_is_Some'. auto.
    + intros Hfr0 Ho. destruct (Hwf e0 fr0 o Hfr0 Ho) as [Hlt Hso].
      split; [exact Hlt |]. apply lookup_insert_is_Some'. auto.
  - rewrite lookup_insert_eq. eauto.
Qed.

Lemma total_Set' name val :
  goodResult val -> total env (Set' env name val) (fun _ => True).
Proof.
  intros Hval s Hs. destruct Hs as (Hg & Hwf & [fr Hfr]).
  unfold Set', readFrame, writeFrame, mbind, M_bind. rewrite Hfr.
  eexists _, _. split; [reflexivity |]. split; [| exact I].
  apply steady_Set'; [exact Hval | split; [exact Hg | split; [exact Hwf | eauto]] | exact Hfr].
Qed.

Lemma total_evalIdentifier Sprintf0 builtins name :
  total env (evalIdentifier Sprintf0 builtins name env) goodResult.
Proof.
  intros s Hs. pose proof Hs as (Hg & Hwf & He).
  destruct (Get_chain name s env Hwf He) as (r & Hr & HG).
  destruct (sound_Get_rec (S env) env name s r s Hg HG) as [_ Hgood].
  unfold evalIdentifier. rewrite (bind_Ok _ _ _ _ _ HG).
  destruct r as [val |]; [exists val, s; auto |].
  destruct (builtins !! name) as [[p fn] |].
  - eexists _, s. split; [reflexivity |]. split; [exact Hs |].
    eexists. split; [reflexivity | constructor].
  - apply total_newError, Hs.
Qed.

Section Open.

Variable Sprintf0 : string -> string.
Variable builtins : gmap string (nat * nat).
Variable callBuiltin : nat -> list (option object.Object) -> M (option object.Object).
Variable rangeOrder :
  State -> list (option ast.Expression * option ast.Expression) ->
  list (option ast.Expression * option ast.Expression).
Hypothesis rangeOrder_permutes :
  forall s entries, Permutation (rangeOrder s entries) entries.

Variable ev : ast.Node -> nat -> M (option object.Object).
Variable n : nat.

Local Abbreviation fits := (evaluator.fits n).

Hypothesis total_ev : forall node, fits node -> total env (ev node env) (resultOf node).

Lemma total_ev_slot e :
  fits (ast.exprNode e) -> total env (ev (ast.exprNode e) env) goodResult.
Proof.
  intros Hf. pose proof Hf as (Hc & _ & _). destruct e as [e |]; [| discriminate Hc].
  exact (total_ev (ast.Expr e) Hf).
Qed.

Lemma total_evalBlockStatement_loop statements : forall result,
  Forall (fun s => fits (ast.Stmt s)) statements ->
  match last statements with
  | Some s => ast.notLet s = true
  | None => goodResult result
  end ->
  total env (evalBlockStatement_loop ev statements env result) goodResult.
Proof.
  induction statements as [| statement rest IH]; intros result Hall Hlast;
    cbn [evalBlockStatement_loop].
  - apply total_ret. exact Hlast.
  - inversion Hall as [| ? ? Hs Hrest]; subst.
    eapply total_bind; [exact (total_ev (ast.Stmt statement) Hs) | intros r Hr].
    assert (total env (evalBlockStatement_loop ev rest env r) goodResult) as Hgo.
    { apply IH; [exact Hrest |]. destruct rest as [| s2 rest'].
      - cbn in Hlast |- *. eapply resultOf_notLet; eassumption.
      - eapply last_carry, Hlast. }
    destruct r as [o |]; [| exact Hgo]. cbv zeta.
    destruct (String.eqb (object.Type' o) object.RETURN_VALUE_OBJ
              || String.eqb (object.Type' o) object.ERROR_OBJ) eqn:Hstop; [| exact Hgo].
    apply total_ret. eapply resultOf_stops; [exact Hr |].
    destruct o; try discriminate Hstop; reflexivity.
Qed.

Lemma total_evalProgram_loop statements : forall result,
  Forall (fun s => fits (ast.Stmt s)) statements ->
  match last statements with
  | Some s => ast.notLet s = true
  | None => goodResult result
  end ->
  total env (evalProgram_loop ev statements env result) goodResult.
Proof.
  induction statements as [| statement rest IH]; intros result Hall Hlast;
    cbn [evalProgram_loop].
  - apply total_ret. exact Hlast.
  - inversion Hall as [| ? ? Hs Hrest]; subst.
    eapply total_bind; [exact (total_ev (ast.Stmt statement) Hs) | intros r Hr].
    assert (total env (evalProgram_loop ev rest env r) goodResult) as Hgo.
    { apply IH; [exact Hrest |]. destruct rest as [| s2 rest'].
      - cbn in Hlast |- *. eapply resultOf_notLet; eassumption.
      - eapply last_carry, Hlast. }
    destruct r as [o |]; [| exact Hgo].
    assert (continues (Some o) = false -> good o) as Hstop.
    { intros Hc. destruct (resultOf_stops _ _ Hr Hc) as (o' & [= <-] & Ho). exact Ho. }
    destruct o; try exact Hgo; specialize (Hstop eq_refl); apply total_ret.
    + inversion Hstop; subst. eexists; eauto.
    + eexists; eauto.
Qed.

Lemma total_evalExpressions_loop exps : forall result,
  Forall (fun e => fits (ast.exprNode e)) exps ->
  Forall goodResult result ->
  total env (evalExpressions_loop ev exps env result) (Forall goodResult).
Proof.
  induction exps as [| e rest IH]; intros result Hall Hres; cbn [evalExpressions_loop].
  - apply total_ret. exact Hres.
  - inversion Hall as [| ? ? He Hrest]; subst.
    eapply total_bind; [exact (total_ev_slot e He) | intros r Hr].
    destruct (isError r).
    + apply total_ret. constructor; [exact Hr | constructor].
    + apply IH; [exact Hrest |]. apply Forall_app. split; [exact Hres |].
      constructor; [exact Hr | constructor].
Qed.

Lemma total_evalHashLiteral_loop entries : forall pairs,
  Forall (fun kv => fits (ast.exprNode (fst kv)) /\ fits (ast.exprNode (snd kv))) entries ->
  map_Forall (fun _ pair0 => goodPair pair0) pairs ->
  total env (evalHashLiteral_loop ev entries env pairs)
    (fun r => match r with
              | inl o => goodResult o
              | inr m => map_Forall (fun _ pair0 => goodPair pair0) m
              end).
Proof.
  induction entries as [| [keyNode valueNode] rest IH]; intros pairs Hall Hpairs;
    cbn [evalHashLiteral_loop].
  - apply total_ret. exact Hpairs.
  - inversion Hall as [| ? ? [Hk Hv] Hrest]; subst. cbn [fst snd] in Hk, Hv.
    eapply total_bind; [exact (total_ev_slot keyNode Hk) | intros key Hkey].
    destruct (isError key); [apply total_ret; exact Hkey |].
    destruct Hkey as (k & -> & Hgk). cbn [mbind option_bind].
    destruct (object.hashKey k) as [hashed |].
    + eapply total_bind; [exact (total_ev_slot valueNode Hv) | intros val Hval].
      destruct (isError val); [apply total_ret; exact Hval |].
      apply IH; [exact Hrest |]. apply map_Forall_insert_2; [split; assumption | exact Hpairs].
    + eapply total_bind; [apply total_typeOf | intros t _].
      eapply total_bind; [apply total_newError | intros r Hr].
      apply total_ret. exact Hr.
Qed.

Lemma total_evalHashLiteral Pairs :
  Forall (fun kv => fits (ast.exprNode (fst kv)) /\ fits (ast.exprNode (snd kv))) Pairs ->
  total env (evalHashLiteral rangeOrder ev Pairs env) goodResult.
Proof.
  intros Hall s Hs. unfold evalHashLiteral.
  rewrite (bind_Ok (visitOrder rangeOrder Pairs) _ s (rangeOrder s Pairs) s eq_refl).
  assert (Forall (fun kv => fits (ast.exprNode (fst kv)) /\ fits (ast.exprNode (snd kv)))
            (rangeOrder s Pairs)) as Hord.
  { rewrite Forall_forall in Hall |- *. intros kv Hin. apply Hall.
    rewrite <- (rangeOrder_permutes s Pairs). exact Hin. }
  destruct (total_evalHashLiteral_loop (rangeOrder s Pairs) ∅ Hord (map_Forall_empty _) s Hs)
    as (r & s1 & Hloop & Hs1 & Hr).
  rewrite (bind_Ok _ _ _ _ _ Hloop). destruct r as [o | pairs].
  - exists o, s1. auto.
  - refine (total_bind _ _ _ _ total_alloc _ s1 Hs1). intros p _.
    apply total_ret. eexists. split; [reflexivity |]. constructor. exact Hr.
Qed.

Lemma fold_max_Forall {A} (f : A -> nat) (l : list A) (m : nat) :
  fold_right (fun x acc => Nat.max (f x) acc) 0 l <= m -> Forall (fun x => f x <= m) l.
Proof.
  induction l as [| x l IH]; cbn [fold_right]; intros H; constructor; [lia | apply IH; lia].
Qed.

Lemma fits_statements statements :
  forallb ast.completeStatement statements = true ->
  forallb ast.plainStatement statements = true ->
  ast.heightBlock statements <= S n ->
  Forall (fun s => fits (ast.Stmt s)) statements.
Proof.
  intros Hc Hp Hh. unfold ast.heightBlock in Hh. apply le_S_n, fold_max_Forall in Hh.
  rewrite forallb_forall in Hc, Hp. rewrite Forall_forall in Hh |- *.
  intros s Hin. apply list_elem_of_In in Hin as Hin'.
  split; [apply Hc, Hin' | split; [apply Hp, Hin' | apply Hh, Hin]].
Qed.

Lemma fits_slots exps :
  forallb ast.completeSlot exps = true ->
  forallb ast.plainSlot exps = true ->
  fold_right (fun o acc => Nat.max (ast.heightSlot o) acc) 0 exps <= n ->
  Forall (fun e => fits (ast.exprNode e)) exps.
Proof.
  intros Hc Hp Hh. apply fold_max_Forall in Hh.
  rewrite forallb_forall in Hc, Hp. rewrite Forall_forall in Hh |- *.
  intros e Hin. apply list_elem_of_In in Hin as Hin'.
  specialize (Hc e Hin'). specialize (Hp e Hin'). specialize (Hh e Hin).
  destruct e as [e |]; [| discriminate Hc]. split; [exact Hc | split; [exact Hp | exact Hh]].
Qed.

Lemma fits_slot e :
  ast.completeSlot e = true -> ast.plainSlot e = true -> ast.heightSlot e <= n ->
  fits (ast.exprNode e).
Proof.
  destruct e as [e |]; [| discriminate]. intros Hc Hp Hh. split; [exact Hc | split; assumption].
Qed.

Lemma fits_block statements :
  ast.completeBlock statements = true ->
  forallb ast.plainStatement statements = true ->
  ast.heightBlock statements <= n ->
  fits (ast.BlockStatement statements).
Proof. intros Hc Hp Hh. split; [exact Hc | split; assumption]. Qed.

Lemma total_EvalNode node :
  ast.completeNode node = true -> ast.plainNode node = true ->
  ast.heightNode node <= S n ->
  total env (EvalNode Sprintf0 builtins callBuiltin rangeOrder ev node env) (resultOf node).
Proof.
  destruct node as [statements | statement | statements | e |]; cbn [ast.completeNode];
    intros Hc Hp Hh; [| | | | discriminate].
  - destruct (completeBlock_inv _ Hc) as [Hall Hlast].
    apply total_evalProgram_loop; [apply fits_statements; assumption | exact Hlast].
  - destruct statement as [name [e |] | | [e |] | [e |]]; try discriminate Hc;
      cbn [ast.completeStatement] in Hc; cbn [EvalNode];
      assert (fits (ast.Expr e)) as Hf
        by (split; [exact Hc | split; [exact Hp | apply le_S_n; exact Hh]]);
      pose proof (total_ev (ast.Expr e) Hf) as He.
    + eapply total_bind; [exact He | intros val Hval].
      destruct (isError val) eqn:Eerr; [apply total_ret; right; exact Eerr |].
      apply (total_bind _ _ (fun _ => True)); [apply total_Set'; exact Hval | intros ? _].
      apply total_ret. left. reflexivity.
    + eapply total_bind; [exact He | intros val Hval].
      destruct (isError val); [apply total_ret; exact Hval |].
      eapply total_bind; [apply total_alloc | intros p _].
      apply total_ret. destruct Hval as (o & -> & Ho). cbn [resultOf].
      eexists. split; [reflexivity | constructor; exact Ho].
    + exact He.
  - destruct (completeBlock_inv _ Hc) as [Hall Hlast].
    apply total_evalBlockStatement_loop; [apply fits_statements; assumption | exact Hlast].
  - destruct e as [name | b | v | operator r | l operator r | c conseq alt | params body
                   | f arguments | v | els | l i | pairs]; cbn [EvalNode];
      match goal with |- total env ?m _ => change (total env m goodResult) end.
    + apply total_evalIdentifier.
    + apply total_ret. eexists. split; [reflexivity | apply good_nativeBool].
    + apply total_newInteger.
    + assert (fits (ast.exprNode r)) as Hr
        by (apply fits_slot; [exact Hc | exact Hp | apply le_S_n; exact Hh]).
      eapply total_bind; [exact (total_ev_slot r Hr) | intros right Hright].
      destruct (isError right); [apply total_ret; exact Hright |].
      apply total_evalPrefixExpression, Hright.
    + assert (ast.completeSlot l && ast.completeSlot r = true) as Hlr by exact Hc.
      apply andb_true_iff in Hlr as [Hcl Hcr].
      assert (negb (String.eqb operator "/") && ast.plainSlot l && ast.plainSlot r = true)
        as Hplain by exact Hp.
      apply andb_true_iff in Hplain as [Hplain Hpr].
      apply andb_true_iff in Hplain as [Hop Hpl]. apply negb_true_iff in Hop.
      assert (Nat.max (ast.heightSlot l) (ast.heightSlot r) <= n) as Hmax
        by (apply le_S_n; exact Hh).
      assert (fits (ast.exprNode l)) as Hl by (apply fits_slot; [assumption .. | lia]).
      assert (fits (ast.exprNode r)) as Hr by (apply fits_slot; [assumption .. | lia]).
      eapply total_bind; [exact (total_ev_slot l Hl) | intros left Hleft].
      destruct (isError left); [apply total_ret; exact Hleft |].
      eapply total_bind; [exact (total_ev_slot r Hr) | intros right Hright].
      destruct (isError right); [apply total_ret; exact Hright |].
      apply total_evalInfixExpression; assumption.
    + assert (ast.completeSlot c && ast.completeBlock conseq &&
              match alt with Some a => ast.completeBlock a | None => true end = true)
        as Hif by exact Hc.
      apply andb_true_iff in Hif as [Hif Hcalt]. apply andb_true_iff in Hif as [Hcc Hcconseq].
      assert (ast.plainSlot c && forallb ast.plainStatement conseq &&
              match alt with Some a => forallb ast.plainStatement a | None => true end = true)
        as Hplain by exact Hp.
      apply andb_true_iff in Hplain as [Hplain Hpalt].
      apply andb_true_iff in Hplain as [Hpc Hpconseq].
      assert (Nat.max (ast.heightSlot c)
                (Nat.max (ast.heightBlock conseq)
                   (match alt with Some a => ast.heightBlock a | None => 0 end)) <= n) as Hmax
        by (apply le_S_n; exact Hh).
      assert (fits (ast.exprNode c)) as Hfc by (apply fits_slot; [assumption .. | lia]).
      assert (fits (ast.BlockStatement conseq)) as Hfconseq
        by (apply fits_block; [assumption .. | lia]).
      unfold evalIfExpression.
      eapply total_bind; [exact (total_ev_slot c Hfc) | intros condition Hcondition].
      destruct (isError condition); [apply total_ret; exact Hcondition |].
      destruct (isTruthy condition); [exact (total_ev _ Hfconseq) |].
      destruct alt as [a |];
        [| apply total_ret; eexists; split; [reflexivity | constructor]].
      apply (total_ev (ast.BlockStatement a)). apply fits_block; [assumption .. | lia].
    + assert (ast.completeBlock body = true) as Hbody by exact Hc.
      eapply total_bind; [apply total_alloc | intros p _].
      apply total_ret. eexists. split; [reflexivity | constructor; exact Hbody].
    + discriminate Hp.
    + eapply total_bind; [apply total_alloc | intros p _].
      apply total_ret. eexists. split; [reflexivity | constructor].
    + assert (Forall (fun e => fits (ast.exprNode e)) els) as Hels
        by (apply fits_slots; [exact Hc | exact Hp | apply le_S_n; exact Hh]).
      eapply total_bind;
        [exact (total_evalExpressions_loop els [] Hels (Forall_nil_2 _))
        | intros elements Hgood].
      assert (total env (alloc ≫= fun p => mret (Some (object.Array p elements))) goodResult)
        as Hnew.
      { eapply total_bind; [apply total_alloc | intros p _].
        apply total_ret. eexists. split; [reflexivity |]. constructor. exact Hgood. }
      destruct elements as [| a [| a' elements']]; try exact Hnew.
      destruct (isError a); [| exact Hnew].
      apply total_ret. inversion Hgood; assumption.
    + assert (ast.completeSlot l && ast.completeSlot i = true) as Hli by exact Hc.
      apply andb_true_iff in Hli as [Hcl Hci].
      assert (ast.plainSlot l && ast.plainSlot i = true) as Hplain by exact Hp.
      apply andb_true_iff in Hplain as [Hpl Hpi].
      assert (Nat.max (ast.heightSlot l) (ast.heightSlot i) <= n) as Hmax
        by (apply le_S_n; exact Hh).
      assert (fits (ast.exprNode l)) as Hl by (apply fits_slot; [assumption .. | lia]).
      assert (fits (ast.exprNode i)) as Hi by (apply fits_slot; [assumption .. | lia]).
      eapply total_bind; [exact (total_ev_slot l Hl) | intros left Hleft].
      destruct (isError left); [apply total_ret; exact Hleft |].
      eapply total_bind; [exact (total_ev_slot i Hi) | intros index Hindex].
      destruct (isError index); [apply total_ret; exact Hindex |].
      apply total_evalIndexExpression; assumption.
    + apply total_evalHashLiteral.
      assert (forallb (fun kv => ast.completeSlot (fst kv) && ast.completeSlot (snd kv))
                pairs = true) as Hcp by exact Hc.
      assert (forallb (fun kv => ast.plainSlot (fst kv) && ast.plainSlot (snd kv))
                pairs = true) as Hpp by exact Hp.
      assert (fold_right (fun kv acc =>
                Nat.max (Nat.max (ast.heightSlot (fst kv)) (ast.heightSlot (snd kv))) acc)
                0 pairs <= n) as Hhp by (apply le_S_n; exact Hh).
      apply fold_max_Forall in Hhp.
      rewrite forallb_forall in Hcp, Hpp. rewrite Forall_forall in Hhp |- *.
      intros kv Hin. apply list_elem_of_In in Hin as Hin'.
      specialize (Hcp kv Hin'). specialize (Hpp kv Hin'). specialize (Hhp kv Hin).
      apply andb_true_iff in Hcp as [Hck Hcv]. apply andb_true_iff in Hpp as [Hpk Hpv].
      split; apply fits_slot; solve [assumption | lia].
Qed.

End Open.

Lemma heightNode_positive node : 1 <= ast.heightNode node.
Proof.
  destruct node as [statements | s | statements | e |]; cbn [ast.heightNode].
  - unfold ast.heightBlock. lia.
  - destruct s as [name [e |] | | [e |] | [e |]]; cbn [ast.heightStatement]; lia.
  - unfold ast.heightBlock. lia.
  - destruct e; cbn [ast.height]; lia.
  - lia.
Qed.

(** With fuel for the height of a plain complete node, [Eval] returns. *)
Lemma total_Eval Sprintf0 builtins callBuiltin rangeOrder
    (rangeOrder_permutes : forall s entries, Permutation (rangeOrder s entries) entries)
    fuel : forall node,
  ast.completeNode node = true -> ast.plainNode node = true ->
  ast.heightNode node <= fuel ->
  total env (Eval Sprintf0 builtins callBuiltin rangeOrder fuel node env) (resultOf node).
Proof.
  induction fuel as [| fuel IH]; intros node Hc Hp Hh.
  - pose proof (heightNode_positive node). lia.
  - cbn [Eval]. apply total_EvalNode with (n := fuel); try assumption.
    intros node' (Hc' & Hp' & Hh'). apply IH; assumption.
Qed.

End Totality.



Lemma goodBuiltins_noBuiltinCall : evaluator.goodBuiltins evaluator.noBuiltinCall.
Proof. intros fn args _ s a s' _ [=]. Qed.

Lemma rootState_frames :
  evaluator.frames evaluator.rootState =
  <[evaluator.rootEnv := {| object.store := ∅; object.outer := None |}]> ∅.
Proof. reflexivity. Qed.

Lemma steady_rootState : evaluator.steady evaluator.rootEnv evaluator.rootState.
Proof.
  split; [| split].
  - intros e fr Hfr. rewrite rootState_frames in Hfr.
    apply lookup_insert_Some in Hfr as [[_ <-] | [_ Hfr]];
      [apply goodStore_empty | rewrite lookup_empty in Hfr; discriminate].
  - intros e fr o Hfr Ho. rewrite rootState_frames in Hfr.
    apply lookup_insert_Some in Hfr as [[_ <-] | [_ Hfr]];
      [discriminate Ho | rewrite lookup_empty in Hfr; discriminate].
  - rewrite rootState_frames, lookup_insert_eq. eauto.
Qed.


(** ** End-to-end scenarios (section 8 of the specification) *)

Example scenario_precedence : evaluator.integerOf "5 + 5 * 2" = Some 15%Z.
Proof. vm_compute. reflexivity. Qed.

Example scenario_index :
  evaluator.integerOf "let a = [1, 2, 3]; a[2]" = Some 3%Z /\
  evaluator.valueOf "let a = [1, 2, 3]; a[99]" = Some (Some evaluator.NULL).
Proof. vm_compute. split; reflexivity. Qed.

(** The source text is [{QUOTE name QUOTE : QUOTE Monkey QUOTE}[QUOTE name QUOTE]],
    QUOTE being the double-quote byte. *)
Example scenario_hash_index :
  evaluator.valueOf
    ("{" ++ parser.quote "name" ++ ":" ++ parser.quote "Monkey" ++ "}["
     ++ parser.quote "name" ++ "]")
  = Some (Some (object.String 5 "Monkey")).
Proof. vm_compute. reflexivity. Qed.

Example scenario_counter :
  evaluator.integerOf
    "let counter = fn(x){ if (x > 3) { return x; } counter(x + 1); }; counter(0)"
  = Some 4%Z.
Proof. vm_compute. reflexivity. Qed.

Example scenario_closure :
  evaluator.integerOf
    "let newAdder = fn(x){ fn(y){ x + y } }; let addTwo = newAdder(2); addTwo(3)"
  = Some 5%Z.
Proof. vm_compute. reflexivity. Qed.

Example scenario_errors :
  evaluator.messageOf "-true" = Some "unknown operator: -BOOLEAN" /\
  evaluator.messageOf "5 + true" = Some "type mismatch: INTEGER + BOOLEAN" /\
  evaluator.messageOf "foobar" = Some "identifier not found: foobar".
Proof. vm_compute. repeat split; reflexivity. Qed.

(** object_test.go: equal contents give equal hash keys, different contents
    different ones. *)
Example HashKey_equality :
  object.hashKey (object.String 4 "Hello World")
    = object.hashKey (object.String 5 "Hello World") /\
  object.hashKey (object.Integer 4 1) = object.hashKey (object.Integer 5 1) /\
  object.hashKey (object.Boolean 1 true) <> object.hashKey (object.Boolean 2 false) /\
  object.hashKey (object.String 4 "Hello World")
    <> object.hashKey (object.String 5 "My name is johnny").
Proof. vm_compute. repeat split; discriminate. Qed.

(* ===================================================================== *)
(** * Part III: further properties of the code                            *)
(* ===================================================================== *)

(** ** The literals of the tokens *)

Section TokenShapes.

Import lexer.

Lemma length_substring s : forall lo n,
  lo + n <= String.length s -> String.length (substring lo n s) = n.
Proof.
  induction s as [| c s IH]; intros lo n H.
  - cbn in H. assert (lo = 0) as -> by lia. assert (n = 0) as -> by lia. reflexivity.
  - destruct lo as [| lo].
    + destruct n as [| n]; [reflexivity |]. cbn [substring String.length]. f_equal.
      apply IH. cbn in H. lia.
    + cbn [substring]. apply IH. cbn in H. lia.
Qed.

Lemma after_consistent n input l :
  after n (New input) = Some l -> consistent l /\ lexer.input l = input.
Proof.
  intros H. destruct (New_consistent input) as (Hc & Hi & _).
  destruct (after_total n (New input) Hc) as (l' & H' & Hc' & Hi' & _).
  rewrite H in H'. injection H' as <-. split; [exact Hc' | congruence].
Qed.

(** A run read by [readIdentifier] or [readNumber]: not empty, made of
    bytes that pass the test, and followed by a byte that does not. *)
Lemma readRun_shape cond (Hz : cond zero = false) l :
  consistent l -> cond (ch l) = true ->
  let l' := readWhile cond (loopFuel l) l in
  exists run,
    slice (lexer.input l') (position l) (position l') = Some run /\
    run <> "" /\ forallb cond (list_ascii_of_string run) = true /\
    cond (ch l') = false /\
    run = substring (position l) (String.length run) (lexer.input l).
Proof.
  intros Hc Hcond. cbv zeta.
  destruct (readWhile_spec cond Hz (loopFuel l) l Hc) as (H1 & H2 & H3 & H4 & H5 & H6);
    [unfold loopFuel; lia |].
  pose proof (readWhile_run cond Hz (loopFuel l) l Hc) as Hrun.
  assert (ch l <> zero) as Hnz by (intros E; rewrite E, Hz in Hcond; discriminate).
  pose proof (consistent_ch_nonzero l Hc Hnz) as Hlt.
  specialize (H5 ltac:(lia)). specialize (H6 Hcond).
  set (l' := readWhile cond (loopFuel l) l) in *. clearbody l'.
  assert (String.length (substring (position l) (position l' - position l) (lexer.input l))
          = position l' - position l) as Hlen by (apply length_substring; lia).
  eexists. split; [rewrite H2; apply slice_in_bounds; lia |].
  split; [| split; [| split]].
  - intros E. rewrite E in Hlen. cbn in Hlen. lia.
  - apply substring_forall; [lia |]. intros i Hi. apply Hrun. lia.
  - exact H4.
  - rewrite Hlen. reflexivity.
Qed.

(** The bytes that [readString] passes are neither the quote nor NUL. *)
Lemma readString_loop_run fuel : forall l,
  consistent l ->
  forall i, position l < i < position (readString_loop fuel l) ->
  isQuote (byteAt (lexer.input l) i) || isNul (byteAt (lexer.input l) i) = false.
Proof.
  induction fuel as [| fuel IH]; intros l Hc i Hi; cbn [readString_loop] in Hi; [lia |].
  pose proof (consistent_position l Hc) as Hp.
  pose proof (readChar_consistent l) as Hc1.
  destruct (isQuote (ch (readChar l)) || isNul (ch (readChar l))) eqn:Hexit; [lia |].
  destruct (Nat.eq_dec i (S (position l))) as [-> | Hne].
  - destruct Hc1 as [_ E]. rewrite E, Hp, readChar_input in Hexit. exact Hexit.
  - rewrite <- (readChar_input l). apply IH; [exact Hc1 |]. rewrite Hp. lia.
Qed.

Lemma singleByte_punctuation c t :
  singleByte c = Some t ->
  t <> token.IDENT /\ t <> token.INT /\ t <> token.STRING.
Proof.
  destruct c as [[] [] [] [] [] [] [] []]; cbv; intros H; repeat split; intros E; subst;
    discriminate.
Qed.

End TokenShapes.

Section TokenKinds.

Import lexer.

Lemma LookupIdent_word s :
  token.LookupIdent s <> token.INT /\ token.LookupIdent s <> token.STRING.
Proof.
  unfold token.LookupIdent.
  repeat match goal with |- context [String.eqb ?a ?b] => destruct (String.eqb a b) end;
    split; discriminate.
Qed.

(** The cases of [NextToken], by the token it returns. *)
Lemma NextToken_cases l0 t l' :
  consistent l0 -> NextToken l0 = Some (t, l') ->
  let l := skipWhitespace l0 in
  (token.Type' t = token.INT ->
   isDigit (ch l) = true /\ readNumber l = Some (token.Literal t, l')) /\
  (token.Type' t = token.IDENT ->
   isLetter (ch l) = true /\ readIdentifier l = Some (token.Literal t, l')) /\
  (token.Type' t = token.STRING ->
   isQuote (ch l) = true /\
   exists l1, readString l = Some (token.Literal t, l1) /\ l' = readChar l1).
Proof.
  intros Hc0. unfold NextToken. set (l := skipWhitespace l0). cbv zeta.
  destruct ((nat_of_ascii (ch l) =? 61) || (nat_of_ascii (ch l) =? 33)).
  { destruct (nat_of_ascii (peekChar l) =? 61), (nat_of_ascii (ch l) =? 61);
      intros [= <- <-]; (split; [| split]); intros E; discriminate E. }
  destruct (nat_of_ascii (ch l) =? 34) eqn:E2.
  { destruct (readString l) as [[s l1] |]; cbn; [intros [= <- <-] | discriminate].
    split; [| split]; intros E; try discriminate E. split; [| eauto].
    unfold isQuote. exact E2. }
  destruct (nat_of_ascii (ch l) =? 0);
    [intros [= <- <-]; (split; [| split]); intros E; discriminate E |].
  destruct (singleByte (ch l)) eqn:E4.
  { intros [= <- <-]. destruct (singleByte_punctuation _ _ E4) as (H1 & H2 & H3).
    split; [| split]; intros E; cbn in E; contradiction. }
  destruct (isLetter (ch l)) eqn:E5.
  { destruct (readIdentifier l) as [[s l1] |] eqn:Hr; cbn; [intros [= <- <-] | discriminate].
    destruct (LookupIdent_word s) as [H1 H2].
    split; [| split]; intros E; cbn in E; try contradiction. split; reflexivity. }
  destruct (isDigit (ch l)) eqn:E6.
  { destruct (readNumber l) as [[s l1] |] eqn:Hr; cbn; [intros [= <- <-] | discriminate].
    split; [| split]; intros E; try discriminate E. split; reflexivity. }
  intros [= <- <-]. split; [| split]; intros E; discriminate E.
Qed.

End TokenKinds.



(** X13: the literal of a [STRING] token is the text between the opening
    quote and the first byte after it that is a quote or NUL, or the end of
    the input when there is none (an unterminated string is no error); it
    holds neither a quote nor NUL, there being no escape sequence, and the
    closing byte is consumed with it. *)
Theorem NextToken_STRING_literal
    (input : string) (n : nat) (l : lexer.Lexer) (t : token.Token) (l' : lexer.Lexer) :
  lexer.after n (lexer.New input) = Some l ->
  lexer.NextToken l = Some (t, l') ->
  token.Type' t = token.STRING ->
  let len := String.length (token.Literal t) in
  let closes c := lexer.isQuote c || lexer.isNul c in
  exists lo,
    0 < lo /\ lexer.isQuote (lexer.byteAt input (lo - 1)) = true /\
    token.Literal t = substring lo len input /\
    forallb (fun c => negb (closes c)) (list_ascii_of_string (token.Literal t)) = true /\
    closes (lexer.byteAt input (lo + len)) = true /\
    (lexer.isQuote (lexer.byteAt input (lo + len)) = false ->
     String.length input <= lo + len \/ lexer.isNul (lexer.byteAt input (lo + len)) = true) /\
    lexer.position l' = lo + len + 1.
Proof.
  intros Hafter HN Ht. cbv zeta.
  destruct (after_consistent n input l Hafter) as [Hc Hin].
  destruct (skipWhitespace_spec l Hc) as (Hcs & Hins & _).
  destruct (NextToken_cases l t l' Hc HN) as (_ & _ & HS).
  destruct (HS Ht) as (Hq & l1 & Hr & ->). clear HS.
  set (ls := lexer.skipWhitespace l) in *. clearbody ls.
  assert (lexer.input ls = input) as Hi by congruence.
  assert (lexer.ch ls <> zero) as Hnz.
  { intros E. rewrite E in Hq. discriminate Hq. }
  pose proof (consistent_ch_nonzero ls Hcs Hnz) as Hlt.
  destruct (readString_loop_spec (lexer.loopFuel ls) ls Hcs Hlt)
    as (Hc1 & Hi1 & Hlo & Hhi & Hexit); [unfold lexer.loopFuel; lia |].
  pose proof (readString_loop_run (lexer.loopFuel ls) ls Hcs) as Hrun.
  unfold lexer.readString in Hr. cbv zeta in Hr.
  set (lr := lexer.readString_loop (lexer.loopFuel ls) ls) in *. clearbody lr.
  rewrite slice_in_bounds in Hr by (rewrite ?Hi1; lia). cbn in Hr.
  injection Hr as Hlit <-.
  assert (String.length (token.Literal t) = lexer.position lr - (lexer.position ls + 1))
    as Hlen.
  { rewrite <- Hlit. apply length_substring. rewrite Hi1. lia. }
  exists (lexer.position ls + 1).
  replace (lexer.position ls + 1 + String.length (token.Literal t)) with (lexer.position lr)
    by lia.
  assert (lexer.ch lr = lexer.byteAt input (lexer.position lr)) as Hch.
  { destruct Hc1 as [_ E]. rewrite E, Hi1, Hi. reflexivity. }
  repeat apply conj.
  - lia.
  - replace (lexer.position ls + 1 - 1) with (lexer.position ls) by lia.
    destruct Hcs as [_ E]. rewrite <- Hi, <- E. exact Hq.
  - rewrite Hlen, <- Hlit, Hi1, Hi. reflexivity.
  - rewrite <- Hlit. apply substring_forall; [rewrite Hi1; lia |].
    intros i Hi'. rewrite Hi1. rewrite (Hrun i ltac:(lia)). reflexivity.
  - rewrite <- Hch. exact Hexit.
  - rewrite <- Hch. intros Hnq. rewrite Hnq in Hexit. right. exact Hexit.
  - rewrite (consistent_position lr Hc1). lia.
Qed.

(** X13 at the unterminated string QUOTE [ab]: the literal is [ab]. *)
Lemma NextToken_STRING_literal_witness :
  let input := String (ascii_of_nat 34) "ab" in
  exists t l' lo,
    lexer.NextToken (lexer.New input) = Some (t, l') /\
    token.Literal t = "ab" /\
    token.Literal t = substring lo 2 input /\
    lexer.position l' = lo + 2 + 1.
Proof.
  cbv zeta.
  let r := eval vm_compute in (lexer.NextToken (lexer.New (String (ascii_of_nat 34) "ab"))) in
  match r with
  | Some (?t, ?l') =>
      assert (lexer.NextToken (lexer.New (String (ascii_of_nat 34) "ab")) = Some (t, l'))
        as HN by (vm_compute; reflexivity);
      exists t, l'
  end.
  destruct (NextToken_STRING_literal (String (ascii_of_nat 34) "ab") 0 _ _ _ eq_refl HN
              eq_refl) as (lo & _ & _ & Hsub & _ & _ & _ & Hl').
  exists lo. split; [exact HN |]. split; [reflexivity |]. split; [exact Hsub | exact Hl'].
Defined.

(** ** Integer arithmetic *)

Section IntegerArithmetic.

Import object evaluator.

Lemma wrap64_int64 z : int64 (wrap64 z).
Proof.
  unfold int64, wrap64, two64.
  pose proof (Z.mod_pos_bound (z + 9223372036854775808) 18446744073709551616 eq_refl). lia.
Qed.

Lemma wrap64_exact z : int64 z -> wrap64 z = z.
Proof.
  unfold int64, wrap64, two64. intros H.
  rewrite Z.mod_small by lia. lia.
Qed.

Lemma wrap64_congruent z : ((wrap64 z - z) mod two64 = 0)%Z.
Proof.
  unfold wrap64, two64.
  rewrite (Z.mod_eq (z + 9223372036854775808) 18446744073709551616) by lia.
  replace (z + 9223372036854775808 -
           18446744073709551616 * ((z + 9223372036854775808) / 18446744073709551616) -
           9223372036854775808 - z)%Z
    with ((- ((z + 9223372036854775808) / 18446744073709551616)) * 18446744073709551616)%Z
    by lia.
  apply Z.mod_mul. lia.
Qed.

(** The quotient of two [int64]s fits an [int64], the one of the most
    negative number by -1 apart. *)
Lemma quot_int64 a b :
  int64 a -> int64 b -> b <> 0%Z ->
  ~ (a = (- 9223372036854775808)%Z /\ b = (-1)%Z) ->
  int64 (Z.quot a b).
Proof.
  unfold int64. intros Ha Hb Hb0 Hmin.
  assert (Z.abs (Z.quot a b) <= Z.abs a)%Z as Habs.
  { rewrite <- Z.quot_abs by exact Hb0.
    rewrite Z.quot_div_nonneg by lia.
    apply Z.div_le_upper_bound; [lia |]. nia. }
  assert (Z.quot a b <> 9223372036854775808)%Z as Hne.
  { intros E.
    assert (Z.abs a = 9223372036854775808)%Z as Ea by lia.
    assert (a = - 9223372036854775808)%Z as -> by lia.
    destruct (Z.eq_dec b (-1)%Z) as [-> | Hb1]; [tauto |].
    destruct (Z.eq_dec b 1%Z) as [-> | Hb2]; [rewrite Z.quot_1_r in E; lia |].
    assert (Z.abs (Z.quot (- 9223372036854775808) b) = 9223372036854775808)%Z as E2
      by (rewrite E; reflexivity).
    rewrite <- Z.quot_abs in E2 by exact Hb0.
    rewrite Z.quot_div_nonneg in E2 by lia.
    assert (Z.abs (-9223372036854775808) / Z.abs b <= 9223372036854775808 / 2)%Z as Hle.
    { etransitivity; [apply Z.div_le_compat_l with (q := 2%Z); lia |]. reflexivity. }
    rewrite E2 in Hle. vm_compute in Hle. apply Hle. reflexivity. }
  lia.
Qed.

Lemma evalInfixExpression_Integer operator p q a b s :
  evalInfixExpression operator (Some (Integer p a)) (Some (Integer q b)) s =
  evalIntegerInfixExpression operator (Some (Integer p a)) (Some (Integer q b)) s.
Proof. reflexivity. Qed.

End IntegerArithmetic.

(** X1: on two Integers, [+], [-] and [*] yield a new Integer that fits an
    [int64], congruent to the exact result modulo 2^64 and equal to it when
    it fits; [/] truncates toward zero, the quotient of the most negative
    number by -1 being that number again, and a division by zero is a
    panic of the host, not an Error; the comparisons are by value and
    yield the shared [TRUE] or [FALSE]; any other operator is the Error
    [unknown operator: INTEGER <op> INTEGER]. *)
Theorem evalIntegerInfixExpression_arithmetic (p q : nat) (a b : Z) (s : evaluator.State) :
  object.int64 a -> object.int64 b ->
  let eval operator :=
    evaluator.evalInfixExpression operator
      (Some (object.Integer p a)) (Some (object.Integer q b)) s in
  let integer v :=
    evaluator.Ok (Some (object.Integer (evaluator.next s) v)) (evaluator.bump s) in
  let boolean v := evaluator.Ok (Some (evaluator.nativeBoolToBooleanObject v)) s in
  let wraps exact v :=
    object.int64 v /\ ((v - exact) mod object.two64 = 0)%Z /\
    (object.int64 exact -> v = exact) in
  (exists v, eval "+" = integer v /\ wraps (a + b)%Z v) /\
  (exists v, eval "-" = integer v /\ wraps (a - b)%Z v) /\
  (exists v, eval "*" = integer v /\ wraps (a * b)%Z v) /\
  (b = 0%Z -> eval "/" = evaluator.Panic evaluator.divideByZero) /\
  (b <> 0%Z ->
   eval "/" = integer (if decide (a = (- 9223372036854775808)%Z /\ b = (-1)%Z)
                       then (- 9223372036854775808)%Z else Z.quot a b) /\
   (~ (a = (- 9223372036854775808)%Z /\ b = (-1)%Z) -> object.int64 (Z.quot a b))) /\
  eval "<" = boolean (a <? b)%Z /\
  eval ">" = boolean (b <? a)%Z /\
  eval "==" = boolean (a =? b)%Z /\
  eval "!=" = boolean (negb (a =? b)%Z) /\
  (forall operator,
     operator ∉ ["+"; "-"; "*"; "/"; "<"; ">"; "=="; "!="] ->
     eval operator =
       evaluator.Ok (Some (object.Error (evaluator.next s)
                             ("unknown operator: INTEGER " ++ operator ++ " INTEGER")))
         (evaluator.bump s)).
Proof.
  intros Ha Hb. cbv zeta.
  assert (forall exact, object.int64 (object.wrap64 exact) /\
            ((object.wrap64 exact - exact) mod object.two64 = 0)%Z /\
            (object.int64 exact -> object.wrap64 exact = exact)) as Hw.
  { intros exact. split; [apply wrap64_int64 | split; [apply wrap64_congruent |]].
    apply wrap64_exact. }
  repeat apply conj.
  - eexists. split; [reflexivity | apply Hw].
  - eexists. split; [reflexivity | apply Hw].
  - eexists. split; [reflexivity | apply Hw].
  - intros ->. reflexivity.
  - intros Hb0. split; [| intros Hmin; apply quot_int64; assumption].
    rewrite evalInfixExpression_Integer. unfold evaluator.evalIntegerInfixExpression.
    cbn [String.eqb Ascii.eqb Bool.eqb].
    destruct (Z.eqb_spec b 0) as [| _]; [contradiction |].
    unfold evaluator.newInteger, evaluator.alloc, mbind, evaluator.M_bind, mret,
      evaluator.M_ret, evaluator.bump. cbn [evaluator.next evaluator.frames].
    destruct (decide (a = (- 9223372036854775808)%Z /\ b = (-1)%Z)) as [[-> ->] | Hmin].
    + reflexivity.
    + rewrite wrap64_exact; [reflexivity |]. apply quot_int64; assumption.
  - reflexivity.
  - rewrite evalInfixExpression_Integer. unfold evaluator.evalIntegerInfixExpression.
    cbn [String.eqb Ascii.eqb Bool.eqb]. rewrite Z.gtb_ltb. reflexivity.
  - reflexivity.
  - reflexivity.
  - intros operator Hop. rewrite evalInfixExpression_Integer.
    unfold evaluator.evalIntegerInfixExpression.
    rewrite !elem_of_cons, elem_of_nil in Hop.
    repeat match goal with
    | |- context [String.eqb operator ?lit] =>
        destruct (String.eqb_spec operator lit) as [-> | _];
          [exfalso; apply Hop; repeat (first [left; reflexivity | right]) |]
    end.
    reflexivity.
Qed.

(** X1 at the operands 2^63 - 1 and 1: the sum wraps around to -2^63; and
    at -2^63 and -1: the quotient is -2^63. *)
Lemma evalIntegerInfixExpression_arithmetic_witness :
  evaluator.evalInfixExpression "+"
    (Some (object.Integer 4 9223372036854775807)) (Some (object.Integer 5 1))
    evaluator.rootState
  = evaluator.Ok (Some (object.Integer 4 (- 9223372036854775808)))
      (evaluator.bump evaluator.rootState) /\
  evaluator.evalInfixExpression "/"
    (Some (object.Integer 4 (- 9223372036854775808))) (Some (object.Integer 5 (-1)))
    evaluator.rootState
  = evaluator.Ok (Some (object.Integer 4 (- 9223372036854775808)))
      (evaluator.bump evaluator.rootState).
Proof.
  split.
  - destruct (evalIntegerInfixExpression_arithmetic 4 5 9223372036854775807 1
                evaluator.rootState ltac:(unfold object.int64; lia)
                ltac:(unfold object.int64; lia)) as ((v & Hv & _ & Hmod & _) & _).
    rewrite Hv. f_equal. f_equal. f_equal.
    injection Hv as Hv. rewrite <- Hv. reflexivity.
  - destruct (evalIntegerInfixExpression_arithmetic 4 5 (- 9223372036854775808) (-1)
                evaluator.rootState ltac:(unfold object.int64; lia)
                ltac:(unfold object.int64; lia)) as (_ & _ & _ & _ & Hq & _).
    destruct (Hq ltac:(lia)) as [-> _]. reflexivity.
Defined.

(** X2: the prefix [-] on an Integer yields a new Integer that fits an
    [int64]: the exact negation, the most negative number apart, which
    negates to itself; applied twice it gives the number back. *)
Theorem evalMinusPrefixOperatorExpression_involution (p : nat) (v : Z) (s : evaluator.State) :
  object.int64 v ->
  exists w,
    evaluator.evalPrefixExpression "-" (Some (object.Integer p v)) s
      = evaluator.Ok (Some (object.Integer (evaluator.next s) w)) (evaluator.bump s) /\
    object.int64 w /\
    (v <> (- 9223372036854775808)%Z -> w = (- v)%Z) /\
    (w = v <-> v = 0%Z \/ v = (- 9223372036854775808)%Z) /\
    evaluator.evalPrefixExpression "-"
      (Some (object.Integer (evaluator.next s) w)) (evaluator.bump s)
      = evaluator.Ok (Some (object.Integer (S (evaluator.next s)) v))
          (evaluator.bump (evaluator.bump s)).
Proof.
  intros Hv. exists (object.wrap64 (- v)).
  assert (object.wrap64 (- v) =
          if decide (v = (- 9223372036854775808)%Z) then v else (- v)%Z) as Hw.
  { destruct (decide (v = (- 9223372036854775808)%Z)) as [-> | Hne]; [reflexivity |].
    apply wrap64_exact. unfold object.int64 in *. lia. }
  split; [reflexivity |]. split; [apply wrap64_int64 |].
  split; [intros Hne; rewrite Hw, decide_False by exact Hne; reflexivity |].
  split.
  - rewrite Hw. destruct (decide (v = (- 9223372036854775808)%Z)); lia.
  - assert (object.wrap64 (- object.wrap64 (- v)) = v) as Hvv.
    { rewrite Hw. destruct (decide (v = (- 9223372036854775808)%Z)) as [-> | Hne];
        [reflexivity |].
      rewrite Z.opp_involutive. apply wrap64_exact, Hv. }
    unfold evaluator.evalPrefixExpression. cbn [String.eqb Ascii.eqb Bool.eqb].
    unfold evaluator.evalMinusPrefixOperatorExpression, evaluator.typeOf, evaluator.alloc,
      mbind, evaluator.M_bind, mret, evaluator.M_ret, evaluator.bump.
    cbn [object.Type' String.eqb Ascii.eqb Bool.eqb negb evaluator.next evaluator.frames
         object.INTEGER_OBJ].
    rewrite Hvv. reflexivity.
Qed.

(** X2 at the most negative number and at 5. *)
Lemma evalMinusPrefixOperatorExpression_involution_witness :
  evaluator.evalPrefixExpression "-" (Some (object.Integer 4 (- 9223372036854775808)))
    evaluator.rootState
  = evaluator.Ok (Some (object.Integer 4 (- 9223372036854775808)))
      (evaluator.bump evaluator.rootState) /\
  evaluator.evalPrefixExpression "-" (Some (object.Integer 4 5)) evaluator.rootState
  = evaluator.Ok (Some (object.Integer 4 (-5))) (evaluator.bump evaluator.rootState).
Proof.
  split.
  - destruct (evalMinusPrefixOperatorExpression_involution 4 (- 9223372036854775808)
                evaluator.rootState ltac:(unfold object.int64; lia))
      as (w & -> & _ & _ & [_ Hw] & _).
    rewrite Hw by (right; reflexivity). reflexivity.
  - destruct (evalMinusPrefixOperatorExpression_involution 4 5
                evaluator.rootState ltac:(unfold object.int64; lia))
      as (w & -> & _ & Hw & _).
    rewrite Hw by lia. reflexivity.
Defined.

Section Truthiness.

Import object evaluator.

Lemma evalBangOperatorExpression_isTruthy r :
  evalBangOperatorExpression r = nativeBoolToBooleanObject (negb (isTruthy r)).
Proof.
  unfold evalBangOperatorExpression, isTruthy.
  destruct r as [[p v | p v | p | p v | p v | p ps body e | p v | p fn | p els | p m] |];
    try reflexivity.
  - destruct p as [| [| [| p]]]; reflexivity.
  - destruct p as [| p]; reflexivity.
Qed.

Lemma isTruthy_false r :
  isTruthy r = false <-> same r (Some NULL) = true \/ same r (Some FALSE) = true.
Proof.
  unfold isTruthy.
  destruct (same r (Some NULL)) eqn:HN; [tauto |].
  destruct (same r (Some TRUE)) eqn:HT.
  - split; [discriminate | intros [? | HF]; [discriminate |]].
    destruct r as [[] |]; cbn in HT, HF; try discriminate.
    apply Nat.eqb_eq in HT, HF. congruence.
  - destruct (same r (Some FALSE)); [tauto |]. split; [discriminate | intros [|]; discriminate].
Qed.

End Truthiness.

(** X3: [!] negates the truthiness that [if] tests: [!v] is [TRUE] when
    [v] is not truthy and [FALSE] otherwise, so [!!v] is the Boolean of the
    truthiness of [v].  Only [NULL] and [FALSE] are not truthy: every
    Integer (0 included) and every String (the empty one included) is
    truthy, and so is nil.  An [if] whose condition is not an Error
    evaluates its consequence exactly when the condition is truthy, and its
    alternative, or [NULL] when there is none, otherwise. *)
Theorem evalBangOperatorExpression_truthiness :
  (forall r, evaluator.evalBangOperatorExpression r
             = evaluator.nativeBoolToBooleanObject (negb (evaluator.isTruthy r))) /\
  (forall r, evaluator.evalBangOperatorExpression
               (Some (evaluator.evalBangOperatorExpression r))
             = evaluator.nativeBoolToBooleanObject (evaluator.isTruthy r)) /\
  (forall r, evaluator.isTruthy r = false <->
             object.same r (Some evaluator.NULL) = true \/
             object.same r (Some evaluator.FALSE) = true) /\
  (forall p v, evaluator.isTruthy (Some (object.Integer p v)) = true) /\
  (forall p v, evaluator.isTruthy (Some (object.String p v)) = true) /\
  evaluator.isTruthy None = true /\
  (forall Sprintf0 builtins callBuiltin rangeOrder fuel c conseq alt env s cv s1,
     let Eval := evaluator.Eval Sprintf0 builtins callBuiltin rangeOrder in
     Eval fuel (ast.exprNode c) env s = evaluator.Ok cv s1 ->
     evaluator.isError cv = false ->
     Eval (S fuel) (ast.Expr (ast.IfExpression c conseq alt)) env s =
       if evaluator.isTruthy cv then Eval fuel (ast.BlockStatement conseq) env s1
       else match alt with
            | Some a => Eval fuel (ast.BlockStatement a) env s1
            | None => evaluator.Ok (Some evaluator.NULL) s1
            end).
Proof.
  split; [exact evalBangOperatorExpression_isTruthy |].
  split.
  { intros r. rewrite !evalBangOperatorExpression_isTruthy.
    destruct (evaluator.isTruthy r); reflexivity. }
  split; [exact isTruthy_false |].
  repeat split.
  intros Sprintf0 builtins callBuiltin rangeOrder fuel c conseq alt env s cv s1 Eval Hc He.
  subst Eval. cbn [evaluator.Eval evaluator.EvalNode]. unfold evaluator.evalIfExpression.
  rewrite (bind_Ok _ _ _ _ _ Hc), He.
  destruct (evaluator.isTruthy cv); [reflexivity |]. destruct alt; reflexivity.
Qed.

(** ** Lists of expressions *)

Section Expressions.

Import evaluator.

Variable ev : ast.Node -> nat -> M (option object.Object).

Lemma evalExpressions_loop_evaluated env pre s vals s1 :
  evaluated ev env pre s vals s1 ->
  forall rest result,
    evalExpressions_loop ev (pre ++ rest) env result s =
    evalExpressions_loop ev rest env (result ++ vals)%list s1.
Proof.
  induction 1 as [s | e pre s val s1 vals s2 Hev Hval Hrest IH]; intros rest result.
  - rewrite app_nil_r. reflexivity.
  - cbn [app evalExpressions_loop]. rewrite (bind_Ok _ _ _ _ _ Hev), Hval, IH.
    rewrite <- app_assoc. reflexivity.
Qed.

Lemma evaluated_length env exps s vals s1 :
  evaluated ev env exps s vals s1 ->
  length vals = length exps /\ Forall (fun v => isError v = false) vals.
Proof.
  induction 1 as [s | e pre s val s1 vals s2 Hev Hval Hrest [IH1 IH2]].
  - split; [reflexivity | constructor].
  - split; [cbn; f_equal; exact IH1 | constructor; assumption].
Qed.

Lemma evalExpressions_loop_inv env exps : forall result s r s1,
  evalExpressions_loop ev exps env result s = Ok r s1 ->
  (exists vals, evaluated ev env exps s vals s1 /\ r = (result ++ vals)%list) \/
  (exists pre e post vals s' err,
     exps = (pre ++ e :: post)%list /\ evaluated ev env pre s vals s' /\
     ev (ast.exprNode e) env s' = Ok err s1 /\ isError err = true /\ r = [err]).
Proof.
  induction exps as [| e exps IH]; intros result s r s1 H; cbn [evalExpressions_loop] in H.
  - injection H as <- <-. left. exists []. rewrite app_nil_r. split; [constructor | reflexivity].
  - apply bind_Ok_inv in H as (val & s2 & Hev & H).
    destruct (isError val) eqn:Hval.
    + injection H as <- <-. right. exists [], e, exps, [], s, val.
      repeat split; try assumption. constructor.
    + destruct (IH _ _ _ _ H) as [(vals & Hvals & ->) | (pre & e' & post & vals & s' & err & -> & Hpre & He' & Herr & ->)].
      * left. exists (val :: vals). split; [econstructor; eassumption |].
        rewrite <- app_assoc. reflexivity.
      * right. exists (e :: pre), e', post, (val :: vals), s', err.
        repeat split; try assumption. econstructor; eassumption.
Qed.

Lemma evalExpressions_evaluated env exps s vals s1 :
  evaluated ev env exps s vals s1 -> evalExpressions ev exps env s = Ok vals s1.
Proof.
  intros H. unfold evalExpressions.
  rewrite <- (app_nil_r exps), (evalExpressions_loop_evaluated env exps s vals s1 H).
  reflexivity.
Qed.

Lemma evalExpressions_first_error env pre e post s vals s1 err s2 :
  evaluated ev env pre s vals s1 ->
  ev (ast.exprNode e) env s1 = Ok err s2 -> isError err = true ->
  evalExpressions ev (pre ++ e :: post) env s = Ok [err] s2.
Proof.
  intros Hpre He Herr. unfold evalExpressions.
  rewrite (evalExpressions_loop_evaluated env pre s vals s1 Hpre).
  cbn [evalExpressions_loop]. rewrite (bind_Ok _ _ _ _ _ He), Herr. reflexivity.
Qed.

End Expressions.

(** X4: [evalExpressions] evaluates the expressions from left to right.
    When none evaluates to an Error the result lists their values, one for
    each expression; at the first Error the later expressions are not
    evaluated and the result is the list of that Error alone.  Every
    result of the function is of one of these two forms, and an array
    literal whose elements evaluate without Error is a new Array of their
    values. *)
Theorem evalExpressions_left_to_right :
  (forall ev env exps s vals s1,
     evaluator.evaluated ev env exps s vals s1 ->
     evaluator.evalExpressions ev exps env s = evaluator.Ok vals s1 /\
     length vals = length exps /\
     Forall (fun v => evaluator.isError v = false) vals) /\
  (forall ev env pre e post s vals s1 err s2,
     evaluator.evaluated ev env pre s vals s1 ->
     ev (ast.exprNode e) env s1 = evaluator.Ok err s2 ->
     evaluator.isError err = true ->
     evaluator.evalExpressions ev (pre ++ e :: post) env s = evaluator.Ok [err] s2) /\
  (forall ev env exps s r s1,
     evaluator.evalExpressions ev exps env s = evaluator.Ok r s1 ->
     evaluator.evaluated ev env exps s r s1 \/
     exists pre e post vals s' err,
       exps = (pre ++ e :: post)%list /\ evaluator.evaluated ev env pre s vals s' /\
       ev (ast.exprNode e) env s' = evaluator.Ok err s1 /\
       evaluator.isError err = true /\ r = [err]) /\
  (forall Sprintf0 builtins callBuiltin rangeOrder fuel env els s vals s1,
     evaluator.evaluated (evaluator.Eval Sprintf0 builtins callBuiltin rangeOrder fuel)
       env els s vals s1 ->
     evaluator.Eval Sprintf0 builtins callBuiltin rangeOrder (S fuel)
       (ast.Expr (ast.ArrayLiteral els)) env s
     = evaluator.Ok (Some (object.Array (evaluator.next s1) vals)) (evaluator.bump s1)).
Proof.
  split; [| split; [| split]].
  - intros ev env exps s vals s1 H. split; [apply evalExpressions_evaluated, H |].
    exact (evaluated_length ev env exps s vals s1 H).
  - intros ev env pre e post s vals s1 err s2 Hpre He Herr.
    exact (evalExpressions_first_error ev env pre e post s vals s1 err s2 Hpre He Herr).
  - intros ev env exps s r s1 H.
    destruct (evalExpressions_loop_inv ev env exps [] s r s1 H) as [(vals & Hv & ->) | Herr];
      [left; exact Hv | right; exact Herr].
  - intros Sprintf0 builtins callBuiltin rangeOrder fuel env els s vals s1 H.
    cbn [evaluator.Eval evaluator.EvalNode].
    rewrite (bind_Ok _ _ _ _ _ (evalExpressions_evaluated _ _ _ _ _ _ H)).
    destruct (evaluated_length _ _ _ _ _ _ H) as [_ Hne].
    destruct vals as [| a [| b vals]]; try reflexivity.
    inversion Hne as [| ? ? Ha _]; subst. rewrite Ha. reflexivity.
Qed.

Section HashPrefix.

Import evaluator.

Variable ev : ast.Node -> nat -> M (option object.Object).

Lemma evalHashLiteral_loop_prefix env pre s inserted s1 :
  visits ev env pre s inserted s1 ->
  forall rest pairs,
    evalHashLiteral_loop ev (pre ++ rest) env pairs s =
    evalHashLiteral_loop ev rest env (insertAll inserted pairs) s1.
Proof.
  induction 1 as [s | keyNode valueNode pre s key s1 hashed val s2 inserted s3
                       Hk Hke Hh Hv Hve Hrest IH]; intros rest pairs.
  - reflexivity.
  - cbn [app evalHashLiteral_loop]. rewrite (bind_Ok _ _ _ _ _ Hk), Hke.
    cbn [mbind option_bind]. rewrite Hh, (bind_Ok _ _ _ _ _ Hv), Hve. apply IH.
Qed.

End HashPrefix.

(** X5: an Error is handed on as it is.  When an operand of a node
    evaluates to an Error, the node evaluates to that same Error object in
    the state the operand left: the operands after it are not evaluated,
    no operator or function is applied, [return] does not wrap it and
    [let] binds nothing. *)
Theorem Eval_hands_on_Errors
    (Sprintf0 : string -> string) (builtins : gmap string (nat * nat))
    (callBuiltin : nat -> list (option object.Object) -> evaluator.M (option object.Object))
    (rangeOrder : evaluator.State ->
       list (option ast.Expression * option ast.Expression) ->
       list (option ast.Expression * option ast.Expression))
    (fuel env : nat) :
  let Eval := evaluator.Eval Sprintf0 builtins callBuiltin rangeOrder in
  let fails e s err s1 :=
    Eval fuel (ast.exprNode e) env s = evaluator.Ok err s1 /\ evaluator.isError err = true in
  let yields e s v s1 :=
    Eval fuel (ast.exprNode e) env s = evaluator.Ok v s1 /\ evaluator.isError v = false in
  (forall operator r s err s1,
     fails r s err s1 ->
     Eval (S fuel) (ast.Expr (ast.PrefixExpression operator r)) env s = evaluator.Ok err s1) /\
  (forall l operator r s err s1,
     fails l s err s1 ->
     Eval (S fuel) (ast.Expr (ast.InfixExpression l operator r)) env s = evaluator.Ok err s1) /\
  (forall l operator r s lv s1 err s2,
     yields l s lv s1 -> fails r s1 err s2 ->
     Eval (S fuel) (ast.Expr (ast.InfixExpression l operator r)) env s = evaluator.Ok err s2) /\
  (forall l i s err s1,
     fails l s err s1 ->
     Eval (S fuel) (ast.Expr (ast.IndexExpression l i)) env s = evaluator.Ok err s1) /\
  (forall l i s lv s1 err s2,
     yields l s lv s1 -> fails i s1 err s2 ->
     Eval (S fuel) (ast.Expr (ast.IndexExpression l i)) env s = evaluator.Ok err s2) /\
  (forall c conseq alt s err s1,
     fails c s err s1 ->
     Eval (S fuel) (ast.Expr (ast.IfExpression c conseq alt)) env s = evaluator.Ok err s1) /\
  (forall e s err s1,
     fails e s err s1 ->
     Eval (S fuel) (ast.Stmt (ast.ReturnStatement e)) env s = evaluator.Ok err s1) /\
  (forall name e s err s1,
     fails e s err s1 ->
     Eval (S fuel) (ast.Stmt (ast.LetStatement name e)) env s = evaluator.Ok err s1) /\
  (forall e s err s1,
     fails e s err s1 ->
     Eval (S fuel) (ast.Stmt (ast.ExpressionStatement e)) env s = evaluator.Ok err s1) /\
  (forall f arguments s err s1,
     fails f s err s1 ->
     Eval (S fuel) (ast.Expr (ast.CallExpression f arguments)) env s = evaluator.Ok err s1) /\
  (forall f pre a post s fv s1 vals s2 err s3,
     yields f s fv s1 ->
     evaluator.evaluated (Eval fuel) env pre s1 vals s2 ->
     fails a s2 err s3 ->
     Eval (S fuel) (ast.Expr (ast.CallExpression f (pre ++ a :: post)%list)) env s
     = evaluator.Ok err s3) /\
  (forall pre a post s vals s1 err s2,
     evaluator.evaluated (Eval fuel) env pre s vals s1 ->
     fails a s1 err s2 ->
     Eval (S fuel) (ast.Expr (ast.ArrayLiteral (pre ++ a :: post)%list)) env s
     = evaluator.Ok err s2) /\
  (forall Pairs pre k v post s inserted s1 err s2,
     rangeOrder s Pairs = (pre ++ (k, v) :: post)%list ->
     evaluator.visits (Eval fuel) env pre s inserted s1 ->
     fails k s1 err s2 ->
     Eval (S fuel) (ast.Expr (ast.HashLiteral Pairs)) env s = evaluator.Ok err s2) /\
  (forall Pairs pre k v post s inserted s1 key hashed s2 err s3,
     rangeOrder s Pairs = (pre ++ (k, v) :: post)%list ->
     evaluator.visits (Eval fuel) env pre s inserted s1 ->
     yields k s1 (Some key) s2 -> object.hashKey key = Some hashed ->
     fails v s2 err s3 ->
     Eval (S fuel) (ast.Expr (ast.HashLiteral Pairs)) env s = evaluator.Ok err s3).
Proof.
  cbv zeta.
  repeat apply conj.
  - intros operator r s err s1 [H He]. cbn [evaluator.Eval evaluator.EvalNode].
    rewrite (bind_Ok _ _ _ _ _ H), He. reflexivity.
  - intros l operator r s err s1 [H He]. cbn [evaluator.Eval evaluator.EvalNode].
    rewrite (bind_Ok _ _ _ _ _ H), He. reflexivity.
  - intros l operator r s lv s1 err s2 [Hl Hlv] [H He]. cbn [evaluator.Eval evaluator.EvalNode].
    rewrite (bind_Ok _ _ _ _ _ Hl), Hlv, (bind_Ok _ _ _ _ _ H), He. reflexivity.
  - intros l i s err s1 [H He]. cbn [evaluator.Eval evaluator.EvalNode].
    rewrite (bind_Ok _ _ _ _ _ H), He. reflexivity.
  - intros l i s lv s1 err s2 [Hl Hlv] [H He]. cbn [evaluator.Eval evaluator.EvalNode].
    rewrite (bind_Ok _ _ _ _ _ Hl), Hlv, (bind_Ok _ _ _ _ _ H), He. reflexivity.
  - intros c conseq alt s err s1 [H He]. cbn [evaluator.Eval evaluator.EvalNode].
    unfold evaluator.evalIfExpression. rewrite (bind_Ok _ _ _ _ _ H), He. reflexivity.
  - intros e s err s1 [H He]. cbn [evaluator.Eval evaluator.EvalNode].
    rewrite (bind_Ok _ _ _ _ _ H), He. reflexivity.
  - intros name e s err s1 [H He]. cbn [evaluator.Eval evaluator.EvalNode].
    rewrite (bind_Ok _ _ _ _ _ H), He. reflexivity.
  - intros e s err s1 [H He]. cbn [evaluator.Eval evaluator.EvalNode]. exact H.
  - intros f arguments s err s1 [H He]. cbn [evaluator.Eval evaluator.EvalNode].
    rewrite (bind_Ok _ _ _ _ _ H), He. reflexivity.
  - intros f pre a post s fv s1 vals s2 err s3 [Hf Hfv] Hpre [H He].
    cbn [evaluator.Eval evaluator.EvalNode].
    rewrite (bind_Ok _ _ _ _ _ Hf), Hfv.
    rewrite (bind_Ok _ _ _ _ _
               (evalExpressions_first_error _ _ _ _ post _ _ _ _ _ Hpre H He)).
    rewrite He. reflexivity.
  - intros pre a post s vals s1 err s2 Hpre [H He].
    cbn [evaluator.Eval evaluator.EvalNode].
    rewrite (bind_Ok _ _ _ _ _
               (evalExpressions_first_error _ _ _ _ post _ _ _ _ _ Hpre H He)).
    rewrite He. reflexivity.
  - intros Pairs pre k v post s inserted s1 err s2 Horder Hpre [H He].
    cbn [evaluator.Eval evaluator.EvalNode]. unfold evaluator.evalHashLiteral.
    rewrite (bind_Ok (evaluator.visitOrder rangeOrder Pairs) _ s (rangeOrder s Pairs) s eq_refl).
    rewrite Horder.
    erewrite bind_Ok; cycle 1.
    { rewrite (evalHashLiteral_loop_prefix _ _ _ _ _ _ Hpre).
      cbn [evaluator.evalHashLiteral_loop].
      rewrite (bind_Ok _ _ _ _ _ H), He. reflexivity. }
    reflexivity.
  - intros Pairs pre k v post s inserted s1 key hashed s2 err s3 Horder Hpre [Hk Hkey] Hh [H He].
    cbn [evaluator.Eval evaluator.EvalNode]. unfold evaluator.evalHashLiteral.
    rewrite (bind_Ok (evaluator.visitOrder rangeOrder Pairs) _ s (rangeOrder s Pairs) s eq_refl).
    rewrite Horder.
    erewrite bind_Ok; cycle 1.
    { rewrite (evalHashLiteral_loop_prefix _ _ _ _ _ _ Hpre).
      cbn [evaluator.evalHashLiteral_loop].
      rewrite (bind_Ok _ _ _ _ _ Hk), Hkey. cbn [mbind option_bind]. rewrite Hh.
      rewrite (bind_Ok _ _ _ _ _ H), He. reflexivity. }
    reflexivity.
Qed.

(** X6: the statements of a block and of a program are evaluated in
    order, and an Error ends both: the statements after it are not
    evaluated and the Error itself is the result (it is never unwrapped).
    When no statement yields a [ReturnValue] or an Error, the result of a
    block and of a program is the result of the last statement, and nil
    when there is no statement at all. *)
Theorem evalBlockStatement_evalProgram_results
    (Sprintf0 : string -> string) (builtins : gmap string (nat * nat))
    (callBuiltin : nat -> list (option object.Object) -> evaluator.M (option object.Object))
    (rangeOrder : evaluator.State ->
       list (option ast.Expression * option ast.Expression) ->
       list (option ast.Expression * option ast.Expression))
    (fuel env : nat) :
  let Eval := evaluator.Eval Sprintf0 builtins callBuiltin rangeOrder in
  (forall pre statement post s s1 p msg s2,
     evaluator.passes (Eval fuel) env pre s s1 ->
     Eval fuel (ast.Stmt statement) env s1 = evaluator.Ok (Some (object.Error p msg)) s2 ->
     Eval (S fuel) (ast.BlockStatement (pre ++ statement :: post)) env s
       = evaluator.Ok (Some (object.Error p msg)) s2 /\
     Eval (S fuel) (ast.Program (pre ++ statement :: post)) env s
       = evaluator.Ok (Some (object.Error p msg)) s2) /\
  (forall pre statement s s1 result s2,
     evaluator.passes (Eval fuel) env pre s s1 ->
     Eval fuel (ast.Stmt statement) env s1 = evaluator.Ok result s2 ->
     evaluator.continues result = true ->
     Eval (S fuel) (ast.BlockStatement (pre ++ [statement])) env s = evaluator.Ok result s2 /\
     Eval (S fuel) (ast.Program (pre ++ [statement])) env s = evaluator.Ok result s2) /\
  (forall s,
     Eval (S fuel) (ast.BlockStatement []) env s = evaluator.Ok None s /\
     Eval (S fuel) (ast.Program []) env s = evaluator.Ok None s).
Proof.
  cbv zeta. split; [| split].
  - intros pre statement post s s1 p msg s2 Hp Hev.
    split; cbn [evaluator.Eval evaluator.EvalNode].
    + unfold evaluator.evalBlockStatement.
      destruct (evalBlockStatement_loop_passes _ _ _ _ _ Hp (statement :: post) None)
        as [result' ->].
      cbn [evaluator.evalBlockStatement_loop]. rewrite (bind_Ok _ _ _ _ _ Hev). reflexivity.
    + unfold evaluator.evalProgram.
      destruct (evalProgram_loop_passes _ _ _ _ _ Hp (statement :: post) None)
        as [result' ->].
      cbn [evaluator.evalProgram_loop]. rewrite (bind_Ok _ _ _ _ _ Hev). reflexivity.
  - intros pre statement s s1 result s2 Hp Hev Hc.
    split; cbn [evaluator.Eval evaluator.EvalNode].
    + unfold evaluator.evalBlockStatement.
      destruct (evalBlockStatement_loop_passes _ _ _ _ _ Hp [statement] None)
        as [result' ->].
      cbn [evaluator.evalBlockStatement_loop]. rewrite (bind_Ok _ _ _ _ _ Hev).
      destruct result as [[] |]; try discriminate Hc; reflexivity.
    + unfold evaluator.evalProgram.
      destruct (evalProgram_loop_passes _ _ _ _ _ Hp [statement] None)
        as [result' ->].
      cbn [evaluator.evalProgram_loop]. rewrite (bind_Ok _ _ _ _ _ Hev).
      destruct result as [[] |]; try discriminate Hc; reflexivity.
  - intros s. split; reflexivity.
Qed.

(** ** Hash keys *)

Section HashKeys.

Import object.

Lemma fnv64a_range s : (0 <= fnv64a s < two64)%Z.
Proof.
  unfold fnv64a.
  assert (forall l h, (0 <= h < two64)%Z ->
            (0 <= fold_left
                    (fun h b => (Z.lxor h (Z.of_nat (nat_of_ascii b)) * 1099511628211
                                 mod two64)%Z) l h < two64)%Z) as H.
  { induction l as [| b l IH]; intros h Hh; [exact Hh |].
    cbn [fold_left]. apply IH. apply Z.mod_pos_bound. reflexivity. }
  apply H. unfold two64. lia.
Qed.

Lemma int64_mod_inj v w :
  int64 v -> int64 w -> (v mod two64 = w mod two64)%Z -> v = w.
Proof.
  unfold int64, two64. intros Hv Hw H.
  rewrite (Z.mod_eq v), (Z.mod_eq w) in H by lia.
  assert (v / 18446744073709551616 = w / 18446744073709551616)%Z; [| lia].
  assert (-1 <= v / 18446744073709551616 < 1)%Z.
  { split; [apply Z.div_le_lower_bound | apply Z.div_lt_upper_bound]; lia. }
  assert (-1 <= w / 18446744073709551616 < 1)%Z.
  { split; [apply Z.div_le_lower_bound | apply Z.div_lt_upper_bound]; lia. }
  lia.
Qed.

End HashKeys.

(** X7: a hash key is made of the type and the content of an object,
    never of its identity.  Integers, Booleans and Strings have one, no
    other object has; it holds the type of the object and a value that
    fits 64 unsigned bits.  Two Integers within [int64] have the same key
    exactly when they are the same number, two Booleans when they are the
    same truth value; Strings of the same text have the same key, and
    objects of different types never share a key. *)
Theorem HashKey_of_content :
  (forall o, is_Some (object.hashKey o) <->
             object.Type' o = object.INTEGER_OBJ \/ object.Type' o = object.BOOLEAN_OBJ \/
             object.Type' o = object.STRING_OBJ) /\
  (forall o k, object.hashKey o = Some k ->
               fst k = object.Type' o /\ (0 <= snd k < object.two64)%Z) /\
  (forall p q v w,
     object.int64 v -> object.int64 w ->
     (object.hashKey (object.Integer p v) = object.hashKey (object.Integer q w) <-> v = w)) /\
  (forall p q a b,
     object.hashKey (object.Boolean p a) = object.hashKey (object.Boolean q b) <-> a = b) /\
  (forall p q v, object.hashKey (object.String p v) = object.hashKey (object.String q v)) /\
  (forall a b ka kb,
     object.hashKey a = Some ka -> object.hashKey b = Some kb ->
     object.Type' a <> object.Type' b -> ka <> kb).
Proof.
  repeat apply conj.
  - intros o. split.
    + intros [k Hk]. destruct o; cbn in Hk; try discriminate Hk; auto.
    + intros H. destruct o; cbn in *; eauto; destruct H as [H | [H | H]]; discriminate H.
  - intros o k H. destruct o; cbn in H; try discriminate H; injection H as <-; cbn.
    + split; [reflexivity |]. apply Z.mod_pos_bound. reflexivity.
    + split; [reflexivity |]. unfold object.two64. destruct Value; lia.
    + split; [reflexivity |]. apply fnv64a_range.
  - intros p q v w Hv Hw. cbn. split; [| intros ->; reflexivity].
    intros [= H]. exact (int64_mod_inj v w Hv Hw H).
  - intros p q a b. cbn. split; [| intros ->; reflexivity].
    destruct a, b; intros H; try reflexivity; discriminate H.
  - reflexivity.
  - intros a b ka kb Ha Hb Hne E. subst kb.
    destruct a; cbn in Ha; try discriminate Ha; injection Ha as <-;
      destruct b; cbn in Hb; try discriminate Hb; injection Hb as Hb;
      try discriminate Hb; apply Hne; reflexivity.
Qed.

(** X8: indexing a Hash with an index object (not nil) looks the key of the
    index up.  The result is the value stored under that key, whichever
    object was the key when the pair was stored, and [NULL], not an Error,
    when nothing is stored under it; an index object without a hash key is
    the Error [unusable as hash key: <type>].  For a hash literal this is
    the value of the pair that was visited last among those with the key of
    the index. *)
Theorem evalHashIndexExpression_lookup :
  (forall p Pairs index hk s,
     object.hashKey index = Some hk ->
     evaluator.evalIndexExpression (Some (object.Hash p Pairs)) (Some index) s =
       evaluator.Ok (match Pairs !! hk with
                     | Some pair0 => object.Value pair0
                     | None => Some evaluator.NULL
                     end) s) /\
  (forall p Pairs index s,
     object.hashKey index = None ->
     evaluator.evalIndexExpression (Some (object.Hash p Pairs)) (Some index) s =
       evaluator.Ok (Some (object.Error (evaluator.next s)
                             ("unusable as hash key: " ++ object.Type' index)))
         (evaluator.bump s)) /\
  (forall Sprintf0 builtins callBuiltin rangeOrder fuel env Pairs s inserted s1 index hk,
     let Eval := evaluator.Eval Sprintf0 builtins callBuiltin rangeOrder in
     evaluator.visits (Eval fuel) env (rangeOrder s Pairs) s inserted s1 ->
     object.hashKey index = Some hk ->
     exists hash,
       Eval (S fuel) (ast.Expr (ast.HashLiteral Pairs)) env s
         = evaluator.Ok (Some hash) (evaluator.bump s1) /\
       forall s2,
         evaluator.evalIndexExpression (Some hash) (Some index) s2 =
           evaluator.Ok (match evaluator.lastEntry hk inserted with
                         | Some pair0 => object.Value pair0
                         | None => Some evaluator.NULL
                         end) s2).
Proof.
  assert (forall p Pairs index hk s,
     object.hashKey index = Some hk ->
     evaluator.evalIndexExpression (Some (object.Hash p Pairs)) (Some index) s =
       evaluator.Ok (match Pairs !! hk with
                     | Some pair0 => object.Value pair0
                     | None => Some evaluator.NULL
                     end) s) as Hfound.
  { intros p Pairs index hk s Hk.
    unfold evaluator.evalIndexExpression, evaluator.evalHashIndexExpression, evaluator.typeOf.
    unfold mbind at 1 2, evaluator.M_bind, mret, evaluator.M_ret.
    cbn [object.Type' String.eqb Ascii.eqb Bool.eqb object.HASH_OBJ object.ARRAY_OBJ
         mbind option_bind].
    rewrite Hk. destruct (Pairs !! hk); reflexivity. }
  split; [exact Hfound | split].
  - intros p Pairs index s Hk.
    unfold evaluator.evalIndexExpression, evaluator.evalHashIndexExpression, evaluator.typeOf.
    unfold mbind at 1 2, evaluator.M_bind, mret, evaluator.M_ret.
    cbn [object.Type' String.eqb Ascii.eqb Bool.eqb object.HASH_OBJ object.ARRAY_OBJ
         mbind option_bind].
    rewrite Hk. reflexivity.
  - intros Sprintf0 builtins callBuiltin rangeOrder fuel env Pairs s inserted s1 index hk
      Eval Hv Hk. subst Eval.
    exists (object.Hash (evaluator.next s1) (evaluator.insertAll inserted ∅)). split.
    + cbn [evaluator.Eval evaluator.EvalNode]. unfold evaluator.evalHashLiteral.
      rewrite (bind_Ok (evaluator.visitOrder rangeOrder Pairs) _ s (rangeOrder s Pairs) s
                 eq_refl).
      rewrite (bind_Ok _ _ _ _ _ (evalHashLiteral_loop_visits _ _ _ _ _ _ Hv ∅)).
      reflexivity.
    + intros s2. rewrite (Hfound _ _ _ _ _ Hk), lookup_insertAll, lookup_empty.
      destruct (evaluator.lastEntry hk inserted); reflexivity.
Qed.

(** ** Environments *)

Section Environments.

Import object evaluator.

(** A change of the frame [e] is not seen from an older frame. *)
Lemma lookupChain_insert_older fs name e fr' :
  wfFrames fs ->
  forall e' r, lookupChain fs name e' r -> e' < e ->
  lookupChain (<[e := fr']> fs) name e' r.
Proof.
  intros Hwf e' r H.
  induction H as [e' fr v Hf Hs | e' fr o r Hf Hs Ho H IH | e' fr Hf Hs Ho]; intros Hlt.
  - eapply lookup_here; [rewrite lookup_insert_ne by lia; exact Hf | exact Hs].
  - eapply lookup_outer; [rewrite lookup_insert_ne by lia; exact Hf | exact Hs | exact Ho |].
    apply IH. destruct (Hwf e' fr o Hf Ho). lia.
  - eapply lookup_unbound; [rewrite lookup_insert_ne by lia; exact Hf | exact Hs | exact Ho].
Qed.

(** A frame written with the outer link it had keeps the frames well formed. *)
Lemma wfFrames_insert_same_outer fs e fr fr' :
  wfFrames fs -> fs !! e = Some fr -> outer fr' = outer fr ->
  wfFrames (<[e := fr']> fs).
Proof.
  intros Hwf Hfr Ho e0 fr0 o H0 Hout.
  destruct (decide (e = e0)) as [<- | Hne].
  - rewrite lookup_insert_eq in H0. injection H0 as <-. rewrite Ho in Hout.
    destruct (Hwf e fr o Hfr Hout) as [Hlt Hsome].
    split; [exact Hlt |]. rewrite lookup_insert_ne by lia. exact Hsome.
  - rewrite lookup_insert_ne in H0 by exact Hne.
    destruct (Hwf e0 fr0 o H0 Hout) as [Hlt Hsome].
    split; [exact Hlt |]. apply lookup_insert_is_Some'. right. exact Hsome.
Qed.

Lemma wfFrames_insert_fresh fs e fr' :
  wfFrames fs -> (forall e', is_Some (fs !! e') -> e' < e) ->
  (forall o, outer fr' = Some o -> is_Some (fs !! o)) ->
  wfFrames (<[e := fr']> fs).
Proof.
  intros Hwf Hfresh Ho e0 fr0 o H0 Hout.
  destruct (decide (e = e0)) as [<- | Hne].
  - rewrite lookup_insert_eq in H0. injection H0 as <-.
    pose proof (Ho o Hout) as Hsome. split; [apply Hfresh, Hsome |].
    apply lookup_insert_is_Some'. right. exact Hsome.
  - rewrite lookup_insert_ne in H0 by exact Hne.
    destruct (Hwf e0 fr0 o H0 Hout) as [Hlt Hsome].
    split; [exact Hlt |]. apply lookup_insert_is_Some'. right. exact Hsome.
Qed.

(** What [Get] returns is what the search of the chain finds. *)
Lemma Get_value name s e r :
  wfFrames (frames s) -> lookupChain (frames s) name e r -> Get e name s = Ok r s.
Proof.
  intros Hwf Hr.
  assert (is_Some (frames s !! e)) as He by (inversion Hr; eauto).
  destruct (Get_chain name s e Hwf He) as (r' & Hr' & ->).
  rewrite (lookupChain_functional _ _ _ _ _ Hr' Hr). reflexivity.
Qed.

Lemma Set'_frames e name val s fr :
  frames s !! e = Some fr ->
  Set' e name val s =
    Ok val {| next := next s;
              frames := <[e := {| store := <[name := val]> (store fr);
                                  outer := outer fr |}]> (frames s) |}.
Proof.
  intros Hfr. unfold Set', readFrame, writeFrame, mbind, M_bind, mret, M_ret.
  rewrite Hfr. reflexivity.
Qed.

End Environments.

(** X9: [Set] binds the name in the one frame it is called on.  In that
    frame the name is found with the value set, and the other names are
    found as before; from every older frame, the frames of its outer chain
    among them, every name is found as before; and the frames stay well
    formed. *)
Theorem Set_binds_in_one_frame
    (e : nat) (name : string) (val : option object.Object) (s : evaluator.State) :
  evaluator.wfFrames (evaluator.frames s) ->
  is_Some (evaluator.frames s !! e) ->
  exists s1,
    evaluator.Set' e name val s = evaluator.Ok val s1 /\
    evaluator.next s1 = evaluator.next s /\
    evaluator.wfFrames (evaluator.frames s1) /\
    evaluator.Get e name s1 = evaluator.Ok (Some val) s1 /\
    (forall name', name' <> name ->
       evaluator.value (evaluator.Get e name' s1) = evaluator.value (evaluator.Get e name' s)) /\
    (forall e' name', e' < e -> is_Some (evaluator.frames s !! e') ->
       evaluator.value (evaluator.Get e' name' s1) = evaluator.value (evaluator.Get e' name' s)).
Proof.
  intros Hwf [fr Hfr]. eexists. split; [apply Set'_frames, Hfr |].
  pose proof (wfFrames_insert_same_outer (evaluator.frames s) e fr
                {| object.store := <[name := val]> (object.store fr);
                   object.outer := object.outer fr |} Hwf Hfr eq_refl) as Hwf1.
  split; [reflexivity |]. split; [exact Hwf1 |]. split; [| split].
  - eapply Get_after_Set. apply Set'_frames, Hfr.
  - intros name' Hne.
    destruct (Get_chain name' s e Hwf (ex_intro _ fr Hfr)) as (r & Hr & ->).
    erewrite Get_value; [reflexivity | exact Hwf1 |]. cbn [evaluator.frames].
    inversion Hr as [e0 fr0 v Hf Hs | e0 fr0 o r0 Hf Hs Ho H | e0 fr0 Hf Hs Ho]; subst;
      rewrite Hfr in Hf; injection Hf as <-.
    + eapply evaluator.lookup_here; [apply lookup_insert_eq |]. cbn.
      rewrite lookup_insert_ne by congruence. exact Hs.
    + eapply evaluator.lookup_outer; [apply lookup_insert_eq | | exact Ho |].
      * cbn. rewrite lookup_insert_ne by congruence. exact Hs.
      * apply lookupChain_insert_older; [exact Hwf | exact H |].
        destruct (Hwf e fr o Hfr Ho). lia.
    + eapply evaluator.lookup_unbound; [apply lookup_insert_eq | | exact Ho].
      cbn. rewrite lookup_insert_ne by congruence. exact Hs.
  - intros e' name' Hlt He'.
    destruct (Get_chain name' s e' Hwf He') as (r & Hr & ->).
    erewrite Get_value; [reflexivity | exact Hwf1 |]. cbn [evaluator.frames].
    apply lookupChain_insert_older; assumption.
Qed.

(** X9 in a frame (5) enclosed in the frame (3) that binds [x]: after
    [Set] of [x] in frame 5, [x] is the new value there and still the old
    one in frame 3. *)
Lemma Set_binds_in_one_frame_witness :
  let old := Some (object.Integer 4 7) in
  let new := Some (object.Integer 6 8) in
  let s := {| evaluator.next := 7;
              evaluator.frames :=
                {[ 3 := {| object.store := {[ "x" := old ]}; object.outer := None |};
                   5 := {| object.store := ∅; object.outer := Some 3 |} ]} |} in
  exists s1,
    evaluator.Set' 5 "x" new s = evaluator.Ok new s1 /\
    evaluator.value (evaluator.Get 5 "x" s1) = Some (Some new) /\
    evaluator.value (evaluator.Get 3 "x" s1) = Some (Some old).
Proof.
  cbv zeta.
  set (s := {| evaluator.next := 7; evaluator.frames := _ |}).
  assert (evaluator.wfFrames (evaluator.frames s)) as Hwf.
  { intros e fr o Hfr Ho. subst s. cbn in Hfr.
    apply lookup_insert_Some in Hfr as [[<- <-] | [_ Hfr]]; [discriminate |].
    apply lookup_singleton_Some in Hfr as [<- <-]. injection Ho as <-.
    split; [lia | eexists; reflexivity]. }
  destruct (Set_binds_in_one_frame 5 "x" (Some (object.Integer 6 8)) s Hwf
              ltac:(eexists; reflexivity)) as (s1 & HS & _ & _ & HG & _ & Hold).
  exists s1. split; [exact HS |]. split; [rewrite HG; reflexivity |].
  rewrite (Hold 3 "x" ltac:(lia) ltac:(eexists; reflexivity)). reflexivity.
Defined.

Section Parameters.

Import object evaluator.

Lemma bound_lookup_notin params : forall args store0 name,
  name ∉ params -> bound params args store0 !! name = store0 !! name.
Proof.
  induction params as [| param params IH]; intros args store0 name Hn; [reflexivity |].
  destruct args as [| arg args]; [reflexivity |]. cbn [bound].
  apply not_elem_of_cons in Hn as [Hne Hn].
  rewrite IH by exact Hn. apply lookup_insert_ne. congruence.
Qed.

Lemma bound_lookup_last params : forall args store0 i name,
  length params <= length args ->
  params !! i = Some name ->
  (forall j, i < j -> params !! j <> Some name) ->
  exists arg, args !! i = Some arg /\ bound params args store0 !! name = Some arg.
Proof.
  induction params as [| param params IH]; intros args store0 i name Hlen Hi Hlast;
    [discriminate Hi |].
  destruct args as [| arg args]; [cbn in Hlen; lia |]. cbn [bound].
  destruct i as [| i].
  - injection Hi as ->. exists arg. split; [reflexivity |].
    rewrite bound_lookup_notin; [apply lookup_insert_eq |].
    intros Hin. apply list_elem_of_lookup in Hin as [j Hj].
    apply (Hlast (S j)); [lia | exact Hj].
  - destruct (IH args (<[param := arg]> store0) i name) as (a & Ha & Hb);
      [cbn in Hlen; lia | exact Hi | intros j Hj; apply (Hlast (S j)); lia |].
    exists a. split; [exact Ha | exact Hb].
Qed.

Lemma bindParameters_bound env params : forall paramIdx args s fr,
  frames s !! env = Some fr ->
  paramIdx + length params <= length args ->
  bindParameters env params paramIdx args s =
    Ok tt {| next := next s;
             frames := <[env := {| store := bound params (drop paramIdx args) (store fr);
                                   outer := outer fr |}]> (frames s) |}.
Proof.
  induction params as [| param params IH]; intros paramIdx args s fr Hfr Hlen.
  - cbn [bindParameters bound]. destruct s as [n fs], fr as [st o]. cbn in *.
    rewrite insert_id by exact Hfr. reflexivity.
  - cbn [length] in Hlen. cbn [bindParameters].
    destruct (lookup_lt_is_Some_2 args paramIdx) as [arg Harg]; [lia |].
    rewrite Harg, (drop_S _ _ _ Harg). cbn [bound].
    rewrite (bind_Ok _ _ _ _ _ (Set'_frames env param arg s fr Hfr)).
    erewrite IH; [| cbn; apply lookup_insert_eq | lia].
    cbn. rewrite insert_insert_eq. reflexivity.
Qed.

Lemma NewEnclosedEnvironment_frames o s :
  NewEnclosedEnvironment o s =
    Ok (next s) {| next := S (next s);
                   frames := <[next s := {| store := ∅; outer := Some o |}]> (frames s) |}.
Proof.
  unfold NewEnclosedEnvironment, NewEnvironment, alloc, readFrame, writeFrame, mbind, M_bind,
    mret, M_ret. cbn. rewrite lookup_insert_eq. cbn. rewrite insert_insert_eq. reflexivity.
Qed.

End Parameters.

(** X10: called with at least as many arguments as it has parameters,
    [extendFunctionEnv] makes one new frame, enclosed in the environment
    of the function, and binds in it every parameter to the argument at
    its position; the arguments beyond the parameters are ignored.  In the
    new environment a parameter is found with its argument (the last one,
    for a name that occurs twice), and every other name is found as in the
    environment of the function. *)
Theorem extendFunctionEnv_binds
    (params : list string) (fnEnv : nat) (args : list (option object.Object))
    (s : evaluator.State) :
  length params <= length args ->
  evaluator.wfState s ->
  is_Some (evaluator.frames s !! fnEnv) ->
  let env := evaluator.next s in
  let s1 :=
    {| evaluator.next := S (evaluator.next s);
       evaluator.frames :=
         <[env := {| object.store := evaluator.bound params args ∅;
                     object.outer := Some fnEnv |}]> (evaluator.frames s) |} in
  evaluator.extendFunctionEnv params fnEnv args s = evaluator.Ok env s1 /\
  evaluator.wfState s1 /\
  (forall i param,
     params !! i = Some param ->
     (forall j, i < j -> params !! j <> Some param) ->
     exists arg, args !! i = Some arg /\
       evaluator.Get env param s1 = evaluator.Ok (Some arg) s1) /\
  (forall name,
     name ∉ params ->
     evaluator.value (evaluator.Get env name s1)
     = evaluator.value (evaluator.Get fnEnv name s)).
Proof.
  intros Hlen [Hwf Hbelow] Hfn. cbv zeta.
  assert (evaluator.wfFrames
            (<[evaluator.next s := {| object.store := evaluator.bound params args ∅;
                                      object.outer := Some fnEnv |}]> (evaluator.frames s)))
    as Hwf1.
  { apply wfFrames_insert_fresh; [exact Hwf | exact Hbelow |].
    intros o [= <-]. exact Hfn. }
  split; [| split; [| split]].
  - unfold evaluator.extendFunctionEnv.
    rewrite (bind_Ok _ _ _ _ _ (NewEnclosedEnvironment_frames fnEnv s)).
    erewrite bind_Ok;
      [| apply bindParameters_bound; [cbn; apply lookup_insert_eq | cbn; lia]].
    cbn. rewrite insert_insert_eq. reflexivity.
  - split; [exact Hwf1 |]. cbn. intros e He.
    apply lookup_insert_is_Some' in He as [<- | He]; [lia |].
    specialize (Hbelow e He). lia.
  - intros i param Hi Hlast.
    destruct (bound_lookup_last params args ∅ i param Hlen Hi Hlast) as (arg & Harg & Hb).
    exists arg. split; [exact Harg |].
    apply Get_value; [exact Hwf1 |]. cbn [evaluator.frames].
    eapply evaluator.lookup_here; [apply lookup_insert_eq | exact Hb].
  - intros name Hn.
    destruct (Get_chain name s fnEnv Hwf Hfn) as (r & Hr & ->).
    erewrite Get_value; [reflexivity | exact Hwf1 |]. cbn [evaluator.frames].
    eapply evaluator.lookup_outer; [apply lookup_insert_eq | | reflexivity |].
    + cbn. rewrite bound_lookup_notin by exact Hn. apply lookup_empty.
    + apply lookupChain_insert_older; [exact Hwf | exact Hr |]. apply Hbelow, Hfn.
Qed.

Lemma wfState_rootState : evaluator.wfState evaluator.rootState.
Proof.
  split.
  - intros e fr o Hfr Ho. rewrite rootState_frames in Hfr.
    apply lookup_insert_Some in Hfr as [[_ <-] | [_ Hfr]];
      [discriminate Ho | rewrite lookup_empty in Hfr; discriminate].
  - intros e He. rewrite rootState_frames in He.
    apply lookup_insert_is_Some' in He as [<- | He];
      [change (evaluator.next evaluator.rootState) with 4; unfold evaluator.rootEnv; lia |].
    rewrite lookup_empty in He. destruct He; discriminate.
Qed.

(** X10 for the parameters [x, y, x] and the arguments 1, 2, 3, 4 in the
    root environment: [x] is bound to 3 and [y] to 2. *)
Lemma extendFunctionEnv_binds_witness :
  let args := [Some (object.Integer 10 1); Some (object.Integer 11 2);
               Some (object.Integer 12 3); Some (object.Integer 13 4)] in
  exists s1,
    evaluator.extendFunctionEnv ["x"; "y"; "x"] evaluator.rootEnv args evaluator.rootState
      = evaluator.Ok 4 s1 /\
    evaluator.Get 4 "x" s1 = evaluator.Ok (Some (Some (object.Integer 12 3))) s1 /\
    evaluator.Get 4 "y" s1 = evaluator.Ok (Some (Some (object.Integer 11 2))) s1.
Proof.
  cbv zeta.
  destruct (extendFunctionEnv_binds ["x"; "y"; "x"] evaluator.rootEnv
              [Some (object.Integer 10 1); Some (object.Integer 11 2);
               Some (object.Integer 12 3); Some (object.Integer 13 4)]
              evaluator.rootState ltac:(cbn; lia) wfState_rootState
              ltac:(eexists; reflexivity)) as (Hext & _ & Hparam & _).
  eexists. split; [exact Hext |]. split.
  - destruct (Hparam 2 "x" eq_refl) as (arg & [= <-] & HG); [| exact HG].
    intros [| [| [| j]]] Hj; try lia; discriminate.
  - destruct (Hparam 1 "y" eq_refl) as (arg & [= <-] & HG); [| exact HG].
    intros [| [| [| j]]] Hj; try lia; discriminate.
Defined.

(** X11: a [let] whose expression evaluates to a value that is not an
    Error binds the name to that very object in the current frame and
    yields nil; evaluating the name afterwards in that environment gives
    the object back, whatever the built-ins table holds.  No object is
    allocated for the binding. *)
Theorem LetStatement_then_Identifier
    (Sprintf0 : string -> string) (builtins : gmap string (nat * nat))
    (callBuiltin : nat -> list (option object.Object) -> evaluator.M (option object.Object))
    (rangeOrder : evaluator.State ->
       list (option ast.Expression * option ast.Expression) ->
       list (option ast.Expression * option ast.Expression))
    (fuel : nat) (name : string) (e : option ast.Expression) (env : nat)
    (s : evaluator.State) (v : option object.Object) (s1 : evaluator.State) :
  let Eval := evaluator.Eval Sprintf0 builtins callBuiltin rangeOrder in
  Eval fuel (ast.exprNode e) env s = evaluator.Ok v s1 ->
  evaluator.isError v = false ->
  is_Some (evaluator.frames s1 !! env) ->
  exists s2,
    Eval (S fuel) (ast.Stmt (ast.LetStatement name e)) env s = evaluator.Ok None s2 /\
    evaluator.next s2 = evaluator.next s1 /\
    forall fuel',
      Eval (S fuel') (ast.Expr (ast.Identifier name)) env s2 = evaluator.Ok v s2.
Proof.
  intros Eval Hev Hv [fr Hfr]. subst Eval.
  pose proof (Set'_frames env name v s1 fr Hfr) as HS.
  eexists. split; [| split].
  - cbn [evaluator.Eval evaluator.EvalNode].
    rewrite (bind_Ok _ _ _ _ _ Hev), Hv, (bind_Ok _ _ _ _ _ HS). reflexivity.
  - reflexivity.
  - intros fuel'. cbn [evaluator.Eval evaluator.EvalNode]. unfold evaluator.evalIdentifier.
    rewrite (bind_Ok _ _ _ _ _ (Get_after_Set _ _ _ _ _ _ HS)). reflexivity.
Qed.

(** X11 at [let x = 5;] in the root environment. *)
Lemma LetStatement_then_Identifier_witness :
  let Eval := evaluator.Eval evaluator.verbatim evaluator.noBuiltins
                evaluator.noBuiltinCall evaluator.sourceOrder in
  exists s2,
    Eval 2 (ast.Stmt (ast.LetStatement "x" (Some (ast.IntegerLiteral 5))))
      evaluator.rootEnv evaluator.rootState = evaluator.Ok None s2 /\
    Eval 1 (ast.Expr (ast.Identifier "x")) evaluator.rootEnv s2
      = evaluator.Ok (Some (object.Integer 4 5)) s2.
Proof.
  cbv zeta.
  destruct (LetStatement_then_Identifier evaluator.verbatim evaluator.noBuiltins
              evaluator.noBuiltinCall evaluator.sourceOrder 1 "x"
              (Some (ast.IntegerLiteral 5)) evaluator.rootEnv evaluator.rootState
              (Some (object.Integer 4 5)) (evaluator.bump evaluator.rootState)
              eq_refl eq_refl ltac:(eexists; reflexivity)) as (s2 & Hlet & _ & Hid).
  exists s2. split; [exact Hlet | exact (Hid 0)].
Defined.

(** ** The parser returns *)

(** Every function of the parser is shown to return from every state whose
    [parser.measure] is below the fuel it is given ([parser.returns]); its
    result has no nil slot when it appends no error. *)

Ltac same_state :=
  split; [reflexivity |]; split; [assumption |]; split; [lia |];
  split; [reflexivity |]; auto.

Ltac close_returns :=
  split; [first [eassumption | reflexivity] |]; split; [assumption |]; split; [lia |];
  split; [first [assumption | reflexivity | etransitivity; eassumption] |]; auto.

(** The rules of [parser.returns] for the monad, and the functions that do
    not call [parseExpression]. *)
Section ParserMonad.

Import parser.

Lemma pbind_Ok {A B} (m : PM A) (k : A -> PM B) p a p' :
  m p = Ok a p' -> (m ≫= k) p = k a p'.
Proof. intros H. unfold mbind, PM_bind. rewrite H. reflexivity. Qed.

Lemma prefix_quiet (e0 e1 e2 : list string) :
  e0 `prefix_of` e1 -> e1 `prefix_of` e2 -> e2 = e0 -> e1 = e0 /\ e2 = e1.
Proof.
  intros H01 H12 ->.
  assert (e1 = e0) as ->; [| auto].
  symmetry. apply prefix_length_eq; [exact H01 |]. apply prefix_length, H12.
Qed.

Lemma returns_ret {A} b (a : A) (Q : A -> Prop) : Q a -> returns b (mret a) Q.
Proof. intros HQ p Hc Hb. exists a, p. same_state. Qed.

Lemma returns_bind {A B} b (m : PM A) (f : A -> PM B) (Q1 : A -> Prop) (Q2 : B -> Prop) :
  returns b m Q1 ->
  (forall a, returns b (f a) (fun r => Q1 a -> Q2 r)) ->
  returns b (m ≫= f) Q2.
Proof.
  intros Hm Hf p Hc Hb.
  destruct (Hm p Hc Hb) as (a & p1 & Hmp & Hc1 & Hle1 & Hpre1 & HQ1).
  destruct (Hf a p1 Hc1 ltac:(lia)) as (r & p2 & Hfp & Hc2 & Hle2 & Hpre2 & HQ2).
  exists r, p2. rewrite (pbind_Ok _ _ _ _ _ Hmp). split; [exact Hfp |].
  split; [exact Hc2 |]. split; [lia |]. split; [etransitivity; eassumption |].
  intros Hq. destruct (prefix_quiet _ _ _ Hpre1 Hpre2 Hq) as [E1 E2]. auto.
Qed.

Lemma returns_weaken {A} b b' (m : PM A) (Q Q' : A -> Prop) :
  returns b m Q -> b' <= b -> (forall a, Q a -> Q' a) -> returns b' m Q'.
Proof.
  intros Hm Hb HQ p Hc Hlt.
  destruct (Hm p Hc ltac:(lia)) as (a & p1 & Hmp & Hc1 & Hle1 & Hpre1 & HQ1).
  exists a, p1. close_returns.
Qed.

Lemma returns_le {A} b b' (m : PM A) (Q : A -> Prop) :
  returns b m Q -> b' <= b -> returns b' m Q.
Proof. intros Hm Hb. eapply returns_weaken; [exact Hm | exact Hb | auto]. Qed.

(** Nothing is asked of the result of a run that reports an error. *)
Lemma returns_noisy {A B} b (m : PM A) (f : A -> PM B) (Q : B -> Prop) :
  (forall p, lexer.consistent (l p) -> measure p < b ->
     exists a p', m p = Ok a p' /\ lexer.consistent (l p') /\ measure p' <= measure p /\
       errors p `prefix_of` errors p' /\ errors p' <> errors p) ->
  (forall a, returns b (f a) (fun _ => True)) ->
  returns b (m ≫= f) Q.
Proof.
  intros Hm Hf p Hc Hb.
  destruct (Hm p Hc Hb) as (a & p1 & Hmp & Hc1 & Hle1 & Hpre1 & Hne).
  destruct (Hf a p1 Hc1 ltac:(lia)) as (r & p2 & Hfp & Hc2 & Hle2 & Hpre2 & _).
  exists r, p2. rewrite (pbind_Ok _ _ _ _ _ Hmp). split; [exact Hfp |].
  split; [exact Hc2 |]. split; [lia |]. split; [etransitivity; eassumption |].
  intros Hq. destruct (prefix_quiet _ _ _ Hpre1 Hpre2 Hq) as [E1 E2]. contradiction.
Qed.

Lemma tokenTypeIs_true tok t : tokenTypeIs tok t = true <-> token.Type' tok = t.
Proof. unfold tokenTypeIs. apply bool_decide_eq_true. Qed.

Lemma tokenTypeIs_false tok t : tokenTypeIs tok t = false <-> token.Type' tok <> t.
Proof. unfold tokenTypeIs. apply bool_decide_eq_false. Qed.

Lemma measure_cur p : token.Type' (curToken p) <> token.EOF -> 0 < measure p.
Proof.
  intros H. unfold measure. apply tokenTypeIs_false in H. rewrite H. lia.
Qed.

Lemma measure_peek p : token.Type' (peekToken p) <> token.EOF -> 1 < measure p.
Proof.
  intros H. unfold measure. apply tokenTypeIs_false in H. rewrite H. lia.
Qed.

Lemma measure_zero p :
  measure p = 0 ->
  token.Type' (curToken p) = token.EOF /\ token.Type' (peekToken p) = token.EOF.
Proof.
  unfold measure. intros H.
  destruct (tokenTypeIs (peekToken p) token.EOF) eqn:E1; [| lia].
  destruct (tokenTypeIs (curToken p) token.EOF) eqn:E2; [| lia].
  apply tokenTypeIs_true in E1, E2. auto.
Qed.

(** [nextToken] returns, and lowers the measure as long as it is not 0. *)
Lemma nextToken_Ok p :
  lexer.consistent (l p) ->
  exists p', nextToken p = Ok tt p' /\ lexer.consistent (l p') /\
    errors p' = errors p /\ curToken p' = peekToken p /\
    measure p' <= measure p /\ (0 < measure p -> measure p' < measure p).
Proof.
  intros Hc. unfold nextToken.
  destruct (NextToken_total (l p) Hc) as (t & l' & HN & Hc' & Hin & Hpos).
  rewrite HN. eexists. split; [reflexivity |]. cbn [l errors curToken peekToken].
  split; [exact Hc' |]. split; [reflexivity |]. split; [reflexivity |].
  unfold measure, remaining. cbn [l errors curToken peekToken]. rewrite Hin.
  destruct (Nat.le_gt_cases (String.length (lexer.input (l p))) (lexer.position (l p)))
    as [Hend | Hmore].
  - rewrite (NextToken_at_end (l p) Hc Hend) in HN. injection HN as <- <-.
    replace (tokenTypeIs lexer.eofToken token.EOF) with true by reflexivity.
    rewrite (consistent_position (l p) Hc).
    replace (String.length (lexer.input (l p)) - S (lexer.position (l p))) with 0 by lia.
    replace (String.length (lexer.input (l p)) - lexer.position (l p)) with 0 by lia.
    destruct (tokenTypeIs (peekToken p) token.EOF), (tokenTypeIs (curToken p) token.EOF);
      cbn; lia.
  - destruct (tokenTypeIs t token.EOF), (tokenTypeIs (peekToken p) token.EOF),
      (tokenTypeIs (curToken p) token.EOF); cbn; lia.
Qed.

Lemma returns_nextToken b : returns b nextToken (fun _ => True).
Proof.
  intros p Hc Hb. destruct (nextToken_Ok p Hc) as (p' & H & Hc' & He & _ & Hle & _).
  exists tt, p'. rewrite He. close_returns.
Qed.

(** After [nextToken] a smaller bound does. *)
Lemma returns_next {B} b (f : unit -> PM B) (Q : B -> Prop) :
  2 <= b ->
  returns (b - 1) (f tt) Q ->
  returns b (nextToken ≫= f) Q.
Proof.
  intros Hb2 Hf p Hc Hb.
  destruct (nextToken_Ok p Hc) as (p1 & H & Hc1 & He & _ & Hle & Hlt).
  assert (measure p1 < b - 1) as Hb1.
  { destruct (measure p) eqn:E; [lia |]. specialize (Hlt ltac:(lia)). lia. }
  destruct (Hf p1 Hc1 Hb1) as (r & p2 & Hfp & Hc2 & Hle2 & Hpre2 & HQ2).
  exists r, p2. rewrite (pbind_Ok _ _ _ _ _ H). split; [exact Hfp |].
  split; [exact Hc2 |]. split; [lia |]. rewrite <- He. split; [exact Hpre2 |]. exact HQ2.
Qed.

Lemma returns_getCurToken b : returns b getCurToken (fun _ => True).
Proof. intros p Hc Hb. exists (curToken p), p. same_state. Qed.

Lemma returns_getPeekToken b : returns b getPeekToken (fun _ => True).
Proof. intros p Hc Hb. exists (peekToken p), p. same_state. Qed.

Lemma returns_peekTokenIs b t : returns b (peekTokenIs t) (fun _ => True).
Proof. intros p Hc Hb. eexists _, p. same_state. Qed.

Lemma returns_curTokenIs b t : returns b (curTokenIs t) (fun _ => True).
Proof. intros p Hc Hb. eexists _, p. same_state. Qed.

Lemma returns_peekPrecedence b : returns b peekPrecedence (fun _ => True).
Proof. intros p Hc Hb. eexists _, p. same_state. Qed.

Lemma returns_curPrecedence b : returns b curPrecedence (fun _ => True).
Proof. intros p Hc Hb. eexists _, p. same_state. Qed.

(** An error is appended: the run is not quiet. *)
Lemma addError_noisy msg p :
  lexer.consistent (l p) ->
  exists p', addError msg p = Ok tt p' /\ lexer.consistent (l p') /\
    measure p' <= measure p /\ errors p `prefix_of` errors p' /\ errors p' <> errors p.
Proof.
  intros Hc. eexists. split; [reflexivity |]. cbn [l errors].
  split; [exact Hc |]. split; [unfold measure, remaining; cbn; lia |].
  split; [apply prefix_app_r; reflexivity |].
  intros E. apply (f_equal length) in E. rewrite length_app in E. cbn in E. lia.
Qed.

Lemma returns_addError {B} b msg (f : unit -> PM B) (Q : B -> Prop) :
  returns b (f tt) (fun _ => True) ->
  returns b (addError msg ≫= f) Q.
Proof.
  intros Hf. apply returns_noisy.
  - intros p Hc _. destruct (addError_noisy msg p Hc) as (p' & H). exists tt, p'. exact H.
  - intros []. exact Hf.
Qed.

Lemma expectPeek_found t p p1 :
  tokenTypeIs (peekToken p) t = true -> nextToken p = Ok tt p1 ->
  expectPeek t p = Ok true p1.
Proof.
  intros E H. unfold expectPeek, peekTokenIs, getPeekToken, mbind, PM_bind.
  cbn [mret PM_ret]. rewrite E, H. reflexivity.
Qed.

Lemma expectPeek_missing t p :
  tokenTypeIs (peekToken p) t = false ->
  expectPeek t p =
    Ok false {| l := l p;
                errors := errors p ++
                  ["expected next token to be " ++ token.name t ++ ", got "
                   ++ token.name (token.Type' (peekToken p)) ++ " instead"];
                curToken := curToken p; peekToken := peekToken p |}.
Proof.
  intros E. unfold expectPeek, peekTokenIs, getPeekToken, mbind, PM_bind.
  cbn [mret PM_ret]. rewrite E. reflexivity.
Qed.

(** [expectPeek]: either the token is there and is read, or an error is
    appended. *)
Lemma returns_expectPeek {B} b t (f : bool -> PM B) (Q : B -> Prop) :
  2 <= b ->
  returns (b - 1) (f true) Q ->
  returns b (f false) (fun _ => True) ->
  returns b (expectPeek t ≫= f) Q.
Proof.
  intros Hb2 Ht Hf p Hc Hb.
  destruct (tokenTypeIs (peekToken p) t) eqn:E.
  - destruct (nextToken_Ok p Hc) as (p1 & H & Hc1 & He & _ & Hle & Hlt).
    assert (measure p1 < b - 1) as Hb1.
    { destruct (measure p) eqn:E0; [lia |]. specialize (Hlt ltac:(lia)). lia. }
    destruct (Ht p1 Hc1 Hb1) as (r & p2 & Hfp & Hc2 & Hle2 & Hpre2 & HQ2).
    exists r, p2. rewrite (pbind_Ok _ _ _ _ _ (expectPeek_found t p p1 E H)).
    rewrite He in *. close_returns.
  - pose proof (expectPeek_missing t p E) as H.
    set (p1 := {| l := l p; errors := _; curToken := _; peekToken := _ |}) in H.
    assert (measure p1 = measure p) as Hm by reflexivity.
    destruct (Hf p1 Hc ltac:(lia)) as (r & p2 & Hfp & Hc2 & Hle2 & Hpre2 & _).
    exists r, p2. rewrite (pbind_Ok _ _ _ _ _ H).
    split; [exact Hfp |]. split; [exact Hc2 |]. split; [lia |].
    assert (errors p `prefix_of` errors p1) as Hpre1 by (apply prefix_app_r; reflexivity).
    split; [etransitivity; eassumption |].
    intros Hq. destruct (prefix_quiet _ _ _ Hpre1 Hpre2 Hq) as [E1 _].
    apply (f_equal length) in E1. subst p1. cbn in E1. rewrite length_app in E1.
    cbn in E1. lia.
Qed.

(** The same where the bound need not go down. *)
Lemma returns_expectPeek_same {B} b t (f : bool -> PM B) (Q : B -> Prop) :
  returns b (f true) Q ->
  returns b (f false) (fun _ => True) ->
  returns b (expectPeek t ≫= f) Q.
Proof.
  intros Ht Hf p Hc Hb.
  destruct (tokenTypeIs (peekToken p) t) eqn:E.
  - destruct (nextToken_Ok p Hc) as (p1 & H & Hc1 & He & _ & Hle & Hlt).
    destruct (Ht p1 Hc1 ltac:(lia)) as (r & p2 & Hfp & Hc2 & Hle2 & Hpre2 & HQ2).
    exists r, p2. rewrite (pbind_Ok _ _ _ _ _ (expectPeek_found t p p1 E H)).
    rewrite He in *. close_returns.
  - pose proof (expectPeek_missing t p E) as H.
    set (p1 := {| l := l p; errors := _; curToken := _; peekToken := _ |}) in H.
    assert (measure p1 = measure p) as Hm by reflexivity.
    destruct (Hf p1 Hc ltac:(lia)) as (r & p2 & Hfp & Hc2 & Hle2 & Hpre2 & _).
    exists r, p2. rewrite (pbind_Ok _ _ _ _ _ H).
    split; [exact Hfp |]. split; [exact Hc2 |]. split; [lia |].
    assert (errors p `prefix_of` errors p1) as Hpre1 by (apply prefix_app_r; reflexivity).
    split; [etransitivity; eassumption |].
    intros Hq. destruct (prefix_quiet _ _ _ Hpre1 Hpre2 Hq) as [E1 _].
    apply (f_equal length) in E1. subst p1. cbn in E1. rewrite length_app in E1.
    cbn in E1. lia.
Qed.

Lemma returns_skipSemicolon b : returns b skipSemicolon (fun _ => True).
Proof.
  intros p Hc Hb. unfold skipSemicolon, peekTokenIs, getPeekToken, mbind, PM_bind.
  cbn [mret PM_ret].
  destruct (tokenTypeIs (peekToken p) token.SEMICOLON).
  - destruct (nextToken_Ok p Hc) as (p' & H & Hc' & He & _ & Hle & _).
    exists tt, p'. rewrite He. close_returns.
  - exists tt, p. same_state.
Qed.

Lemma pbind_getCurToken {B} (f : token.Token -> PM B) p :
  (getCurToken ≫= f) p = f (curToken p) p.
Proof. reflexivity. Qed.

Lemma pbind_getPeekToken {B} (f : token.Token -> PM B) p :
  (getPeekToken ≫= f) p = f (peekToken p) p.
Proof. reflexivity. Qed.

Lemma pbind_peekTokenIs {B} t (f : bool -> PM B) p :
  (peekTokenIs t ≫= f) p = f (tokenTypeIs (peekToken p) t) p.
Proof. reflexivity. Qed.

Lemma pbind_peekPrecedence {B} (f : nat -> PM B) p :
  (peekPrecedence ≫= f) p = f (default LOWEST (precedences (token.Type' (peekToken p)))) p.
Proof. reflexivity. Qed.

(** [expectPeek] seen from a state: the token is read, or an error is
    appended. *)
Lemma expectPeek_Ok t p :
  lexer.consistent (l p) ->
  exists b p', expectPeek t p = Ok b p' /\ lexer.consistent (l p') /\
    measure p' <= measure p /\ errors p `prefix_of` errors p' /\
    (if b : bool then errors p' = errors p /\ (t <> token.EOF -> measure p' < measure p)
     else length (errors p) < length (errors p')).
Proof.
  intros Hc. destruct (tokenTypeIs (peekToken p) t) eqn:E.
  - destruct (nextToken_Ok p Hc) as (p1 & H & Hc1 & He & _ & Hle & Hlt).
    exists true, p1. split; [apply expectPeek_found; assumption |].
    split; [assumption |]. split; [assumption |]. rewrite He.
    split; [reflexivity |]. split; [reflexivity |].
    intros Hne. apply Hlt. apply tokenTypeIs_true in E.
    pose proof (measure_peek p) as Hp. rewrite E in Hp. specialize (Hp Hne). lia.
  - eexists false, _. split; [apply expectPeek_missing; exact E |].
    cbn [l errors]. split; [exact Hc |].
    split; [unfold measure, remaining; cbn; lia |].
    split; [apply prefix_app_r; reflexivity |].
    rewrite length_app. cbn. lia.
Qed.

End ParserMonad.

(** The functions that call [parseExpression], for a [parseExpression]
    that returns. *)
Section ParserOpen.

Import parser.

Variable parseExpression : nat -> PM (option ast.Expression).
Variable n : nat.

Local Abbreviation okSlot := (fun o : option ast.Expression => ast.noNilSlot o = true).
Local Abbreviation okStmt := (fun s : ast.Statement => ast.noNilStatement s = true).
Local Abbreviation okBlock :=
  (fun statements : list ast.Statement => forallb ast.noNilStatement statements = true).
Local Abbreviation okSlots :=
  (fun exps : list (option ast.Expression) => forallb ast.noNilSlot exps = true).

Local Abbreviation okPairs :=
  (fun ps : list (option ast.Expression * option ast.Expression) =>
     forallb ast.noNilPair ps = true).

Hypothesis n_two : 2 <= n.
Hypothesis parseExpression_returns :
  forall precedence, returns (n - 1) (parseExpression precedence) okSlot.

Ltac use L :=
  eapply returns_weaken; [apply L | first [apply Nat.le_refl | lia] | cbv beta; intros; auto].
Ltac bind_with L :=
  eapply returns_bind;
  [eapply returns_le; [apply L | first [apply Nat.le_refl | lia]] | intros; cbv beta].
Ltac ret := apply returns_ret; cbv beta; intros; auto.
Ltac expect :=
  apply returns_expectPeek_same; cbn [negb]; cbv beta iota; [| try ret].

Lemma returns_parseLetStatement :
  returns (n - 1) (parseLetStatement parseExpression) okStmt.
Proof.
  unfold parseLetStatement.
  expect. bind_with returns_getCurToken. expect.
  bind_with returns_nextToken. bind_with parseExpression_returns.
  bind_with returns_skipSemicolon. ret.
Qed.

Lemma returns_parseReturnStatement :
  returns (n - 1) (parseReturnStatement parseExpression) okStmt.
Proof.
  unfold parseReturnStatement.
  bind_with returns_nextToken. bind_with parseExpression_returns.
  bind_with returns_skipSemicolon. ret.
Qed.

Lemma returns_parseExpressionStatement :
  returns (n - 1) (parseExpressionStatement parseExpression) okStmt.
Proof.
  unfold parseExpressionStatement.
  bind_with parseExpression_returns. bind_with returns_skipSemicolon. ret.
Qed.

Lemma returns_parseStatement :
  returns (n - 1) (parseStatement parseExpression) okStmt.
Proof.
  unfold parseStatement. bind_with returns_getCurToken.
  destruct (token.Type' a);
    first [use returns_parseLetStatement | use returns_parseReturnStatement
          | use returns_parseExpressionStatement].
Qed.

Lemma forallb_snoc {A} (f : A -> bool) xs x :
  forallb f xs = true -> f x = true -> forallb f (xs ++ [x])%list = true.
Proof. intros H1 H2. rewrite forallb_app, H1. cbn. rewrite H2. reflexivity. Qed.

Lemma returns_parseBlockStatement_loop k : forall statements,
  returns (Nat.min (n - 1) k) (parseBlockStatement_loop parseExpression k statements)
    (fun r => okBlock statements -> okBlock r).
Proof.
  induction k as [| k IH]; intros statements p Hc Hb; [lia |].
  cbn [parseBlockStatement_loop]. rewrite pbind_getCurToken.
  destruct (tokenTypeIs (curToken p) token.RBRACE || tokenTypeIs (curToken p) token.EOF)
    eqn:E.
  { exists statements, p. same_state. }
  apply orb_false_iff in E as [_ E]. apply tokenTypeIs_false in E.
  pose proof (measure_cur p E) as Hpos.
  destruct (returns_parseStatement p Hc ltac:(lia))
    as (stmt & p1 & H1 & Hc1 & Hle1 & Hpre1 & HQ1).
  destruct (nextToken_Ok p1 Hc1) as (p2 & H2 & Hc2 & He2 & _ & Hle2 & Hlt2).
  destruct (IH (statements ++ [stmt])%list p2 Hc2) as (r & p3 & H3 & Hc3 & Hle3 & Hpre3 & HQ3).
  { destruct (measure p1) eqn:E1; [lia |]. specialize (Hlt2 ltac:(lia)). lia. }
  exists r, p3. rewrite (pbind_Ok _ _ _ _ _ H1), (pbind_Ok _ _ _ _ _ H2).
  split; [exact H3 |]. split; [exact Hc3 |]. split; [lia |].
  rewrite He2 in Hpre3. split; [etransitivity; eassumption |].
  intros Hq Hok. destruct (prefix_quiet _ _ _ Hpre1 Hpre3 Hq) as [E1 E3].
  apply HQ3; [congruence |]. apply forallb_snoc; auto.
Qed.

Lemma returns_parseBlockStatement :
  returns (n - 1) (parseBlockStatement parseExpression n) okBlock.
Proof.
  unfold parseBlockStatement. bind_with returns_nextToken.
  eapply returns_weaken; [apply (returns_parseBlockStatement_loop n []) | lia |].
  cbv beta. auto.
Qed.

Lemma returns_parsePrefixExpression :
  returns n (parsePrefixExpression parseExpression) okSlot.
Proof.
  unfold parsePrefixExpression. bind_with returns_getCurToken.
  apply returns_next; [exact n_two |].
  bind_with parseExpression_returns. ret.
Qed.

Lemma returns_parseInfixExpression left :
  returns (n - 1) (parseInfixExpression parseExpression left)
    (fun r => okSlot left -> okSlot r).
Proof.
  unfold parseInfixExpression. bind_with returns_getCurToken.
  bind_with returns_curPrecedence. bind_with returns_nextToken.
  bind_with parseExpression_returns. ret.
  cbn. destruct left; [| discriminate]. cbn in *. apply andb_true_iff. auto.
Qed.

Lemma returns_parseGroupedExpression :
  returns n (parseGroupedExpression parseExpression) okSlot.
Proof.
  unfold parseGroupedExpression. apply returns_next; [exact n_two |].
  bind_with parseExpression_returns. expect. ret.
Qed.

Lemma returns_parseIfExpression :
  returns n (parseIfExpression parseExpression n) okSlot.
Proof.
  unfold parseIfExpression.
  apply returns_expectPeek; [exact n_two | cbn [negb]; cbv beta iota | ret].
  bind_with returns_nextToken. bind_with parseExpression_returns.
  expect. expect. bind_with returns_parseBlockStatement.
  bind_with returns_peekTokenIs. destruct a2.
  - bind_with returns_nextToken. expect. bind_with returns_parseBlockStatement. ret.
    cbn. repeat (apply andb_true_iff; split); auto.
  - ret. cbn. repeat (apply andb_true_iff; split); auto.
Qed.

Lemma returns_parseFunctionParameters_loop k : forall identifiers,
  returns (Nat.min (n - 1) k) (parseFunctionParameters_loop k identifiers) (fun _ => True).
Proof.
  induction k as [| k IH]; intros identifiers p Hc Hb; [lia |].
  cbn [parseFunctionParameters_loop]. rewrite pbind_peekTokenIs.
  destruct (tokenTypeIs (peekToken p) token.COMMA) eqn:E.
  2:{ exists identifiers, p. same_state. }
  apply tokenTypeIs_true in E.
  assert (1 < measure p) as Hpos by (apply measure_peek; rewrite E; discriminate).
  destruct (nextToken_Ok p Hc) as (p1 & H1 & Hc1 & He1 & _ & Hle1 & Hlt1).
  destruct (nextToken_Ok p1 Hc1) as (p2 & H2 & Hc2 & He2 & _ & Hle2 & Hlt2).
  rewrite (pbind_Ok _ _ _ _ _ H1), (pbind_Ok _ _ _ _ _ H2), pbind_getCurToken.
  destruct (IH (identifiers ++ [token.Literal (curToken p2)])%list p2 Hc2)
    as (r & p3 & H3 & Hc3 & Hle3 & Hpre3 & HQ3).
  { specialize (Hlt1 ltac:(lia)). lia. }
  exists r, p3. split; [exact H3 |]. split; [exact Hc3 |]. split; [lia |].
  rewrite He2, He1 in Hpre3. split; [exact Hpre3 | auto].
Qed.

Lemma returns_parseFunctionParameters :
  returns (n - 1) (parseFunctionParameters n) (fun _ => True).
Proof.
  unfold parseFunctionParameters. bind_with returns_peekTokenIs. destruct a.
  - bind_with returns_nextToken. ret.
  - bind_with returns_nextToken. bind_with returns_getCurToken.
    eapply returns_bind;
      [eapply returns_le; [apply returns_parseFunctionParameters_loop | lia] |].
    intros ids. cbv beta. expect. ret.
Qed.

Lemma returns_parseFunctionLiteral :
  returns n (parseFunctionLiteral parseExpression n) okSlot.
Proof.
  unfold parseFunctionLiteral.
  apply returns_expectPeek; [exact n_two | cbn [negb]; cbv beta iota | ret].
  bind_with returns_parseFunctionParameters. expect.
  bind_with returns_parseBlockStatement. ret.
Qed.

Lemma returns_parseExpressionList_loop k : forall list0,
  returns (Nat.min (n - 1) k) (parseExpressionList_loop parseExpression k list0)
    (fun r => okSlots list0 -> okSlots r).
Proof.
  induction k as [| k IH]; intros list0 p Hc Hb; [lia |].
  cbn [parseExpressionList_loop]. rewrite pbind_peekTokenIs.
  destruct (tokenTypeIs (peekToken p) token.COMMA) eqn:E.
  2:{ exists list0, p. same_state. }
  apply tokenTypeIs_true in E.
  assert (1 < measure p) as Hpos by (apply measure_peek; rewrite E; discriminate).
  destruct (nextToken_Ok p Hc) as (p1 & H1 & Hc1 & He1 & _ & Hle1 & Hlt1).
  destruct (nextToken_Ok p1 Hc1) as (p2 & H2 & Hc2 & He2 & _ & Hle2 & Hlt2).
  specialize (Hlt1 ltac:(lia)).
  destruct (parseExpression_returns LOWEST p2 Hc2 ltac:(lia))
    as (e & p3 & H3 & Hc3 & Hle3 & Hpre3 & HQ3).
  destruct (IH (list0 ++ [e])%list p3 Hc3 ltac:(lia)) as (r & p4 & H4 & Hc4 & Hle4 & Hpre4 & HQ4).
  exists r, p4.
  rewrite (pbind_Ok _ _ _ _ _ H1), (pbind_Ok _ _ _ _ _ H2), (pbind_Ok _ _ _ _ _ H3).
  split; [exact H4 |]. split; [exact Hc4 |]. split; [lia |].
  rewrite He2, He1 in Hpre3. split; [etransitivity; eassumption |].
  intros Hq Hok. destruct (prefix_quiet _ _ _ Hpre3 Hpre4 Hq) as [E3 E4].
  apply HQ4; [exact E4 |]. apply forallb_snoc; [exact Hok |]. apply HQ3. congruence.
Qed.

Lemma returns_parseExpressionList end' :
  returns n (parseExpressionList parseExpression n end') okSlots.
Proof.
  unfold parseExpressionList. bind_with returns_peekTokenIs. destruct a.
  - bind_with returns_nextToken. ret.
  - apply returns_next; [exact n_two |].
    bind_with parseExpression_returns.
    eapply returns_bind;
      [eapply returns_le; [apply (returns_parseExpressionList_loop n [a]) | lia] |].
    intros list0. cbv beta. expect. ret.
    match goal with H : forallb _ [_] = true -> _ |- _ => apply H end.
    cbn. apply andb_true_iff. auto.
Qed.

Lemma returns_parseCallExpression function :
  returns (n - 1) (parseCallExpression parseExpression n function)
    (fun r => okSlot function -> okSlot r).
Proof.
  unfold parseCallExpression.
  eapply returns_bind; [eapply returns_le; [apply returns_parseExpressionList | lia] |].
  intros args. cbv beta. ret.
  cbn. destruct function; [| discriminate]. cbn in *. apply andb_true_iff. auto.
Qed.

Lemma returns_parseArrayLiteral :
  returns n (parseArrayLiteral parseExpression n) okSlot.
Proof.
  unfold parseArrayLiteral. bind_with returns_parseExpressionList. ret.
Qed.

Lemma returns_parseIndexExpression left :
  returns (n - 1) (parseIndexExpression parseExpression left)
    (fun r => okSlot left -> okSlot r).
Proof.
  unfold parseIndexExpression. bind_with returns_nextToken.
  bind_with parseExpression_returns. expect. ret.
  cbn. destruct left; [| discriminate]. cbn in *. apply andb_true_iff. auto.
Qed.

Lemma Pairs_insert_noNil key value pairs :
  okSlot key -> okSlot value -> okPairs pairs ->
  okPairs (ast.Pairs_insert key value pairs).
Proof.
  intros Hk Hv Hp. destruct key as [k |]; [| discriminate]. cbn [ast.Pairs_insert].
  apply forallb_snoc; [exact Hp |]. unfold ast.noNilPair. cbn [fst snd].
  apply andb_true_iff. auto.
Qed.

Ltac noisy :=
  exfalso;
  repeat match goal with
         | H : _ `prefix_of` _ |- _ => apply prefix_length in H
         | H : @eq (list string) _ _ |- _ => apply (f_equal length) in H
         end; lia.

Lemma returns_parseHashLiteral_loop k : forall pairs,
  returns (Nat.min n k) (parseHashLiteral_loop parseExpression k pairs)
    (fun r => okPairs pairs -> exists ps, r = inr ps /\ okPairs ps).
Proof.
  induction k as [| k IH]; intros pairs p Hc Hb; [lia |].
  cbn [parseHashLiteral_loop]. rewrite pbind_peekTokenIs.
  destruct (tokenTypeIs (peekToken p) token.RBRACE) eqn:E.
  { exists (inr pairs), p. split; [reflexivity |]. split; [exact Hc |].
    split; [lia |]. split; [reflexivity |]. intros _ Hok. eauto. }
  destruct (nextToken_Ok p Hc) as (p1 & H1 & Hc1 & He1 & _ & Hle1 & Hlt1).
  assert (measure p1 < n - 1) as Hb1.
  { destruct (measure p) eqn:E0; [lia |]. specialize (Hlt1 ltac:(lia)). lia. }
  destruct (parseExpression_returns LOWEST p1 Hc1 Hb1)
    as (key & p2 & H2 & Hc2 & Hle2 & Hpre2 & HQ2).
  destruct (expectPeek_Ok token.COLON p2 Hc2) as (b & p3 & H3 & Hc3 & Hle3 & Hpre3 & Hb3).
  rewrite (pbind_Ok _ _ _ _ _ H1), (pbind_Ok _ _ _ _ _ H2), (pbind_Ok _ _ _ _ _ H3).
  assert (errors p `prefix_of` errors p2) as P02 by (rewrite <- He1; exact Hpre2).
  destruct b; cbn [negb].
  2:{ exists (inl tt), p3. split; [reflexivity |]. split; [exact Hc3 |]. split; [lia |].
      split; [etransitivity; eassumption |]. intros Hq. noisy. }
  destruct Hb3 as [He3 Hlt3]. specialize (Hlt3 ltac:(discriminate)).
  destruct (nextToken_Ok p3 Hc3) as (p4 & H4 & Hc4 & He4 & _ & Hle4 & _).
  destruct (parseExpression_returns LOWEST p4 Hc4 ltac:(lia))
    as (value & p5 & H5 & Hc5 & Hle5 & Hpre5 & HQ5).
  rewrite (pbind_Ok _ _ _ _ _ H4), (pbind_Ok _ _ _ _ _ H5). cbv zeta.
  rewrite pbind_peekTokenIs.
  assert (errors p2 `prefix_of` errors p5) as P25 by (rewrite <- He3, <- He4; exact Hpre5).
  assert (errors p `prefix_of` errors p5) as P05 by (etransitivity; eassumption).
  assert (errors p5 = errors p -> okPairs pairs ->
          okPairs (ast.Pairs_insert key value pairs)) as Hins.
  { intros Hq Hok. destruct (prefix_quiet _ _ _ P02 P25 Hq) as [E2 E5].
    apply Pairs_insert_noNil; [apply HQ2; congruence | apply HQ5; congruence | exact Hok]. }
  destruct (tokenTypeIs (peekToken p5) token.RBRACE) eqn:E5.
  - destruct (IH (ast.Pairs_insert key value pairs) p5 Hc5 ltac:(lia))
      as (r & p6 & H6 & Hc6 & Hle6 & Hpre6 & HQ6).
    exists r, p6. split; [exact H6 |]. split; [exact Hc6 |]. split; [lia |].
    split; [etransitivity; eassumption |].
    intros Hq Hok. destruct (prefix_quiet _ _ _ P05 Hpre6 Hq) as [E05 E56].
    apply HQ6; [exact E56 | apply Hins; assumption].
  - destruct (expectPeek_Ok token.COMMA p5 Hc5)
      as (b & p6 & H6 & Hc6 & Hle6 & Hpre6 & Hb6).
    rewrite (pbind_Ok _ _ _ _ _ H6). destruct b.
    + destruct Hb6 as [He6 _].
      destruct (IH (ast.Pairs_insert key value pairs) p6 Hc6 ltac:(lia))
        as (r & p7 & H7 & Hc7 & Hle7 & Hpre7 & HQ7).
      exists r, p7. split; [exact H7 |]. split; [exact Hc7 |]. split; [lia |].
      rewrite He6 in Hpre7. split; [etransitivity; eassumption |].
      intros Hq Hok. destruct (prefix_quiet _ _ _ P05 Hpre7 Hq) as [E05 E57].
      apply HQ7; [congruence | apply Hins; assumption].
    + exists (inl tt), p6. split; [reflexivity |]. split; [exact Hc6 |]. split; [lia |].
      split; [etransitivity; eassumption |]. intros Hq. noisy.
Qed.

Lemma returns_parseHashLiteral :
  returns n (parseHashLiteral parseExpression n) okSlot.
Proof.
  unfold parseHashLiteral.
  eapply returns_bind;
    [eapply returns_le; [apply (returns_parseHashLiteral_loop n []) | lia] |].
  intros [[] | pairs]; cbv beta iota.
  - apply returns_ret. intros H. destruct (H eq_refl) as (ps & Hps & _). discriminate Hps.
  - apply returns_expectPeek_same; [| ret].
    apply returns_ret. intros H. destruct (H eq_refl) as (ps & [= <-] & Hps).
    exact Hps.
Qed.

Lemma returns_parseIdentifier b : returns b parseIdentifier okSlot.
Proof. unfold parseIdentifier. bind_with returns_getCurToken. ret. Qed.

Lemma returns_parseStringLiteral b : returns b parseStringLiteral okSlot.
Proof. unfold parseStringLiteral. bind_with returns_getCurToken. ret. Qed.

Lemma returns_parseBoolean b : returns b parseBoolean okSlot.
Proof. unfold parseBoolean. bind_with returns_getCurToken. ret. Qed.

Lemma returns_parseIntegerLiteral b : returns b parseIntegerLiteral okSlot.
Proof.
  unfold parseIntegerLiteral. bind_with returns_getCurToken.
  destruct (strconv.ParseInt0_64 (token.Literal a)).
  - ret.
  - apply returns_addError. ret.
Qed.

Lemma returns_prefixParseFns t prefix :
  prefixParseFns parseExpression n t = Some prefix -> returns n prefix okSlot.
Proof.
  destruct t; intros [= <-];
    first [ apply returns_parseIdentifier | apply returns_parseIntegerLiteral
          | apply returns_parseStringLiteral | apply returns_parseBoolean
          | apply returns_parsePrefixExpression | apply returns_parseGroupedExpression
          | apply returns_parseIfExpression | apply returns_parseFunctionLiteral
          | apply returns_parseArrayLiteral | apply returns_parseHashLiteral ].
Qed.

Lemma returns_infixParseFns t infix :
  infixParseFns parseExpression n t = Some infix ->
  t <> token.EOF /\
  forall left, returns (n - 1) (infix left) (fun r => okSlot left -> okSlot r).
Proof.
  destruct t; intros [= <-]; (split; [discriminate |]); intros left;
    first [ apply returns_parseInfixExpression | apply returns_parseCallExpression
          | apply returns_parseIndexExpression ].
Qed.

Lemma returns_parseExpression_loop k : forall precedence leftExp,
  returns (Nat.min n k) (parseExpression_loop parseExpression n k precedence leftExp)
    (fun r => okSlot leftExp -> okSlot r).
Proof.
  induction k as [| k IH]; intros precedence leftExp p Hc Hb; [lia |].
  cbn [parseExpression_loop]. rewrite pbind_peekTokenIs, pbind_peekPrecedence.
  destruct (negb _ && _).
  2:{ exists leftExp, p. same_state. }
  rewrite pbind_getPeekToken.
  destruct (infixParseFns parseExpression n (token.Type' (peekToken p))) as [infix |] eqn:Ei.
  2:{ exists leftExp, p. same_state. }
  apply returns_infixParseFns in Ei as [Hne Hinfix].
  pose proof (measure_peek p Hne) as Hpos.
  destruct (nextToken_Ok p Hc) as (p1 & H1 & Hc1 & He1 & _ & Hle1 & Hlt1).
  specialize (Hlt1 ltac:(lia)).
  destruct (Hinfix leftExp p1 Hc1 ltac:(lia)) as (e & p2 & H2 & Hc2 & Hle2 & Hpre2 & HQ2).
  destruct (IH precedence e p2 Hc2 ltac:(lia)) as (r & p3 & H3 & Hc3 & Hle3 & Hpre3 & HQ3).
  exists r, p3. rewrite (pbind_Ok _ _ _ _ _ H1), (pbind_Ok _ _ _ _ _ H2).
  split; [exact H3 |]. split; [exact Hc3 |]. split; [lia |].
  rewrite He1 in Hpre2. split; [etransitivity; eassumption |].
  intros Hq Hok. destruct (prefix_quiet _ _ _ Hpre2 Hpre3 Hq) as [E2 E3].
  apply HQ3; [exact E3 |]. apply HQ2; [congruence | exact Hok].
Qed.

Lemma returns_parseExpressionBody precedence :
  returns n (parseExpressionBody parseExpression n precedence) okSlot.
Proof.
  intros p Hc Hb. unfold parseExpressionBody. rewrite pbind_getCurToken.
  destruct (prefixParseFns parseExpression n (token.Type' (curToken p)))
    as [prefix |] eqn:Ep.
  - refine ((_ : returns n (prefix ≫= _) okSlot) p Hc Hb).
    eapply returns_bind; [apply (returns_prefixParseFns _ _ Ep) |].
    intros leftExp. cbv beta.
    eapply returns_weaken; [apply (returns_parseExpression_loop n precedence leftExp) | lia |].
    cbv beta. auto.
  - refine ((_ : returns n (noPrefixParseFnError _ ≫= _) okSlot) p Hc Hb).
    apply returns_addError. ret.
Qed.

End ParserOpen.

(** [parseExpression] itself, by induction on its fuel, and
    [ParseProgram]. *)
Section ParserClosed.

Import parser.

(** With the input read and both tokens [EOF], [parseExpression] reports
    that [EOF] has no prefix parse function. *)
Lemma returns_parseExpression_at_end fuel precedence :
  returns 1 (parseExpression (S fuel) precedence) (fun o => ast.noNilSlot o = true).
Proof.
  intros p Hc Hb. destruct (measure_zero p ltac:(lia)) as [Hcur _].
  cbn [parseExpression]. unfold parseExpressionBody. rewrite pbind_getCurToken, Hcur.
  cbn [prefixParseFns].
  refine ((_ : returns 1 (noPrefixParseFnError _ ≫= _) _) p Hc Hb).
  apply returns_addError. apply returns_ret. exact I.
Qed.

Lemma returns_parseExpression fuel : forall precedence,
  returns (fuel - 1) (parseExpression fuel precedence) (fun o => ast.noNilSlot o = true).
Proof.
  induction fuel as [| fuel IH]; intros precedence.
  { intros p _ Hb. lia. }
  destruct (le_lt_dec 2 fuel) as [Hfuel | Hfuel].
  - cbn [parseExpression]. eapply returns_le.
    + apply (returns_parseExpressionBody (parseExpression fuel) fuel Hfuel IH).
    + lia.
  - eapply returns_le; [apply returns_parseExpression_at_end | lia].
Qed.

Lemma returns_ParseProgram_loop k : forall statements,
  returns (k - 2) (ParseProgram_loop k statements)
    (fun r => forallb ast.noNilStatement statements = true ->
              forallb ast.noNilStatement r = true).
Proof.
  induction k as [| k IH]; intros statements p Hc Hb; [lia |].
  cbn [ParseProgram_loop]. rewrite pbind_getCurToken.
  destruct (tokenTypeIs (curToken p) token.EOF) eqn:E.
  { exists statements, p. same_state. }
  apply tokenTypeIs_false in E. pose proof (measure_cur p E) as Hpos.
  assert (measure p < k - 1) as Hb' by lia.
  destruct (returns_parseStatement (parseExpression k) k
              (returns_parseExpression k) p Hc Hb')
    as (stmt & p1 & H1 & Hc1 & Hle1 & Hpre1 & HQ1).
  destruct (nextToken_Ok p1 Hc1) as (p2 & H2 & Hc2 & He2 & _ & Hle2 & Hlt2).
  destruct (IH (statements ++ [stmt])%list p2 Hc2)
    as (r & p3 & H3 & Hc3 & Hle3 & Hpre3 & HQ3).
  { destruct (measure p1) eqn:E1; [lia |]. specialize (Hlt2 ltac:(lia)). lia. }
  exists r, p3. rewrite (pbind_Ok _ _ _ _ _ H1), (pbind_Ok _ _ _ _ _ H2).
  split; [exact H3 |]. split; [exact Hc3 |]. split; [lia |].
  rewrite He2 in Hpre3. split; [etransitivity; eassumption |].
  intros Hq Hok. destruct (prefix_quiet _ _ _ Hpre1 Hpre3 Hq) as [E1 E3].
  apply HQ3; [congruence |]. apply forallb_snoc; auto.
Qed.

(** [New] reads the first two tokens. *)
Lemma New_Ok input :
  exists p, New (lexer.New input) = Ok tt p /\ lexer.consistent (l p) /\
    measure p <= 3 * String.length input + 3 /\ errors p = [].
Proof.
  destruct (New_consistent input) as (Hc & Hin & Hpos).
  unfold New.
  set (p0 := {| l := lexer.New input; errors := []; curToken := zeroToken;
                peekToken := zeroToken |}).
  assert (measure p0 = 3 * String.length input + 3) as Hm.
  { unfold measure, remaining. cbn [l curToken peekToken p0]. rewrite Hin, Hpos.
    replace (tokenTypeIs zeroToken token.EOF) with false by reflexivity. lia. }
  destruct (nextToken_Ok p0 Hc) as (p1 & H1 & Hc1 & He1 & _ & Hle1 & _).
  destruct (nextToken_Ok p1 Hc1) as (p2 & H2 & Hc2 & He2 & _ & Hle2 & _).
  exists p2. rewrite (pbind_Ok _ _ _ _ _ H1). split; [exact H2 |].
  split; [exact Hc2 |]. split; [lia |]. rewrite He2, He1. reflexivity.
Qed.

Lemma parse_Ok input fuel :
  3 * String.length input + 6 <= fuel ->
  exists program errors, parse fuel input = Some (program, errors) /\
    (errors = [] -> forallb ast.noNilStatement program = true).
Proof.
  intros Hfuel. destruct (New_Ok input) as (p & HN & Hc & Hm & He).
  destruct (returns_ParseProgram_loop fuel [] p Hc ltac:(lia))
    as (program & p' & HP & _ & _ & _ & HQ).
  exists program, (errors p'). unfold parse, ParseProgram. rewrite HN, HP.
  split; [reflexivity |]. intros E. apply HQ; [congruence | reflexivity].
Qed.

End ParserClosed.

(** X14: the parser returns on every input: with fuel [3 * length + 6] or
    more, [ParseProgram] on the parser made by [New] gives a program and a
    list of errors; no loop and no recursion runs out of fuel, and nothing
    panics. *)
Theorem ParseProgram_returns (input : string) (extra : nat) :
  exists program errors,
    parser.parse (3 * String.length input + 6 + extra) input = Some (program, errors).
Proof.
  destruct (parse_Ok input (3 * String.length input + 6 + extra) ltac:(lia))
    as (program & errors & H & _).
  exists program, errors. exact H.
Qed.

(** X15: a program parsed without errors has no nil node: when [Errors()]
    is empty after [ParseProgram], no statement is a nil [*LetStatement]
    and every expression slot under every statement holds an
    expression. *)
Theorem ParseProgram_without_errors_has_no_nil (input : string) (extra : nat)
    (program : list ast.Statement) :
  parser.parse (3 * String.length input + 6 + extra) input = Some (program, []) ->
  forallb ast.noNilStatement program = true.
Proof.
  intros H.
  destruct (parse_Ok input (3 * String.length input + 6 + extra) ltac:(lia))
    as (program' & errors & H' & Hnil).
  rewrite H in H'. injection H' as <- <-. apply Hnil. reflexivity.
Qed.

Lemma ParseProgram_without_errors_has_no_nil_witness :
  forallb ast.noNilStatement
    [ast.LetStatement "f"
       (Some (ast.FunctionLiteral ["x"]
          [ast.ExpressionStatement
             (Some (ast.InfixExpression (Some (ast.Identifier "x")) "+"
                      (Some (ast.IntegerLiteral 1))))]));
     ast.ExpressionStatement
       (Some (ast.CallExpression (Some (ast.Identifier "f"))
                [Some (ast.IntegerLiteral 2)]))] = true.
Proof.
  apply (ParseProgram_without_errors_has_no_nil "let f = fn(x) { x + 1 }; f(2)" 0).
  vm_compute. reflexivity.
Defined.

(** ** The frames that an evaluation writes *)

Section Frames.

Import object evaluator.

Variable Sprintf0 : string -> string.
Variable builtins : gmap string (nat * nat).
Variable callBuiltin : nat -> list (option object.Object) -> M (option object.Object).
Variable rangeOrder :
  State -> list (option ast.Expression * option ast.Expression) ->
  list (option ast.Expression * option ast.Expression).

Hypothesis callBuiltin_framesKept : framesKept callBuiltin.

Lemma writesOnly_ret W {A} (a : A) : writesOnly W (mret a).
Proof. intros s b s' [= _ <-]. auto. Qed.

Lemma writesOnly_panic W {A} msg : writesOnly W (panic (A := A) msg).
Proof. intros s b s' [=]. Qed.

Lemma writesOnly_outOfFuel W {A} : writesOnly W (outOfFuel (A := A)).
Proof. intros s b s' [=]. Qed.

Lemma writesOnly_bind W {A B} (m : M A) (f : A -> M B) :
  writesOnly W m -> (forall a, writesOnly W (f a)) -> writesOnly W (m ≫= f).
Proof.
  intros Hm Hf s b s' H. apply bind_Ok_inv in H as (a & s1 & H1 & H2).
  destruct (Hm _ _ _ H1) as [Hn1 Hf1]. destruct (Hf _ _ _ _ H2) as [Hn2 Hf2].
  split; [lia |]. intros e He HW. rewrite Hf2 by (lia || exact HW). auto.
Qed.

Lemma writesOnly_weaken (W W' : nat -> Prop) {A} (m : M A) :
  (forall e, W e -> W' e) -> writesOnly W m -> writesOnly W' m.
Proof.
  intros HW Hm s a s' H. destruct (Hm _ _ _ H) as [Hn Hf]. split; [exact Hn |].
  intros e He HW'. apply Hf; [exact He |]. intros HWe. apply HW', HW, HWe.
Qed.

Lemma writesOnly_alloc W : writesOnly W alloc.
Proof. intros s a s' [= _ <-]. cbn. auto. Qed.

Lemma writesOnly_readFrame W e : writesOnly W (readFrame e).
Proof.
  intros s a s'. unfold readFrame. destruct (frames s !! e); intros [= _ <-]. auto.
Qed.

Lemma writesOnly_writeFrame (W : nat -> Prop) e fr : W e -> writesOnly W (writeFrame e fr).
Proof.
  intros HW s a s' [= _ <-]. cbn. split; [lia |]. intros e' _ HW'.
  apply lookup_insert_ne. intros ->. exact (HW' HW).
Qed.

Lemma writesOnly_typeOf W obj : writesOnly W (typeOf obj).
Proof. destruct obj; [apply writesOnly_ret | apply writesOnly_panic]. Qed.

Lemma writesOnly_visitOrder W Pairs : writesOnly W (visitOrder rangeOrder Pairs).
Proof. intros s a s' [= _ <-]. auto. Qed.

Ltac writes_auto :=
  repeat first
    [ assumption
    | match goal with H : _ |- writesOnly _ _ => solve [apply H] end
    | apply writesOnly_ret | apply writesOnly_panic | apply writesOnly_outOfFuel
    | apply writesOnly_readFrame | apply writesOnly_typeOf | apply writesOnly_alloc
    | apply writesOnly_visitOrder
    | apply writesOnly_writeFrame; solve [reflexivity | assumption]
    | apply writesOnly_bind; [| intros ?]
    | match goal with
      | |- writesOnly _ (if ?b then _ else _) => destruct b
      | |- writesOnly _ (match ?x with _ => _ end) => destruct x
      end ].

Lemma writesOnly_Get_rec W fuel : forall e name, writesOnly W (Get_rec fuel e name).
Proof. induction fuel as [| fuel IH]; intros e name; cbn [Get_rec]; writes_auto. Qed.

Lemma writesOnly_Set' (W : nat -> Prop) e name val : W e -> writesOnly W (Set' e name val).
Proof. intros HW. unfold Set'. writes_auto. Qed.

Lemma writesOnly_newError W msg : writesOnly W (newError msg).
Proof. unfold newError. writes_auto. Qed.

Lemma writesOnly_newInteger W v : writesOnly W (newInteger v).
Proof. unfold newInteger. writes_auto. Qed.

Lemma writesOnly_evalPrefixExpression W operator right :
  writesOnly W (evalPrefixExpression operator right).
Proof.
  unfold evalPrefixExpression, evalMinusPrefixOperatorExpression.
  pose proof (writesOnly_newError W). writes_auto.
Qed.

Lemma writesOnly_unknownOperator W operator left right :
  writesOnly W (unknownOperator operator left right).
Proof. unfold unknownOperator. pose proof (writesOnly_newError W). writes_auto. Qed.

Lemma writesOnly_bothTypes W t left right : writesOnly W (bothTypes t left right).
Proof. unfold bothTypes. writes_auto. Qed.

Lemma writesOnly_evalInfixExpression W operator left right :
  writesOnly W (evalInfixExpression operator left right).
Proof.
  unfold evalInfixExpression, evalIntegerInfixExpression, evalStringInfixExpression.
  pose proof (writesOnly_newError W). pose proof (writesOnly_newInteger W).
  pose proof (writesOnly_unknownOperator W). pose proof (writesOnly_bothTypes W).
  writes_auto.
Qed.

Lemma writesOnly_evalIndexExpression W left index :
  writesOnly W (evalIndexExpression left index).
Proof.
  unfold evalIndexExpression, evalArrayIndexExpression, evalHashIndexExpression.
  pose proof (writesOnly_newError W). writes_auto.
Qed.

Lemma writesOnly_evalIdentifier W name env :
  writesOnly W (evalIdentifier Sprintf0 builtins name env).
Proof.
  unfold evalIdentifier, Get. pose proof (writesOnly_newError W).
  pose proof (writesOnly_Get_rec W). writes_auto.
Qed.

Lemma writesOnly_bindParameters (W : nat -> Prop) env params : forall paramIdx args,
  W env -> writesOnly W (bindParameters env params paramIdx args).
Proof.
  induction params as [| param rest IH]; intros paramIdx args HW; cbn [bindParameters].
  - writes_auto.
  - pose proof (fun name val => writesOnly_Set' W env name val HW).
    writes_auto. apply IH, HW.
Qed.

(** The frame of a call is new: no frame that was there before is
    written. *)
Lemma writesOnly_extendFunctionEnv params fnEnv args s env s' :
  extendFunctionEnv params fnEnv args s = Ok env s' ->
  env = next s /\ next s < next s' /\
  forall e, e < next s -> frames s' !! e = frames s !! e.
Proof.
  unfold extendFunctionEnv. intros H.
  apply bind_Ok_inv in H as (env0 & s1 & H1 & H).
  rewrite NewEnclosedEnvironment_frames in H1. injection H1 as <- <-.
  apply bind_Ok_inv in H as ([] & s2 & H2 & H). injection H as <- <-.
  destruct (writesOnly_bindParameters (eq (next s)) (next s) params 0 args eq_refl _ _ _ H2)
    as [Hn Hf].
  cbn in Hn, Hf. split; [reflexivity |]. split; [lia |].
  intros e He. rewrite Hf by lia. apply lookup_insert_ne. lia.
Qed.

Section Open.

Variable ev : ast.Node -> nat -> M (option object.Object).
Hypothesis writesOnly_ev : forall node env, writesOnly (eq env) (ev node env).

Lemma writesOnly_evalProgram_loop statements env : forall result,
  writesOnly (eq env) (evalProgram_loop ev statements env result).
Proof.
  induction statements as [| statement rest IH]; intros result; cbn [evalProgram_loop];
    writes_auto; apply IH.
Qed.

Lemma writesOnly_evalBlockStatement_loop statements env : forall result,
  writesOnly (eq env) (evalBlockStatement_loop ev statements env result).
Proof.
  induction statements as [| statement rest IH]; intros result;
    cbn [evalBlockStatement_loop]; writes_auto; apply IH.
Qed.

Lemma writesOnly_evalExpressions_loop exps env : forall result,
  writesOnly (eq env) (evalExpressions_loop ev exps env result).
Proof.
  induction exps as [| e rest IH]; intros result; cbn [evalExpressions_loop];
    writes_auto; apply IH.
Qed.

Lemma writesOnly_evalHashLiteral_loop entries env : forall pairs,
  writesOnly (eq env) (evalHashLiteral_loop ev entries env pairs).
Proof.
  induction entries as [| [keyNode valueNode] rest IH]; intros pairs;
    cbn [evalHashLiteral_loop]; pose proof (writesOnly_newError (eq env));
    writes_auto; apply IH.
Qed.

(** The body of a function runs in the new frame of the call: a call
    writes no frame that was there before. *)
Lemma writesOnly_applyFunction fn args :
  writesOnly (fun _ => False) (applyFunction callBuiltin ev fn args).
Proof.
  unfold applyFunction. pose proof (writesOnly_newError (fun _ => False)) as Herr.
  pose proof callBuiltin_framesKept as Hhost.
  destruct fn as [[] |]; try solve [writes_auto].
  intros s r s' H.
  apply bind_Ok_inv in H as (extendedEnv & s1 & H1 & H).
  apply bind_Ok_inv in H as (evaluated & s2 & H2 & H). injection H as _ <-.
  apply writesOnly_extendFunctionEnv in H1 as (-> & Hn1 & Hf1).
  destruct (writesOnly_ev _ _ _ _ _ H2) as [Hn2 Hf2].
  split; [lia |]. intros e He _. rewrite Hf2 by lia. apply Hf1, He.
Qed.

Lemma writesOnly_EvalNode node env :
  writesOnly (eq env) (EvalNode Sprintf0 builtins callBuiltin rangeOrder ev node env).
Proof.
  pose proof writesOnly_evalProgram_loop. pose proof writesOnly_evalBlockStatement_loop.
  pose proof writesOnly_evalExpressions_loop.
  assert (forall fn args, writesOnly (eq env) (applyFunction callBuiltin ev fn args)).
  { intros fn args. eapply writesOnly_weaken; [| apply writesOnly_applyFunction].
    intros e []. }
  pose proof writesOnly_evalHashLiteral_loop.
  pose proof (writesOnly_evalIdentifier (eq env)).
  pose proof (writesOnly_evalIndexExpression (eq env)).
  pose proof (writesOnly_evalInfixExpression (eq env)).
  pose proof (writesOnly_evalPrefixExpression (eq env)).
  pose proof (writesOnly_newInteger (eq env)).
  pose proof (fun name val => writesOnly_Set' (eq env) env name val eq_refl).
  unfold EvalNode, evalProgram, evalBlockStatement, evalIfExpression, evalExpressions,
    evalHashLiteral.
  destruct node as [statements | [] | statements | [] |]; writes_auto.
Qed.

End Open.

Lemma writesOnly_Eval fuel : forall node env,
  writesOnly (eq env) (Eval Sprintf0 builtins callBuiltin rangeOrder fuel node env).
Proof.
  induction fuel as [| fuel IH]; intros node env; cbn [Eval];
    [apply writesOnly_outOfFuel | apply writesOnly_EvalNode, IH].
Qed.

End Frames.

Lemma framesKept_noBuiltinCall : evaluator.framesKept evaluator.noBuiltinCall.
Proof. intros fn args s a s' [=]. Qed.

(** X16: evaluation writes one frame.  [Eval] of a node in an environment
    leaves every other environment that was there before as it was: the
    [let] statements of the node bind in that environment only.  The body
    of a called function runs in the new environment of the call, so a call
    changes no environment that was there before, neither the caller's nor
    the one the function was defined in.  (Host functions are taken to
    leave the environments alone.) *)
Theorem Eval_writes_one_frame
    (Sprintf0 : string -> string) (builtins : gmap string (nat * nat))
    (callBuiltin : nat -> list (option object.Object) ->
                   evaluator.M (option object.Object))
    (rangeOrder : evaluator.State ->
                  list (option ast.Expression * option ast.Expression) ->
                  list (option ast.Expression * option ast.Expression)) :
  evaluator.framesKept callBuiltin ->
  (forall fuel node env s r s',
     evaluator.Eval Sprintf0 builtins callBuiltin rangeOrder fuel node env s
       = evaluator.Ok r s' ->
     forall e, e < evaluator.next s -> e <> env ->
       evaluator.frames s' !! e = evaluator.frames s !! e) /\
  (forall fuel fn args s r s',
     evaluator.applyFunction callBuiltin
       (evaluator.Eval Sprintf0 builtins callBuiltin rangeOrder fuel) fn args s
       = evaluator.Ok r s' ->
     forall e, e < evaluator.next s ->
       evaluator.frames s' !! e = evaluator.frames s !! e).
Proof.
  intros Hhost. split.
  - intros fuel node env s r s' H e He Hne.
    destruct (writesOnly_Eval Sprintf0 builtins callBuiltin rangeOrder Hhost
                fuel node env s r s' H) as [_ Hf].
    apply Hf; [exact He | congruence].
  - intros fuel fn args s r s' H e He.
    destruct (writesOnly_applyFunction callBuiltin Hhost
                (evaluator.Eval Sprintf0 builtins callBuiltin rangeOrder fuel)
                (writesOnly_Eval Sprintf0 builtins callBuiltin rangeOrder Hhost fuel)
                fn args s r s' H) as [_ Hf].
    apply Hf; [exact He | tauto].
Qed.

(** X16 in a frame (5) enclosed in the frame (3) that binds [x] and [f],
    at [let x = f(x);] where [f] is [fn(x) { let x = 1; x }]: frame 3 is as
    before. *)
Lemma Eval_writes_one_frame_witness :
  let f := Some (object.Function 6 ["x"]
                   [ast.LetStatement "x" (Some (ast.IntegerLiteral 1));
                    ast.ExpressionStatement (Some (ast.Identifier "x"))] 3) in
  let outer := {| object.store := {[ "x" := Some (object.Integer 4 7); "f" := f ]};
                  object.outer := None |} in
  let s := {| evaluator.next := 7;
              evaluator.frames :=
                {[ 3 := outer; 5 := {| object.store := ∅; object.outer := Some 3 |} ]} |} in
  exists s',
    evaluator.Eval evaluator.verbatim evaluator.noBuiltins evaluator.noBuiltinCall
      evaluator.sourceOrder 6
      (ast.Stmt (ast.LetStatement "x"
         (Some (ast.CallExpression (Some (ast.Identifier "f"))
                  [Some (ast.Identifier "x")])))) 5 s = evaluator.Ok None s' /\
    evaluator.frames s' !! 3 = Some outer /\
    evaluator.value (evaluator.Get 5 "x" s') = Some (Some (Some (object.Integer 8 1))).
Proof.
  cbv zeta.
  set (s := {| evaluator.next := 7; evaluator.frames := _ |}).
  set (node := ast.Stmt _).
  let t := eval vm_compute in
        (evaluator.Eval evaluator.verbatim evaluator.noBuiltins evaluator.noBuiltinCall
           evaluator.sourceOrder 6 node 5 s) in
  match t with
  | evaluator.Ok ?r ?s' =>
      assert (evaluator.Eval evaluator.verbatim evaluator.noBuiltins
                evaluator.noBuiltinCall evaluator.sourceOrder 6 node 5 s
              = evaluator.Ok r s') as H by (vm_compute; reflexivity);
      exists s'
  end.
  split; [exact H |]. split.
  - rewrite (proj1 (Eval_writes_one_frame evaluator.verbatim evaluator.noBuiltins
                      evaluator.noBuiltinCall evaluator.sourceOrder
                      framesKept_noBuiltinCall) _ _ _ _ _ _ H 3);
      [reflexivity | cbn; lia | lia].
  - vm_compute. reflexivity.
Defined.

(** ** Precedence and associativity of the infix operators *)

Section Precedence.

Import parser.

Variable parseExpression : nat -> PM (option ast.Expression).
Variable n : nat.

Lemma precedences_binary t q :
  precedences t = Some q -> q < CALL -> LOWEST < q /\ t <> token.SEMICOLON.
Proof.
  destruct t; intros [= <-] Hq; unfold CALL, INDEX, LOWEST, EQUALS, LESSGREATER, SUM,
    PRODUCT in *; try lia; (split; [lia | discriminate]).
Qed.

Lemma infixParseFns_binary t q :
  precedences t = Some q -> q < CALL ->
  infixParseFns parseExpression n t = Some (parseInfixExpression parseExpression).
Proof.
  destruct t; intros [= <-] Hq; unfold CALL, INDEX in *; try lia; reflexivity.
Qed.

(** The loop of [parseExpression] stops before a token that does not bind
    tighter than [precedence]. *)
Lemma parseExpression_loop_stops k precedence leftExp p :
  default LOWEST (precedences (token.Type' (peekToken p))) <= precedence ->
  parseExpression_loop parseExpression n (S k) precedence leftExp p = Ok leftExp p.
Proof.
  intros H. cbn [parseExpression_loop].
  rewrite pbind_peekTokenIs, pbind_peekPrecedence.
  apply Nat.ltb_ge in H. rewrite H, andb_false_r. reflexivity.
Qed.

(** One turn of the loop at an infix operator that binds tighter: the
    operator and the first token of its right operand are read, the right
    operand is parsed with the precedence of the operator, and the loop goes
    on with the new infix expression. *)
Lemma parseExpression_loop_infix k precedence leftExp p q t1 l1 t2 l2 :
  precedences (token.Type' (peekToken p)) = Some q -> q < CALL -> precedence < q ->
  lexer.NextToken (l p) = Some (t1, l1) ->
  lexer.NextToken l1 = Some (t2, l2) ->
  parseExpression_loop parseExpression n (S k) precedence leftExp p =
    (parseExpression q ≫= fun right =>
       parseExpression_loop parseExpression n k precedence
         (Some (ast.InfixExpression leftExp (token.Literal (peekToken p)) right)))
      {| l := l2; errors := errors p; curToken := t1; peekToken := t2 |}.
Proof.
  intros Hq Hcall Hlt H1 H2.
  destruct (precedences_binary _ _ Hq Hcall) as [_ Hsemi].
  pose proof (infixParseFns_binary _ _ Hq Hcall) as Hinfix.
  cbn [parseExpression_loop].
  rewrite pbind_peekTokenIs, pbind_peekPrecedence, Hq.
  change (default LOWEST (Some q)) with q.
  apply tokenTypeIs_false in Hsemi. rewrite Hsemi.
  apply Nat.ltb_lt in Hlt. rewrite Hlt. cbn [negb andb].
  rewrite pbind_getPeekToken, Hinfix.
  assert (nextToken p = Ok tt {| l := l1; errors := errors p; curToken := peekToken p;
                                 peekToken := t1 |}) as HN1.
  { unfold nextToken. rewrite H1. reflexivity. }
  rewrite (pbind_Ok _ _ _ _ _ HN1).
  unfold parseInfixExpression, curPrecedence, getCurToken, nextToken, mbind, PM_bind,
    mret, PM_ret.
  cbn [l errors curToken peekToken]. rewrite Hq, H2.
  change (default LOWEST (Some q)) with q.
  destruct (parseExpression q _); reflexivity.
Qed.

End Precedence.

Section PrecedenceClosed.

Import parser.

(** An identifier before a token that does not bind tighter than
    [precedence] is the whole expression. *)
Lemma parseExpression_identifier fuel precedence p :
  token.Type' (curToken p) = token.IDENT ->
  default LOWEST (precedences (token.Type' (peekToken p))) <= precedence ->
  parseExpression (S (S fuel)) precedence p =
    Ok (Some (ast.Identifier (token.Literal (curToken p)))) p.
Proof.
  intros Hcur Hpeek.
  change (parseExpression (S (S fuel)) precedence)
    with (parseExpressionBody (parseExpression (S fuel)) (S fuel) precedence).
  unfold parseExpressionBody.
  rewrite pbind_getCurToken, Hcur. cbn [prefixParseFns].
  erewrite pbind_Ok by reflexivity.
  apply parseExpression_loop_stops, Hpeek.
Qed.

(** An identifier before an infix operator that binds tighter is the left
    operand of that operator. *)
Lemma parseExpression_identifier_infix fuel precedence p q t1 l1 t2 l2 :
  token.Type' (curToken p) = token.IDENT ->
  precedences (token.Type' (peekToken p)) = Some q -> q < CALL -> precedence < q ->
  lexer.NextToken (l p) = Some (t1, l1) ->
  lexer.NextToken l1 = Some (t2, l2) ->
  parseExpression (S (S fuel)) precedence p =
    (parseExpression (S fuel) q ≫= fun right =>
       parseExpression_loop (parseExpression (S fuel)) (S fuel) fuel precedence
         (Some (ast.InfixExpression (Some (ast.Identifier (token.Literal (curToken p))))
                  (token.Literal (peekToken p)) right)))
      {| l := l2; errors := errors p; curToken := t1; peekToken := t2 |}.
Proof.
  intros Hcur Hq Hcall Hlt H1 H2.
  change (parseExpression (S (S fuel)) precedence)
    with (parseExpressionBody (parseExpression (S fuel)) (S fuel) precedence).
  unfold parseExpressionBody.
  rewrite pbind_getCurToken, Hcur. cbn [prefixParseFns].
  erewrite pbind_Ok by reflexivity.
  apply (parseExpression_loop_infix _ _ _ _ _ _ _ _ _ _ _ Hq Hcall Hlt H1 H2).
Qed.

Lemma tokens_4 l0 ta tb tc td :
  lexer.tokens 4 l0 = Some [ta; tb; tc; td] ->
  exists l1 l2 l3 l4,
    lexer.NextToken l0 = Some (ta, l1) /\ lexer.NextToken l1 = Some (tb, l2) /\
    lexer.NextToken l2 = Some (tc, l3) /\ lexer.NextToken l3 = Some (td, l4).
Proof.
  cbn [lexer.tokens]. intros H.
  destruct (lexer.NextToken l0) as [[t1 l1] |] eqn:E1; [| discriminate H]. cbn in H.
  destruct (lexer.NextToken l1) as [[t2 l2] |] eqn:E2; [| discriminate H]. cbn in H.
  destruct (lexer.NextToken l2) as [[t3 l3] |] eqn:E3; [| discriminate H]. cbn in H.
  destruct (lexer.NextToken l3) as [[t4 l4] |] eqn:E4; [| discriminate H]. cbn in H.
  injection H as <- <- <- <-. exists l1, l2, l3, l4. auto.
Qed.

End PrecedenceClosed.

(** X17: precedence and associativity of the binary operators.  For
    identifiers [a], [b], [c] and binary operators [op1], [op2], the tokens
    [a op1 b op2 c] before a token that is no operator (a semicolon, the
    end of the input, a closing bracket) are parsed as [(a op1 b) op2 c]
    when [op2] does not bind tighter than [op1] (operators of the same
    precedence associate to the left), and as [a op1 (b op2 c)] when it
    does.  The parser stops at [c] and appends no error. *)
Theorem parseExpression_precedence
    (fuel : nat) (p : parser.Parser) (b c : string) (op2 tEnd : token.Token)
    (q1 q2 : nat) :
  token.Type' (parser.curToken p) = token.IDENT ->
  parser.precedences (token.Type' (parser.peekToken p)) = Some q1 -> q1 < parser.CALL ->
  lexer.tokens 4 (parser.l p)
    = Some [token.mkToken token.IDENT b; op2; token.mkToken token.IDENT c; tEnd] ->
  parser.precedences (token.Type' op2) = Some q2 -> q2 < parser.CALL ->
  parser.precedences (token.Type' tEnd) = None ->
  let a := Some (ast.Identifier (token.Literal (parser.curToken p))) in
  let op1 := token.Literal (parser.peekToken p) in
  exists p',
    parser.parseExpression (4 + fuel) parser.LOWEST p =
      parser.Ok
        (Some (if q2 <=? q1
               then ast.InfixExpression
                      (Some (ast.InfixExpression a op1 (Some (ast.Identifier b))))
                      (token.Literal op2) (Some (ast.Identifier c))
               else ast.InfixExpression a op1
                      (Some (ast.InfixExpression (Some (ast.Identifier b))
                               (token.Literal op2) (Some (ast.Identifier c))))))
        p' /\
    parser.errors p' = parser.errors p /\
    parser.curToken p' = token.mkToken token.IDENT c /\
    parser.peekToken p' = tEnd.
Proof.
  intros Hcur Hq1 Hc1 Htok Hq2 Hc2 Hend a op1.
  destruct (tokens_4 _ _ _ _ _ Htok) as (l1 & l2 & l3 & l4 & H1 & H2 & H3 & H4).
  destruct (precedences_binary _ _ Hq1 Hc1) as [Hlow1 _].
  destruct (precedences_binary _ _ Hq2 Hc2) as [Hlow2 _].
  set (p2 := {| parser.l := l2; parser.errors := parser.errors p;
                parser.curToken := token.mkToken token.IDENT b;
                parser.peekToken := op2 |}).
  set (p4 := {| parser.l := l4; parser.errors := parser.errors p;
                parser.curToken := token.mkToken token.IDENT c;
                parser.peekToken := tEnd |}).
  assert (default parser.LOWEST
            (parser.precedences (token.Type' (parser.peekToken p4))) = parser.LOWEST)
    as Hstop by (cbn [parser.peekToken p4]; rewrite Hend; reflexivity).
  assert (forall k precedence, parser.LOWEST <= precedence ->
            parser.parseExpression (S (S k)) precedence p4 =
              parser.Ok (Some (ast.Identifier c)) p4) as Hc.
  { intros k precedence Hle.
    apply (parseExpression_identifier k precedence p4 eq_refl). rewrite Hstop. exact Hle. }
  exists p4. split; [| auto].
  change (4 + fuel) with (S (S (S (S fuel)))).
  rewrite (parseExpression_identifier_infix _ _ _ _ _ _ _ _ Hcur Hq1 Hc1 Hlow1 H1 H2).
  fold p2. destruct (q2 <=? q1) eqn:E.
  - apply Nat.leb_le in E.
    rewrite (pbind_Ok _ _ _ _ _
               (parseExpression_identifier (S fuel) q1 p2 eq_refl
                  ltac:(cbn [parser.peekToken p2]; rewrite Hq2; exact E))).
    rewrite (parseExpression_loop_infix _ _ (S fuel) parser.LOWEST _ p2 q2 _ _ _ _
               Hq2 Hc2 Hlow2 H3 H4).
    change (parser.errors p2) with (parser.errors p). fold p4.
    rewrite (pbind_Ok _ _ _ _ _ (Hc (S fuel) q2 ltac:(lia))).
    apply parseExpression_loop_stops. rewrite Hstop. lia.
  - apply Nat.leb_gt in E.
    assert (parser.parseExpression (S (S (S fuel))) q1 p2 =
              parser.Ok (Some (ast.InfixExpression (Some (ast.Identifier b))
                                 (token.Literal op2) (Some (ast.Identifier c)))) p4)
      as Hinner.
    { rewrite (parseExpression_identifier_infix (S fuel) q1 p2 q2 _ _ _ _ eq_refl
                 Hq2 Hc2 E H3 H4).
      change (parser.errors p2) with (parser.errors p). fold p4.
      rewrite (pbind_Ok _ _ _ _ _ (Hc fuel q2 ltac:(lia))).
      apply parseExpression_loop_stops. rewrite Hstop. lia. }
    rewrite (pbind_Ok _ _ _ _ _ Hinner).
    apply parseExpression_loop_stops. rewrite Hstop. lia.
Qed.

(** X17 at [a + b * c;] and at [a - b + c;]. *)
Lemma parseExpression_precedence_witness :
  let state := fun input =>
    match parser.New (lexer.New input) with parser.Ok _ p => Some p | _ => None end in
  let parsed := fun input =>
    p ← state input;
    match parser.parseExpression 4 parser.LOWEST p with
    | parser.Ok e _ => e
    | _ => None
    end in
  let x := fun name => Some (ast.Identifier name) in
  parsed "a + b * c;" =
    Some (ast.InfixExpression (x "a") "+" (Some (ast.InfixExpression (x "b") "*" (x "c")))) /\
  parsed "a - b + c;" =
    Some (ast.InfixExpression (Some (ast.InfixExpression (x "a") "-" (x "b"))) "+" (x "c")).
Proof.
  cbv zeta. split.
  - let t := eval vm_compute in (parser.New (lexer.New "a + b * c;")) in
    match t with
    | parser.Ok _ ?p =>
        assert (parser.New (lexer.New "a + b * c;") = parser.Ok tt p) as HN
          by (vm_compute; reflexivity);
        destruct (parseExpression_precedence 0 p "b" "c"
                    (token.mkToken token.ASTERISK "*") (token.mkToken token.SEMICOLON ";")
                    parser.SUM parser.PRODUCT eq_refl eq_refl
                    ltac:(vm_compute; lia) ltac:(vm_compute; reflexivity) eq_refl
                    ltac:(vm_compute; lia) eq_refl) as (p' & H & _)
    end.
    rewrite HN. cbn [mbind option_bind]. change (4 + 0) with 4 in H. rewrite H.
    reflexivity.
  - let t := eval vm_compute in (parser.New (lexer.New "a - b + c;")) in
    match t with
    | parser.Ok _ ?p =>
        assert (parser.New (lexer.New "a - b + c;") = parser.Ok tt p) as HN
          by (vm_compute; reflexivity);
        destruct (parseExpression_precedence 0 p "b" "c"
                    (token.mkToken token.PLUS "+") (token.mkToken token.SEMICOLON ";")
                    parser.SUM parser.SUM eq_refl eq_refl
                    ltac:(vm_compute; lia) ltac:(vm_compute; reflexivity) eq_refl
                    ltac:(vm_compute; lia) eq_refl) as (p' & H & _)
    end.
    rewrite HN. cbn [mbind option_bind]. change (4 + 0) with 4 in H. rewrite H.
    reflexivity.
Defined.

Lemma tokens_3 l0 ta tb tc :
  lexer.tokens 3 l0 = Some [ta; tb; tc] ->
  exists l1 l2 l3,
    lexer.NextToken l0 = Some (ta, l1) /\ lexer.NextToken l1 = Some (tb, l2) /\
    lexer.NextToken l2 = Some (tc, l3).
Proof.
  cbn [lexer.tokens]. intros H.
  destruct (lexer.NextToken l0) as [[t1 l1] |] eqn:E1; [| discriminate H]. cbn in H.
  destruct (lexer.NextToken l1) as [[t2 l2] |] eqn:E2; [| discriminate H]. cbn in H.
  destruct (lexer.NextToken l2) as [[t3 l3] |] eqn:E3; [| discriminate H]. cbn in H.
  injection H as <- <- <-. exists l1, l2, l3. auto.
Qed.

(** X18: the prefix operators bind tighter than the binary operators.  For
    a prefix operator [!] or [-], identifiers [a], [b] and a binary
    operator [op], the tokens [-a op b] before a token that is no operator
    are parsed as [(-a) op b]: the operand of the prefix operator is [a]
    alone.  The parser stops at [b] and appends no error. *)
Theorem parsePrefixExpression_binds_tighter
    (fuel : nat) (p : parser.Parser) (a b : string) (op tEnd : token.Token) (q : nat) :
  token.Type' (parser.curToken p) = token.BANG \/
  token.Type' (parser.curToken p) = token.MINUS ->
  parser.peekToken p = token.mkToken token.IDENT a ->
  lexer.tokens 3 (parser.l p) = Some [op; token.mkToken token.IDENT b; tEnd] ->
  parser.precedences (token.Type' op) = Some q -> q < parser.CALL ->
  parser.precedences (token.Type' tEnd) = None ->
  exists p',
    parser.parseExpression (3 + fuel) parser.LOWEST p =
      parser.Ok
        (Some (ast.InfixExpression
                 (Some (ast.PrefixExpression (token.Literal (parser.curToken p))
                          (Some (ast.Identifier a))))
                 (token.Literal op) (Some (ast.Identifier b))))
        p' /\
    parser.errors p' = parser.errors p /\
    parser.curToken p' = token.mkToken token.IDENT b /\
    parser.peekToken p' = tEnd.
Proof.
  intros Hcur Hpeek Htok Hq Hcall Hend.
  destruct (tokens_3 _ _ _ _ Htok) as (l1 & l2 & l3 & H1 & H2 & H3).
  destruct (precedences_binary _ _ Hq Hcall) as [Hlow _].
  set (p1 := {| parser.l := l1; parser.errors := parser.errors p;
                parser.curToken := token.mkToken token.IDENT a;
                parser.peekToken := op |}).
  set (p3 := {| parser.l := l3; parser.errors := parser.errors p;
                parser.curToken := token.mkToken token.IDENT b;
                parser.peekToken := tEnd |}).
  assert (default parser.LOWEST
            (parser.precedences (token.Type' (parser.peekToken p3))) = parser.LOWEST)
    as Hstop by (cbn [parser.peekToken p3]; rewrite Hend; reflexivity).
  assert (parser.nextToken p = parser.Ok tt p1) as HN.
  { unfold parser.nextToken. rewrite H1, Hpeek. reflexivity. }
  assert (parser.parsePrefixExpression (parser.parseExpression (S (S fuel))) p =
            parser.Ok (Some (ast.PrefixExpression (token.Literal (parser.curToken p))
                               (Some (ast.Identifier a)))) p1) as Hprefix.
  { unfold parser.parsePrefixExpression.
    rewrite pbind_getCurToken, (pbind_Ok _ _ _ _ _ HN).
    rewrite (pbind_Ok _ _ _ _ _
               (parseExpression_identifier fuel parser.PREFIX p1 eq_refl
                  ltac:(cbn [parser.peekToken p1]; rewrite Hq; cbn;
                        unfold parser.PREFIX, parser.CALL in *; lia))).
    reflexivity. }
  exists p3. split; [| auto].
  change (3 + fuel) with (S (S (S fuel))).
  change (parser.parseExpression (S (S (S fuel))) parser.LOWEST)
    with (parser.parseExpressionBody (parser.parseExpression (S (S fuel))) (S (S fuel))
            parser.LOWEST).
  unfold parser.parseExpressionBody. rewrite pbind_getCurToken.
  assert (parser.prefixParseFns (parser.parseExpression (S (S fuel))) (S (S fuel))
            (token.Type' (parser.curToken p)) =
          Some (parser.parsePrefixExpression (parser.parseExpression (S (S fuel)))))
    as -> by (destruct Hcur as [-> | ->]; reflexivity).
  rewrite (pbind_Ok _ _ _ _ _ Hprefix).
  rewrite (parseExpression_loop_infix _ _ (S fuel) parser.LOWEST _ p1 q _ _ _ _
             Hq Hcall Hlow H2 H3).
  change (parser.errors p1) with (parser.errors p). fold p3.
  rewrite (pbind_Ok _ _ _ _ _
             (parseExpression_identifier fuel q p3 eq_refl
                ltac:(rewrite Hstop; lia))).
  apply parseExpression_loop_stops. rewrite Hstop. lia.
Qed.

(** X18 at [-a * b;] and at [!a == b;]. *)
Lemma parsePrefixExpression_binds_tighter_witness :
  let parsed := fun input =>
    match parser.New (lexer.New input) with
    | parser.Ok _ p =>
        match parser.parseExpression 3 parser.LOWEST p with
        | parser.Ok e _ => e
        | _ => None
        end
    | _ => None
    end in
  let x := fun name => Some (ast.Identifier name) in
  parsed "-a * b;" =
    Some (ast.InfixExpression (Some (ast.PrefixExpression "-" (x "a"))) "*" (x "b")) /\
  parsed "!a == b;" =
    Some (ast.InfixExpression (Some (ast.PrefixExpression "!" (x "a"))) "==" (x "b")).
Proof.
  cbv zeta. split.
  - let t := eval vm_compute in (parser.New (lexer.New "-a * b;")) in
    match t with
    | parser.Ok _ ?p =>
        assert (parser.New (lexer.New "-a * b;") = parser.Ok tt p) as HN
          by (vm_compute; reflexivity);
        destruct (parsePrefixExpression_binds_tighter 0 p "a" "b"
                    (token.mkToken token.ASTERISK "*") (token.mkToken token.SEMICOLON ";")
                    parser.PRODUCT (or_intror eq_refl) eq_refl
                    ltac:(vm_compute; reflexivity) eq_refl
                    ltac:(vm_compute; lia) eq_refl) as (p' & H & _)
    end.
    rewrite HN. change (3 + 0) with 3 in H. rewrite H. reflexivity.
  - let t := eval vm_compute in (parser.New (lexer.New "!a == b;")) in
    match t with
    | parser.Ok _ ?p =>
        assert (parser.New (lexer.New "!a == b;") = parser.Ok tt p) as HN
          by (vm_compute; reflexivity);
        destruct (parsePrefixExpression_binds_tighter 0 p "a" "b"
                    (token.mkToken token.EQ "==") (token.mkToken token.SEMICOLON ";")
                    parser.EQUALS (or_introl eq_refl) eq_refl
                    ltac:(vm_compute; reflexivity) eq_refl
                    ltac:(vm_compute; lia) eq_refl) as (p' & H & _)
    end.
    rewrite HN. change (3 + 0) with 3 in H. rewrite H. reflexivity.
Defined.
